(** * Risk normalization (safe-f and CAR25): a shallow embedding

    The development follows [risk_normalization.py]:
    - [make_one_equity_sequence]: one bootstrap equity curve;
    - [analyze_distribution_of_drawdown], [compute_tail_risk],
      [form_distribution_of_equity]: the distribution estimators;
    - the module-level safe-f loop and the CAR25 computation.

    Numbers.  The program computes with IEEE doubles (Python [float] and
    [numpy.float64]).  A double is modelled by the type [num]: an exact
    canonical rational ([Qc]) or one of the three special values
    [+inf], [-inf], [nan].  Zero carries no sign.  Two arithmetics are
    given on [num]:
    - the exact one ([nadd], [nmul], [ndiv], ...): the operations of the
      rationals, with the special values produced by a numpy division by
      zero, their propagation through [+], [*], [/], comparisons that
      are false on [nan], and the argument order of Python's [max].  It
      says which recurrence and which formulas the program evaluates and
      what its control flow does;
    - the binary64 one (module [F64]): every operation is the exact one
      followed by [round64], the rounding to the nearest double, ties to
      even, with gradual underflow and overflow to an infinity.  The
      properties of the simulator that rounding and overflow decide (the
      range of the drawdown, the sign of the equity) are stated on it.

    Randomness.  [random.randint] reads an explicit random source: a tape
    of natural numbers and a read position.  Every sequence of indices is
    the reading of some tape; the distribution of the draws is not part
    of the model.

    Not modelled: the plots, the printed lines, the making and the
    reading of the trade list, and the five repetitions of the program
    (one repetition is modelled; the others only start later on the
    tape). *)

From Stdlib Require Import ZArith QArith Qcanon Qround Qpower List Bool Arith.
From Stdlib Require Import Lia.
From Stdlib Require Import Lqa Reals Lra Qreals Sorted Permutation.
Import ListNotations.
Local Open Scope nat_scope.

(* ------------------------------------------------------------------ *)
(** ** Numbers *)

Module Num.

Inductive num : Type :=
| Fin (q : Qc)
| PInf
| NInf
| NaN.

Definition Qcltb (x y : Qc) : bool :=
  match (x ?= y)%Qc with Lt => true | _ => false end.

Definition Qceqb (x y : Qc) : bool :=
  match (x ?= y)%Qc with Eq => true | _ => false end.

Definition is_nan (x : num) : bool :=
  match x with NaN => true | _ => false end.

Definition is_finite (x : num) : bool :=
  match x with Fin _ => true | _ => false end.

Definition nopp (x : num) : num :=
  match x with
  | Fin a => Fin (- a)
  | PInf => NInf
  | NInf => PInf
  | NaN => NaN
  end.

Definition nadd (x y : num) : num :=
  match x, y with
  | NaN, _ | _, NaN => NaN
  | Fin a, Fin b => Fin (a + b)
  | PInf, NInf | NInf, PInf => NaN
  | PInf, _ | _, PInf => PInf
  | NInf, _ | _, NInf => NInf
  end.

Definition nsub (x y : num) : num := nadd x (nopp y).

(** The sign of an infinity multiplied or divided by the finite [a]. *)
Definition signed_inf (positive : bool) : num :=
  if positive then PInf else NInf.

Definition inf_times (positive : bool) (a : Qc) : num :=
  if Qceqb a 0 then NaN
  else signed_inf (if Qcltb 0 a then positive else negb positive).

Definition nmul (x y : num) : num :=
  match x, y with
  | NaN, _ | _, NaN => NaN
  | Fin a, Fin b => Fin (a * b)
  | PInf, Fin a | Fin a, PInf => inf_times true a
  | NInf, Fin a | Fin a, NInf => inf_times false a
  | PInf, PInf | NInf, NInf => PInf
  | PInf, NInf | NInf, PInf => NInf
  end.

(** numpy's true division: a division by zero raises nothing, it yields
    an infinity of the dividend's sign, or [nan] for [0/0]. *)
Definition ndiv (x y : num) : num :=
  match x, y with
  | NaN, _ | _, NaN => NaN
  | Fin a, Fin b =>
      if Qceqb b 0 then
        (if Qceqb a 0 then NaN else signed_inf (Qcltb 0 a))
      else Fin (a / b)
  | Fin _, PInf | Fin _, NInf => Fin 0
  | PInf, Fin b => signed_inf (negb (Qcltb b 0))
  | NInf, Fin b => signed_inf (Qcltb b 0)
  | _, _ => NaN
  end.

(** [x < y] on doubles: false as soon as one side is [nan]. *)
Definition nlt (x y : num) : bool :=
  match x, y with
  | NaN, _ | _, NaN => false
  | Fin a, Fin b => Qcltb a b
  | NInf, Fin _ | NInf, PInf | Fin _, PInf => true
  | _, _ => false
  end.

Definition nabs (x : num) : num :=
  match x with
  | Fin a => Fin (if Qcltb a 0 then - a else a)
  | PInf | NInf => PInf
  | NaN => NaN
  end.

(** [x <= y] on doubles. *)
Definition nle (x y : num) : bool :=
  match x, y with
  | NaN, _ | _, NaN => false
  | Fin a, Fin b => negb (Qcltb b a)
  | NInf, _ | _, PInf => true
  | _, _ => false
  end.

(** Python's builtin [max(a, b)]: the first argument is kept unless the
    second one compares strictly greater. *)
Definition pymax (a b : num) : num := if nlt a b then b else a.

(** The order [numpy.sort] uses: ascending, [nan] last. *)
Definition sort_leb (x y : num) : bool :=
  match x, y with
  | _, NaN => true
  | NaN, _ => false
  | _, _ => negb (nlt y x)
  end.

End Num.
Export Num.

Declare Scope num_scope.
Delimit Scope num_scope with num.
Bind Scope num_scope with num.
Infix "+" := nadd : num_scope.
Infix "-" := nsub : num_scope.
Infix "*" := nmul : num_scope.
Infix "/" := ndiv : num_scope.

(** Decimal literals of the program. *)
Definition dec (n : Z) (d : positive) : num := Fin (Q2Qc (n # d)).

(* ------------------------------------------------------------------ *)
(** ** Rounding to a double *)

Module Binary64.

(** [floor (log2 q)] of a positive rational: the difference of the
    binary lengths of numerator and denominator, corrected by one
    comparison. *)
Definition ilog2 (q : Q) : Z :=
  let k := (Z.log2 (Qnum q) - Z.log2 (Z.pos (Qden q)))%Z in
  match (q ?= 2 ^ k)%Q with Lt => (k - 1)%Z | _ => k end.

(** The exponent of the last bit of the double nearest to the positive
    [q]: 53 significant bits, and never below the exponent [-1074] of the
    subnormal doubles. *)
Definition ulp_exp (q : Q) : Z := Z.max (ilog2 q - 52) (-1074).

(** The nearest integer, a tie going to the even one. *)
Definition rne (s : Q) : Z :=
  let f := Qfloor s in
  match (s - inject_Z f ?= 1 # 2)%Q with
  | Lt => f
  | Gt => (f + 1)%Z
  | Eq => if Z.even f then f else (f + 1)%Z
  end.

(** The multiple of [2 ^ ulp_exp q] nearest to [q >= 0]. *)
Definition round_pos (q : Q) : Q :=
  let e := ulp_exp q in (inject_Z (rne (q / 2 ^ e)) * 2 ^ e)%Q.

Definition round_Q (q : Q) : Q :=
  match (q ?= 0)%Q with
  | Lt => (- round_pos (- q))%Q
  | _ => round_pos q
  end.

(** A rounded magnitude of [2 ^ 1024] or more is an infinity. *)
Definition overflow_threshold : Q := (2 ^ 1024)%Q.

(** IEEE 754 binary64, round to nearest, ties to even. *)
Definition round64 (q : Qc) : num :=
  let r := round_Q q in
  if Qle_bool overflow_threshold r then PInf
  else if Qle_bool r (- overflow_threshold) then NInf
  else Fin (Q2Qc r).

(** The rationals that are doubles. *)
Definition is_double (q : Qc) : Prop := round64 q = Fin q.

End Binary64.
Export Binary64.

(* ------------------------------------------------------------------ *)
(** ** Exceptions, the random source and the computation monad *)

Inductive exn : Type :=
| ValueError_empty_range        (* random.randint on an empty range *)
| ValueError_negative_dimensions (* numpy.zeros with a negative length *)
| ValueError_percentile_range   (* numpy.percentile, q outside [0, 100] *)
| ValueError_math_domain        (* math.log on a non-positive argument *)
| ZeroDivisionError             (* Python float divided by the int 0 *)
| IndexError.                   (* sequence index out of range *)

Inductive result (A : Type) : Type :=
| Ok (a : A)
| Raise (e : exn).
Arguments Ok {A} a.
Arguments Raise {A} e.

Record rng : Type := mkRng { tape : nat -> nat; pos : nat }.

Definition advance (g : rng) (n : nat) : rng :=
  mkRng (tape g) (pos g + n).

(** Computations that consume randomness and may raise. *)
Definition M (A : Type) : Type := rng -> result (A * rng).

Definition ret {A} (a : A) : M A := fun g => Ok (a, g).

Definition bind {A B} (m : M A) (k : A -> M B) : M B :=
  fun g => match m g with
           | Ok (a, g') => k a g'
           | Raise e => Raise e
           end.

Definition raise {A} (e : exn) : M A := fun _ => Raise e.

Declare Scope m_scope.
Delimit Scope m_scope with m.
Notation "x <- m ;; k" := (bind m (fun x => k))
  (at level 61, m at next level, right associativity) : m_scope.
Notation "' pat <- m ;; k" := (bind m (fun x => match x with pat => k end))
  (at level 61, pat pattern, m at next level, right associativity) : m_scope.
Open Scope m_scope.

(** [random.randint(a, b)]: an integer of [[a, b]], both ends included;
    [ValueError] when the range is empty. *)
Definition randint (a b : Z) : M Z :=
  fun g =>
    if (b <? a)%Z then Raise ValueError_empty_range
    else Ok ((a + Z.of_nat (tape g (pos g)) mod (b - a + 1))%Z, advance g 1).

(** [xs[i]] for an index that is not negative. *)
Definition getitem {A} (xs : list A) (i : Z) : M A :=
  match nth_error xs (Z.to_nat i) with
  | Some x => ret x
  | None => raise IndexError
  end.

(** [for i in range(n): st = body(i, st)] *)
Fixpoint for_range {St} (start n : nat) (body : nat -> St -> M St) (st : St)
    : M St :=
  match n with
  | O => ret st
  | S n' => st' <- body start st ;; for_range (S start) n' body st'
  end.

(** [a[i] = v] on an array: the index is in range in every use. *)
Fixpoint list_set {A} (xs : list A) (i : nat) (v : A) : list A :=
  match xs, i with
  | [], _ => []
  | _ :: xs', O => v :: xs'
  | x :: xs', S i' => x :: list_set xs' i' v
  end.

(** [numpy.zeros(n)] *)
Definition np_zeros (n : Z) : M (list num) :=
  if (n <? 0)%Z then raise ValueError_negative_dimensions
  else ret (repeat (Fin 0) (Z.to_nat n)).

(* ------------------------------------------------------------------ *)
(** ** make_one_equity_sequence *)

Record curve : Type := mkCurve {
  equity : num;
  max_equity : num;
  drawdown : num;
  max_drawdown : num;
  daily_equity : list num
}.

(** Lines 224-229: the update of the loop variables by one trade. *)
Definition curve_update (fraction : num) (i : nat) (st : curve) (trade : num)
    : curve :=
  let trade_dollars := (equity st * fraction * trade)%num in
  let equity' := (equity st + trade_dollars)%num in
  let daily' := list_set (daily_equity st) i equity' in
  let max_equity' := pymax equity' (max_equity st) in
  let drawdown' := ((max_equity' - equity') / max_equity')%num in
  let max_drawdown' := pymax drawdown' (max_drawdown st) in
  mkCurve equity' max_equity' drawdown' max_drawdown' daily'.

(** One pass of the loop body, lines 222-229. *)
Definition curve_step (trades : list num) (fraction : num) (pool_size : Z)
    (i : nat) (st : curve) : M curve :=
  trade_index <- randint 0 (pool_size - 1) ;;
  trade <- getitem trades trade_index ;;
  ret (curve_update fraction i st trade).

Definition curve_init (initial_capital : num) (daily : list num) : curve :=
  mkCurve initial_capital initial_capital (Fin 0) (Fin 0) daily.

(** The loop of [make_one_equity_sequence], with the whole loop state. *)
Definition equity_loop (trades : list num) (fraction : num)
    (forecast_length : Z) (initial_capital : num) : M curve :=
  let pool_size := Z.of_nat (length trades) in
  daily <- np_zeros forecast_length ;;
  for_range 0 (Z.to_nat forecast_length)
    (curve_step trades fraction pool_size)
    (curve_init initial_capital daily).

(** [make_one_equity_sequence(trades, fraction, forecast_length,
    initial_capital)]; the plot of [daily_equity] is not modelled. *)
Definition make_one_equity_sequence (trades : list num) (fraction : num)
    (forecast_length : Z) (initial_capital : num) : M (num * num) :=
  st <- equity_loop trades fraction forecast_length initial_capital ;;
  ret (equity st, max_drawdown st).

(** The defaults of the signature. *)
Definition default_fraction : num := Fin 1.
Definition default_forecast_length : Z := 500.
Definition default_initial_capital : num := dec 100000 1.
Definition default_number_sequences : Z := 1000.
Definition default_tail_percentile : Qc := Q2Qc 5.

(* ------------------------------------------------------------------ *)
(** ** make_one_equity_sequence in binary64 arithmetic *)

Module F64.

(** The result of an operation on doubles: the exact result, rounded. *)
Definition round (x : num) : num :=
  match x with
  | Fin q => round64 q
  | _ => x
  end.

Definition fadd (x y : num) : num := round (x + y)%num.
Definition fsub (x y : num) : num := round (x - y)%num.
Definition fmul (x y : num) : num := round (x * y)%num.
Definition fdiv (x y : num) : num := round (x / y)%num.

(** Lines 224-229: the update of the loop variables by one trade. *)
Definition curve_update (fraction : num) (i : nat) (st : curve) (trade : num)
    : curve :=
  let trade_dollars := fmul (fmul (equity st) fraction) trade in
  let equity' := fadd (equity st) trade_dollars in
  let daily' := list_set (daily_equity st) i equity' in
  let max_equity' := pymax equity' (max_equity st) in
  let drawdown' := fdiv (fsub max_equity' equity') max_equity' in
  let max_drawdown' := pymax drawdown' (max_drawdown st) in
  mkCurve equity' max_equity' drawdown' max_drawdown' daily'.

(** One pass of the loop body, lines 222-229. *)
Definition curve_step (trades : list num) (fraction : num) (pool_size : Z)
    (i : nat) (st : curve) : M curve :=
  trade_index <- randint 0 (pool_size - 1) ;;
  trade <- getitem trades trade_index ;;
  ret (curve_update fraction i st trade).

Definition equity_loop (trades : list num) (fraction : num)
    (forecast_length : Z) (initial_capital : num) : M curve :=
  let pool_size := Z.of_nat (length trades) in
  daily <- np_zeros forecast_length ;;
  for_range 0 (Z.to_nat forecast_length)
    (curve_step trades fraction pool_size)
    (curve_init initial_capital daily).

Definition make_one_equity_sequence (trades : list num) (fraction : num)
    (forecast_length : Z) (initial_capital : num) : M (num * num) :=
  st <- equity_loop trades fraction forecast_length initial_capital ;;
  ret (equity st, max_drawdown st).

End F64.

(* ------------------------------------------------------------------ *)
(** ** numpy.sort and numpy.percentile *)

Fixpoint sort_insert (x : num) (xs : list num) : list num :=
  match xs with
  | [] => [x]
  | y :: ys => if sort_leb x y then x :: y :: ys else y :: sort_insert x ys
  end.

(** [numpy.sort]: the ascending arrangement, [nan] last.  Equal doubles
    are indistinguishable, so the sorting algorithm does not matter. *)
Fixpoint np_sort (xs : list num) : list num :=
  match xs with
  | [] => []
  | x :: xs' => sort_insert x (np_sort xs')
  end.

(** numpy's linear interpolation [a + (b - a) * t]. *)
Definition lerp (a b : num) (t : Qc) : num := (a + (b - a) * Fin t)%num.

Definition Qc_of_Z (z : Z) : Qc := Q2Qc (inject_Z z).

(** [numpy.percentile(a, q)] with the default (linear) method: the data
    are ordered, the virtual index [(n - 1) * q / 100] is split into its
    floor and its fractional part, and the two neighbouring order
    statistics are interpolated.  A [nan] among the data gives [nan], and
    so does an empty array. *)
Definition np_percentile (a : list num) (q : Qc) : result num :=
  if Qcltb q 0 || Qcltb (Qc_of_Z 100) q then Raise ValueError_percentile_range
  else
    let arr := np_sort a in
    let n := length arr in
    if (n =? 0)%nat then Ok NaN
    else if existsb is_nan arr then Ok NaN
    else
      let virtual_index := (Qc_of_Z (Z.of_nat n - 1) * (q / Qc_of_Z 100))%Qc in
      let previous := Qfloor virtual_index in
      let next := Z.min (previous + 1) (Z.of_nat n - 1) in
      let gamma := (virtual_index - Qc_of_Z previous)%Qc in
      Ok (lerp (nth (Z.to_nat previous) arr NaN)
               (nth (Z.to_nat next) arr NaN) gamma).

Definition lift {A} (r : result A) : M A :=
  fun g => match r with Ok a => Ok (a, g) | Raise e => Raise e end.

(** Sequencing of computations that may raise and draw nothing. *)
Definition rbind {A B} (r : result A) (k : A -> result B) : result B :=
  match r with
  | Ok a => k a
  | Raise e => Raise e
  end.

Notation "x <-- r ;; k" := (rbind r (fun x => k))
  (at level 61, r at next level, right associativity) : m_scope.

(* ------------------------------------------------------------------ *)
(** ** The distribution estimators *)

Inductive weighting_t : Type := uniform | triangular.

(** The body shared by the two estimators, lines 260-263 and 307-310:
    the call passes [trades] and [fraction] only, so the curve is made
    with the defaults of [make_one_equity_sequence]. *)
Definition collect_step (trades : list num) (fraction : num)
    (i : nat) (lists : list num * list num) : M (list num * list num) :=
  '(equity, max_drawdown) <-
     make_one_equity_sequence trades fraction
       default_forecast_length default_initial_capital ;;
  ret (fst lists ++ [equity], snd lists ++ [max_drawdown]).

Definition collect_curves (trades : list num) (fraction : num)
    (number_sequences : Z) : M (list num * list num) :=
  for_range 0 (Z.to_nat number_sequences) (collect_step trades fraction)
    ([], []).

Definition analyze_distribution_of_drawdown (trades : list num)
    (fraction : num) (forecast_length : Z) (initial_capital : num)
    (weighting : weighting_t) (number_sequences : Z) (tail_percentile : Qc)
    : M num :=
  '(equity_list, max_dd_list) <-
     collect_curves trades fraction number_sequences ;;
  let sorted_max_dd := np_sort max_dd_list in
  tail_risk <- lift (np_percentile sorted_max_dd (Qc_of_Z 100 - tail_percentile)%Qc) ;;
  ret tail_risk.

Definition compute_tail_risk (drawdowns : list num) (fraction : num)
    (tail_percentile : Qc) : M num :=
  CDF_dd <- analyze_distribution_of_drawdown drawdowns fraction
              default_forecast_length default_initial_capital uniform
              default_number_sequences default_tail_percentile ;;
  tail_risk <- lift (np_percentile [CDF_dd] (Qc_of_Z 100 - tail_percentile)%Qc) ;;
  ret tail_risk.

Definition form_distribution_of_equity (trades : list num)
    (fraction : num) (forecast_length : Z) (initial_capital : num)
    (number_sequences : Z) : M (list num) :=
  '(equity_list, max_dd_list) <-
     collect_curves trades fraction number_sequences ;;
  let sorted_equity := np_sort equity_list in
  ret sorted_equity.

(* ------------------------------------------------------------------ *)
(** ** The module-level program: solving for safe-f *)

Definition drawdown_tolerance : num := dec 10 100.
Definition desired_accuracy : num := dec 3 1000.
Definition initial_capital : num := dec 100000 1.

(** The variables the [while] loop reads and writes; [safe_f] is unbound
    until line 386 assigns it. *)
Record solver : Type := mkSolver {
  fraction : num;
  tail_risk : num;
  safe_f : option num;
  done : bool
}.

(** [analyze_distribution_of_drawdown(trades, fraction)] as the program
    calls it. *)
Definition tail_risk_at (trades : list num) (fraction : num) : M num :=
  analyze_distribution_of_drawdown trades fraction
    default_forecast_length default_initial_capital uniform
    default_number_sequences default_tail_percentile.

Definition converged (tail_risk : num) : bool :=
  nlt (nabs (tail_risk - drawdown_tolerance)) desired_accuracy.

(** One pass of the [while not done] body, lines 380-389. *)
Definition solver_pass (trades : list num) (st : solver) : M solver :=
  tail_risk' <- tail_risk_at trades (fraction st) ;;
  if converged tail_risk'
  then ret (mkSolver (fraction st) tail_risk' (Some tail_risk') true)
  else ret (mkSolver (fraction st * drawdown_tolerance / tail_risk')%num
                     tail_risk' (safe_f st) false).

(** [while not done]: [None] when the loop is still running after [fuel]
    passes. *)
Fixpoint while_not_done (fuel : nat) (trades : list num) (st : solver)
    : M (option solver) :=
  if done st then ret (Some st)
  else match fuel with
       | O => ret None
       | S fuel' =>
           st' <- solver_pass trades st ;; while_not_done fuel' trades st'
       end.

(** Lines 366-389 of one repetition: the first estimate of line 370,
    then the loop started at [fraction = 1.0]. *)
Definition solve_safe_f (fuel : nat) (trades : list num) : M (option solver) :=
  tail_risk0 <- tail_risk_at trades default_fraction ;;
  while_not_done fuel trades (mkSolver (Fin 1) tail_risk0 None false).

(* ------------------------------------------------------------------ *)
(** ** The module-level program: CAR25 *)

(** Results of [math.log] and [math.exp] are Python floats; they are
    modelled by real numbers with the same three special values. *)
Inductive xreal : Type :=
| XFin (r : R)
| XPInf
| XNInf
| XNaN.

(** [math.log(x)]: [ValueError] (math domain error) unless [x > 0]. *)
Definition math_log (x : num) : result xreal :=
  match x with
  | Fin a => if Qcltb 0 a then Ok (XFin (ln (Q2R a)))
             else Raise ValueError_math_domain
  | PInf => Ok XPInf
  | NInf => Raise ValueError_math_domain
  | NaN => Ok XNaN
  end.

(** [math.exp(x)] *)
Definition math_exp (x : xreal) : result xreal :=
  match x with
  | XFin r => Ok (XFin (exp r))
  | XPInf => Ok XPInf
  | XNInf => Ok (XFin 0%R)
  | XNaN => Ok XNaN
  end.

(** [252.0 / forecast_length]: a Python float divided by an [int]. *)
Definition periods_ratio (forecast_length : Z) : result R :=
  if (forecast_length =? 0)%Z then Raise ZeroDivisionError
  else Ok (252 / IZR forecast_length)%R.

(** The product of the finite non-zero float [k] and [x]. *)
Definition xscale (k : R) (x : xreal) : xreal :=
  match x with
  | XFin r => XFin (k * r)%R
  | XPInf => if Rlt_dec 0 k then XPInf else XNInf
  | XNInf => if Rlt_dec 0 k then XNInf else XPInf
  | XNaN => XNaN
  end.

(** [100.0 * (e - 1.0)] *)
Definition percent_gain (e : xreal) : xreal :=
  match e with
  | XFin r => XFin (100 * (r - 1))%R
  | other => other
  end.

(** Lines 401-405: from the sorted equities to CAR25.  [forecast_length]
    and [initial_capital] are the module's variables. *)
Definition CAR25_of (CDF_equity : list num) (forecast_length : Z)
    (initial_capital : num) : result xreal :=
  TWR25 <-- np_percentile CDF_equity (Qc_of_Z 25) ;;
  k <-- periods_ratio forecast_length ;;
  l <-- math_log (TWR25 / initial_capital)%num ;;
  e <-- math_exp (xscale k l) ;;
  Ok (percent_gain e).

(** Lines 398-405 of one repetition. *)
Definition compute_CAR25 (trades : list num) (fraction : num) : M xreal :=
  let forecast_length := 500%Z in
  CDF_equity <- form_distribution_of_equity trades fraction
                  default_forecast_length default_initial_capital
                  default_number_sequences ;;
  lift (CAR25_of CDF_equity forecast_length initial_capital).

(** One repetition of the program: safe-f, then CAR25 at the final
    [fraction]; [None] while the loop is still running. *)
Definition risk_normalization (fuel : nat) (trades : list num)
    : M (option (solver * xreal)) :=
  r <- solve_safe_f fuel trades ;;
  match r with
  | None => ret None
  | Some st => car <- compute_CAR25 trades (fraction st) ;; ret (Some (st, car))
  end.

(* ------------------------------------------------------------------ *)
(** ** The recurrence of the specification, on rationals

    Section 4.1 of the specification, written from its words: the
    simulator state is [(equity, maxEquity, maxDrawdown)], and one step
    consumes the return [r] of the drawn trade. *)

Module Spec.

Definition Qcmax (x y : Qc) : Qc := if Qcltb x y then y else x.

Record sim : Type := mkSim {
  equity : Qc;
  maxEquity : Qc;
  maxDrawdown : Qc
}.

Definition start (initialCapital : Qc) : sim :=
  mkSim initialCapital initialCapital 0%Qc.

Definition step (fraction : Qc) (s : sim) (r : Qc) : sim :=
  let equity' := (equity s + equity s * fraction * r)%Qc in
  let maxEquity' := Qcmax (maxEquity s) equity' in
  let drawdown := ((maxEquity' - equity') / maxEquity')%Qc in
  mkSim equity' maxEquity' (Qcmax (maxDrawdown s) drawdown).

Definition run (fraction : Qc) (rs : list Qc) (s : sim) : sim :=
  fold_left (step fraction) rs s.


(** The percentile by linear interpolation between order statistics, for
    a sample that is already sorted: position [h = (n - 1) * p / 100],
    value [s_k + (h - k) * (s_(k+1) - s_k)] with [k = floor h]. *)
Definition percentile (sorted : list Qc) (p : Qc) : Qc :=
  let h := (Qc_of_Z (Z.of_nat (length sorted) - 1) * (p / Qc_of_Z 100))%Qc in
  let k := Z.to_nat (Qfloor h) in
  let lo := nth k sorted 0%Qc in
  let hi := nth (Nat.min (k + 1) (length sorted - 1)) sorted 0%Qc in
  (lo + (Q2Qc (h - inject_Z (Qfloor h))) * (hi - lo))%Qc.

End Spec.

(* ------------------------------------------------------------------ *)
(** ** The loop of the simulator without its effects *)

(** The index read by the [k]-th draw from [g] in a pool of [len]
    trades. *)
Definition draw_index (g : rng) (len k : nat) : nat :=
  tape g (pos g + k) mod len.

Definition drawn_indices (g : rng) (n len : nat) : list nat :=
  map (draw_index g len) (seq 0 n).

Definition drawn_trades (g : rng) (n : nat) (trades : list num) : list num :=
  map (fun i => nth i trades NaN) (drawn_indices g n (length trades)).

(** The loop variables after the trades [rs], the first one stored at
    index [start] of [daily_equity]. *)
Fixpoint run_curve (fraction : num) (start : nat) (rs : list num)
    (st : curve) : curve :=
  match rs with
  | [] => st
  | r :: rs' => run_curve fraction (S start) rs' (curve_update fraction start st r)
  end.

(** The equities written to [daily_equity] by the trades [rs]. *)
Fixpoint curve_equities (fraction : num) (start : nat) (rs : list num)
    (st : curve) : list num :=
  match rs with
  | [] => []
  | r :: rs' =>
      let st' := curve_update fraction start st r in
      equity st' :: curve_equities fraction (S start) rs' st'
  end.

(** The simulator state [st] holds the rationals of the state [s] of the
    specification. *)
Definition tracks (s : Spec.sim) (st : curve) : Prop :=
  equity st = Fin (Spec.equity s) /\
  max_equity st = Fin (Spec.maxEquity s) /\
  max_drawdown st = Fin (Spec.maxDrawdown s).

(** The equities of the specification's recurrence, step by step. *)
Fixpoint spec_equities (fraction : Qc) (rs : list Qc) (s : Spec.sim) : list Qc :=
  match rs with
  | [] => []
  | r :: rs' =>
      Spec.equity (Spec.step fraction s r)
      :: spec_equities fraction rs' (Spec.step fraction s r)
  end.

(** Insertion sort on rationals: the order statistics of a finite
    sample. *)
Fixpoint qinsert (x : Qc) (xs : list Qc) : list Qc :=
  match xs with
  | [] => [x]
  | y :: ys => if Qcltb y x then y :: qinsert x ys else x :: y :: ys
  end.

Fixpoint qsort (xs : list Qc) : list Qc :=
  match xs with
  | [] => []
  | x :: xs' => qinsert x (qsort xs')
  end.

(** [xs] is in the order of [numpy.sort]. *)
Definition np_sorted (xs : list num) : Prop :=
  Sorted (fun x y => sort_leb x y = true) xs.

Definition ascending (xs : list Qc) : Prop := Sorted Qcle xs.

(** The number of draws of one curve made with the defaults. *)
Definition curve_draws : nat := Z.to_nat default_forecast_length.

(** The curve [make_one_equity_sequence(trades, fraction)] builds from
    the random source [g]. *)
Definition default_curve (trades : list num) (fraction : num) (g : rng)
    : curve :=
  run_curve fraction 0 (drawn_trades g curve_draws trades)
    (curve_init default_initial_capital (repeat (Fin 0%Qc) curve_draws)).

(** The [n] curves an estimator builds one after the other. *)
Fixpoint curves (trades : list num) (fraction : num) (n : nat) (g : rng)
    : list curve :=
  match n with
  | O => []
  | S n' =>
      default_curve trades fraction g
      :: curves trades fraction n' (advance g curve_draws)
  end.

(** The curve every source gives on the one-trade pool [[x]]. *)
Definition single_curve (x fraction : num) : curve :=
  run_curve fraction 0 (repeat x curve_draws)
    (curve_init default_initial_capital (repeat (Fin 0%Qc) curve_draws)).

(** The draws one estimate consumes. *)
Definition estimate_draws : nat :=
  Z.to_nat default_number_sequences * curve_draws.

(** The percentile the program asks of the drawdowns: [100 - 5]. *)
Definition default_percent : Qc := (Qc_of_Z 100 - default_tail_percentile)%Qc.

(** A random source whose tape is constant. *)
Definition zero_source : rng := mkRng (fun _ => 0) 0.

(** The loop has left its [while]: it returned a state or it raised. *)
Definition stopped {A} (r : result (option A * rng)) : Prop :=
  match r with
  | Ok (None, _) => False
  | _ => True
  end.

(** The state in which the loop of the solver is entered. *)
Definition solver_init (tail_risk0 : num) : solver :=
  mkSolver (Fin 1%Qc) tail_risk0 None false.

(** The state of the recurrence after [k] identical trades that each
    multiply the equity by [p], [0 <= p <= 1]: the equity has only
    fallen, from the peak [c]. *)
Definition loss_state (c p : Qc) (k : nat) : Spec.sim :=
  Spec.mkSim (c * p ^ k)%Qc c (1 - p ^ k)%Qc.

(** A pool of one small loss: the trade [-0.000205]. *)
Definition small_loss : Qc := Q2Qc (-41 # 200000).

(** The factor by which [small_loss] multiplies the equity at the
    fraction [1.0], and the drawdown of its curve. *)
Definition small_loss_factor : Qc := Q2Qc (199959 # 200000).
Definition small_loss_drawdown : Qc := (1 - small_loss_factor ^ curve_draws)%Qc.

(** A random source whose tape counts: [0, 1, 2, ...]. *)
Definition counting_source : rng := mkRng (fun n => n) 0.

(** The returns of the trades the simulator draws from the pool of
    rationals [pool]: [n] draws from the source [g]. *)
Definition drawn_returns (pool : list Qc) (g : rng) (n : nat) : list Qc :=
  map (fun i => nth i pool 0%Qc) (drawn_indices g n (length pool)).


(** A double that an infinite stake has destroyed: [+inf] or [nan]. *)
Definition blown (x : num) : Prop := x = PInf \/ x = NaN.

(** The loop variables of the binary64 simulator after the trades
    [rs], and the equities it writes to [daily_equity]. *)
Fixpoint run_curve64 (fraction : num) (start : nat) (rs : list num)
    (st : curve) : curve :=
  match rs with
  | [] => st
  | r :: rs' =>
      run_curve64 fraction (S start) rs' (F64.curve_update fraction start st r)
  end.

Fixpoint curve_equities64 (fraction : num) (start : nat) (rs : list num)
    (st : curve) : list num :=
  match rs with
  | [] => []
  | r :: rs' =>
      let st' := F64.curve_update fraction start st r in
      equity st' :: curve_equities64 fraction (S start) rs' st'
  end.

(** A loop state whose equity has left the doubles for good: the equity
    and the peak are [+inf] or [nan], the largest drawdown is [nan]. *)
Definition overflowed (st : curve) : Prop :=
  blown (equity st) /\ blown (max_equity st) /\ max_drawdown st = NaN.

(** A loop state of doubles: a peak that is positive, and a largest
    drawdown of [[0, 1]]. *)
Definition sound (st : curve) : Prop :=
  exists m d,
    max_equity st = Fin m /\ is_double m /\ (0 < m)%Qc /\
    max_drawdown st = Fin d /\ (0 <= d)%Qc /\ (d <= 1)%Qc.

(** The doubles [7.0] and [100000.0]. *)
Definition seven : Qc := Q2Qc 7.
Definition capital : Qc := Q2Qc 100000.

(** The divisor of the drawdown is usable: the peak is positive, or the
    equity and the peak are both [nan]. *)
Definition divisor_ok (st : curve) : Prop :=
  (equity st = NaN /\ max_equity st = NaN) \/
  nlt (Fin 0%Qc) (max_equity st) = true.

(** An account that is not in debt. *)
Definition solvent (st : curve) : Prop :=
  exists x, equity st = Fin x /\ is_double x /\ (0 <= x)%Qc.

(** An account at its peak, which is at least [c], and that has never
    left it. *)
Definition at_peak (c : Qc) (st : curve) : Prop :=
  exists x,
    equity st = Fin x /\ max_equity st = Fin x /\ is_double x /\
    (c <= x)%Qc /\ max_drawdown st = Fin 0%Qc.

(** A curve of the pool [[7.0]] at the fraction [1.0]: the account is at
    its peak, of at least [2 ^ j], and has never left it; or the equity
    has overflowed. *)
Definition growing (j : Z) (st : curve) : Prop :=
  (exists x,
     equity st = Fin x /\ max_equity st = Fin x /\ is_double x /\
     (2 ^ j <= x)%Q /\ max_drawdown st = Fin 0%Qc) \/
  (equity st = PInf /\ max_drawdown st = NaN).

(* ================================================================== *)
(** * Properties *)

(** ** Comparisons of canonical rationals *)

Lemma Qcltb_true x y : Qcltb x y = true <-> (x < y)%Qc.
Proof.
  unfold Qcltb. rewrite Qclt_alt. destruct (x ?= y)%Qc; split; congruence.
Qed.

Lemma Qcltb_false x y : Qcltb x y = false <-> (y <= x)%Qc.
Proof.
  unfold Qcltb. rewrite Qcle_alt.
  assert (H : (y ?= x)%Qc = CompOpp (x ?= y)%Qc)
    by (unfold Qccompare; symmetry; apply Qcompare_antisym).
  rewrite H. destruct (x ?= y)%Qc; simpl; split; congruence.
Qed.

Lemma Qceqb_true x y : Qceqb x y = true <-> x = y.
Proof.
  unfold Qceqb. rewrite Qceq_alt. destruct (x ?= y)%Qc; split; congruence.
Qed.

Lemma Qceqb_false x y : Qceqb x y = false <-> x <> y.
Proof.
  rewrite <- Qceqb_true. destruct (Qceqb x y); split; congruence.
Qed.

Lemma Qceqb_refl x : Qceqb x x = true.
Proof. now apply Qceqb_true. Qed.

Lemma Qcltb_irrefl x : Qcltb x x = false.
Proof. apply Qcltb_false, Qcle_refl. Qed.

(** Goals on [Qc] are sent to [Q], where linear arithmetic is decided. *)
Ltac qlra := Lqa.lra.
Ltac qnra := Lqa.nra.

Ltac qc2q :=
  unfold Qcle, Qclt, Qcdiv, Qcminus, Qcplus, Qcmult, Qcopp, Qcinv in *;
  cbn [this Q2Qc] in *;
  repeat rewrite Qred_correct in *.

Lemma Qc_neq_0_lt (m : Qc) : (0 < m)%Qc -> m <> 0%Qc.
Proof. intros H E. subst m. revert H. apply Qcle_not_lt, Qcle_refl. Qed.

(** ** The monad *)

Lemma bind_ok {A B} (m : M A) (k : A -> M B) g a g' :
  m g = Ok (a, g') -> bind m k g = k a g'.
Proof. unfold bind. now intros ->. Qed.

Lemma bind_raise {A B} (m : M A) (k : A -> M B) g e :
  m g = Raise e -> bind m k g = Raise e.
Proof. unfold bind. now intros ->. Qed.

Lemma advance_advance g a b : advance (advance g a) b = advance g (a + b).
Proof. unfold advance. simpl. f_equal. lia. Qed.

Lemma advance_0 g : advance g 0 = g.
Proof. destruct g. unfold advance. simpl. f_equal. lia. Qed.

(** ** The simulator loop is a fold over the drawn trades *)

Lemma randint_pool (len : nat) g :
  len <> 0 ->
  randint 0 (Z.of_nat len - 1) g
  = Ok (Z.of_nat (draw_index g len 0), advance g 1).
Proof.
  intros Hlen. unfold randint, draw_index.
  destruct (Z.ltb_spec (Z.of_nat len - 1) 0) as [H|H]; [lia|].
  replace (Z.of_nat len - 1 - 0 + 1)%Z with (Z.of_nat len) by lia.
  rewrite Nat.add_0_r, Nat2Z.inj_mod. reflexivity.
Qed.

Lemma getitem_nth {A} (xs : list A) (i : nat) (d : A) g :
  i < length xs -> getitem xs (Z.of_nat i) g = Ok (nth i xs d, g).
Proof.
  intros Hi. unfold getitem. rewrite Nat2Z.id.
  rewrite (nth_error_nth' xs d Hi). reflexivity.
Qed.

Lemma draw_index_lt g len k : len <> 0 -> draw_index g len k < len.
Proof. intros H. unfold draw_index. apply Nat.mod_upper_bound. exact H. Qed.

Lemma curve_step_ok trades fraction i st g :
  trades <> [] ->
  curve_step trades fraction (Z.of_nat (length trades)) i st g
  = Ok (curve_update fraction i st
          (nth (draw_index g (length trades) 0) trades NaN), advance g 1).
Proof.
  intros Hne. unfold curve_step.
  assert (Hlen : length trades <> 0) by (destruct trades; simpl; congruence).
  rewrite (bind_ok _ _ _ _ _ (randint_pool _ g Hlen)).
  rewrite (bind_ok _ _ _ _ _
             (getitem_nth trades (draw_index g (length trades) 0) NaN _
                (Nat.mod_upper_bound _ _ Hlen))).
  reflexivity.
Qed.

Lemma drawn_indices_S g n len :
  drawn_indices g (S n) len
  = draw_index g len 0 :: drawn_indices (advance g 1) n len.
Proof.
  unfold drawn_indices. simpl. f_equal.
  rewrite <- seq_shift, map_map. apply map_ext.
  intros k. unfold draw_index, advance. simpl. do 2 f_equal. lia.
Qed.

Lemma drawn_trades_S g n trades :
  drawn_trades g (S n) trades
  = nth (draw_index g (length trades) 0) trades NaN
    :: drawn_trades (advance g 1) n trades.
Proof. unfold drawn_trades. now rewrite drawn_indices_S. Qed.

Lemma for_range_curve trades fraction n : forall start st g,
  trades <> [] ->
  for_range start n (curve_step trades fraction (Z.of_nat (length trades))) st g
  = Ok (run_curve fraction start (drawn_trades g n trades) st, advance g n).
Proof.
  induction n as [|n IH]; intros start st g Hne.
  - simpl. unfold ret. now rewrite advance_0.
  - simpl for_range. rewrite (bind_ok _ _ _ _ _ (curve_step_ok _ _ _ _ _ Hne)).
    rewrite IH by exact Hne. rewrite drawn_trades_S, advance_advance.
    reflexivity.
Qed.

(** ** Finite inputs: the simulator computes the specification's recurrence *)

Lemma pymax_fin a b : pymax (Fin a) (Fin b) = Fin (Spec.Qcmax b a).
Proof.
  unfold pymax, Spec.Qcmax. simpl.
  destruct (Qcltb a b) eqn:Hab, (Qcltb b a) eqn:Hba; try reflexivity.
  - apply Qcltb_true in Hab, Hba.
    exfalso. apply (Qclt_not_le _ _ Hab). now apply Qclt_le_weak.
  - apply Qcltb_false in Hab, Hba. f_equal. now apply Qcle_antisym.
Qed.

Lemma Qcmax_ge_l x y : (x <= Spec.Qcmax x y)%Qc.
Proof.
  unfold Spec.Qcmax. destruct (Qcltb x y) eqn:H.
  - apply Qcltb_true in H. now apply Qclt_le_weak.
  - apply Qcle_refl.
Qed.

Section FiniteRun.

Variable fraction : Qc.

Lemma step_maxEquity_ge s r :
  (Spec.maxEquity s <= Spec.maxEquity (Spec.step fraction s r))%Qc.
Proof. simpl. apply Qcmax_ge_l. Qed.

Lemma step_maxEquity_pos s r :
  (0 < Spec.maxEquity s)%Qc ->
  (0 < Spec.maxEquity (Spec.step fraction s r))%Qc.
Proof.
  intros H. eapply Qclt_le_trans; [exact H | apply step_maxEquity_ge].
Qed.

Lemma curve_update_tracks r i s st :
  tracks s st -> (0 < Spec.maxEquity s)%Qc ->
  tracks (Spec.step fraction s r) (curve_update (Fin fraction) i st (Fin r)).
Proof.
  intros (He & Hm & Hd) Hpos.
  pose proof (step_maxEquity_pos s r Hpos) as Hpos'.
  unfold tracks, curve_update. cbn [equity max_equity max_drawdown].
  rewrite He, Hm, Hd. cbn [nmul nadd]. rewrite pymax_fin.
  simpl in Hpos'. unfold nsub. cbn [nopp nadd ndiv].
  rewrite (proj2 (Qceqb_false _ _) (Qc_neq_0_lt _ Hpos')).
  rewrite pymax_fin. repeat split; reflexivity.
Qed.

Lemma run_curve_tracks rs : forall start s st,
  tracks s st -> (0 < Spec.maxEquity s)%Qc ->
  tracks (Spec.run fraction rs s)
         (run_curve (Fin fraction) start (map Fin rs) st).
Proof.
  induction rs as [|r rs IH]; intros start s st Ht Hpos; simpl.
  - exact Ht.
  - apply IH.
    + now apply curve_update_tracks.
    + now apply step_maxEquity_pos.
Qed.

End FiniteRun.

Lemma tracks_init c daily : tracks (Spec.start c) (curve_init (Fin c) daily).
Proof. repeat split. Qed.

Lemma drawn_trades_fin (pool : list Qc) g n :
  pool <> [] ->
  drawn_trades g n (map Fin pool)
  = map Fin (map (fun i => nth i pool 0%Qc) (drawn_indices g n (length pool))).
Proof.
  intros Hne. unfold drawn_trades. rewrite length_map, map_map.
  apply map_ext_in. intros i Hi.
  unfold drawn_indices in Hi. apply in_map_iff in Hi as (k & <- & _).
  assert (Hlen : length pool <> 0) by (destruct pool; simpl; congruence).
  pose proof (draw_index_lt g (length pool) k Hlen) as Hlt.
  rewrite (nth_indep _ NaN (Fin 0%Qc)) by now rewrite length_map.
  apply map_nth.
Qed.

Lemma drawn_indices_length g n len : length (drawn_indices g n len) = n.
Proof. unfold drawn_indices. now rewrite length_map, length_seq. Qed.

Lemma drawn_indices_lt g n len :
  len <> 0 -> Forall (fun i => i < len) (drawn_indices g n len).
Proof.
  intros H. unfold drawn_indices. apply Forall_forall. intros i Hi.
  apply in_map_iff in Hi as (k & <- & _). now apply draw_index_lt.
Qed.

Lemma map_Fin_ne (pool : list Qc) : pool <> [] -> map Fin pool <> [].
Proof. destruct pool; simpl; congruence. Qed.

(** The loop on a non-empty pool, for a length that is not negative. *)
Lemma equity_loop_ok trades fraction forecast_length initial_capital g :
  trades <> [] -> (0 <= forecast_length)%Z ->
  equity_loop trades fraction forecast_length initial_capital g
  = Ok (run_curve fraction 0
          (drawn_trades g (Z.to_nat forecast_length) trades)
          (curve_init initial_capital
             (repeat (Fin 0%Qc) (Z.to_nat forecast_length))),
        advance g (Z.to_nat forecast_length)).
Proof.
  intros Hne Hfl. unfold equity_loop, np_zeros.
  destruct (Z.ltb_spec forecast_length 0) as [H|H]; [lia|].
  unfold bind at 1. unfold ret at 1.
  now apply for_range_curve.
Qed.


Lemma list_set_app {A} (pre : list A) z post v :
  list_set (pre ++ z :: post) (length pre) v = pre ++ v :: post.
Proof. induction pre as [|x pre IH]; simpl; [reflexivity | now rewrite IH]. Qed.

(** [daily_equity] ends as the list of the equities of the passes. *)
Lemma run_curve_daily fraction rs : forall start st pre zeros,
  daily_equity st = pre ++ zeros -> length pre = start ->
  length zeros = length rs ->
  daily_equity (run_curve fraction start rs st)
  = pre ++ curve_equities fraction start rs st.
Proof.
  induction rs as [|r rs IH]; intros start st pre zeros Hd Hpre Hz; simpl.
  - destruct zeros; [|discriminate]. exact Hd.
  - destruct zeros as [|z zeros]; [discriminate|].
    rewrite (IH (S start) _ (pre ++ [equity (curve_update fraction start st r)])
               zeros).
    + now rewrite <- app_assoc.
    + cbn [curve_update daily_equity equity]. rewrite Hd, <- Hpre, list_set_app.
      now rewrite <- app_assoc.
    + rewrite length_app. simpl. lia.
    + simpl in Hz. lia.
Qed.

(** ** numpy.sort *)

Lemma sort_leb_total x y : sort_leb x y = false -> sort_leb y x = true.
Proof.
  destruct x as [a| | |], y as [b| | |]; simpl; try congruence.
  intros H. apply negb_false_iff, Qcltb_true in H.
  apply negb_true_iff, Qcltb_false. now apply Qclt_le_weak.
Qed.

Lemma sort_leb_refl x : sort_leb x x = true.
Proof. destruct x; simpl; try reflexivity. now rewrite Qcltb_irrefl. Qed.

Lemma sort_insert_sorted x xs : np_sorted xs -> np_sorted (sort_insert x xs).
Proof.
  unfold np_sorted. intros Hs.
  induction xs as [|y ys IH]; simpl.
  - repeat constructor.
  - destruct (sort_leb x y) eqn:Hxy.
    + constructor; [exact Hs | now constructor].
    + inversion Hs as [|? ? Hys Hhd]; subst.
      constructor; [now apply IH|].
      destruct ys as [|z zs]; simpl.
      * constructor. now apply sort_leb_total.
      * destruct (sort_leb x z); constructor.
        -- now apply sort_leb_total.
        -- now inversion Hhd.
Qed.

Lemma np_sort_sorted xs : np_sorted (np_sort xs).
Proof.
  induction xs as [|x xs IH]; simpl.
  - constructor.
  - now apply sort_insert_sorted.
Qed.

(** Sorting an array that is in order changes nothing. *)
Lemma np_sort_id xs : np_sorted xs -> np_sort xs = xs.
Proof.
  unfold np_sorted. induction xs as [|x xs IH]; intros Hs; simpl.
  - reflexivity.
  - inversion Hs as [|? ? Hxs Hhd]; subst. rewrite IH by exact Hxs.
    destruct xs as [|y ys]; simpl; [reflexivity|].
    inversion Hhd; subst. now match goal with H : sort_leb _ _ = true |- _ => rewrite H end.
Qed.

Lemma np_sort_idem xs : np_sort (np_sort xs) = np_sort xs.
Proof. apply np_sort_id, np_sort_sorted. Qed.

Lemma sort_insert_length x xs : length (sort_insert x xs) = S (length xs).
Proof.
  induction xs as [|y ys IH]; simpl; [reflexivity|].
  destruct (sort_leb x y); simpl; [reflexivity | now rewrite IH].
Qed.

Lemma np_sort_length xs : length (np_sort xs) = length xs.
Proof.
  induction xs as [|x xs IH]; simpl; [reflexivity|].
  now rewrite sort_insert_length, IH.
Qed.

Lemma np_sort_repeat v n : np_sort (repeat v n) = repeat v n.
Proof.
  induction n as [|n IH]; simpl; [reflexivity|].
  rewrite IH. destruct n; simpl; [reflexivity|].
  now rewrite sort_leb_refl.
Qed.

(** On finite values [numpy.sort] is the sort of the rationals. *)
Lemma sort_insert_fin x xs :
  sort_insert (Fin x) (map Fin xs) = map Fin (qinsert x xs).
Proof.
  induction xs as [|y ys IH]; simpl; [reflexivity|].
  destruct (Qcltb y x); simpl; [now rewrite IH | reflexivity].
Qed.

Lemma np_sort_fin xs : np_sort (map Fin xs) = map Fin (qsort xs).
Proof.
  induction xs as [|x xs IH]; simpl; [reflexivity|].
  now rewrite IH, sort_insert_fin.
Qed.

Lemma np_sorted_fin xs : ascending xs -> np_sorted (map Fin xs).
Proof.
  unfold ascending, np_sorted. induction 1 as [|x xs Hs IH Hhd]; simpl.
  - constructor.
  - constructor; [exact IH|].
    destruct Hhd as [|y ys Hxy]; simpl; constructor.
    simpl. apply negb_true_iff, Qcltb_false. exact Hxy.
Qed.

Lemma qsort_length xs : length (qsort xs) = length xs.
Proof.
  rewrite <- (length_map Fin (qsort xs)), <- np_sort_fin, np_sort_length.
  apply length_map.
Qed.

Lemma existsb_is_nan_fin xs : existsb is_nan (map Fin xs) = false.
Proof. induction xs; simpl; auto. Qed.

(** ** numpy.percentile *)

Lemma Qc_of_Z_this z : (this (Qc_of_Z z) == inject_Z z)%Q.
Proof. unfold Qc_of_Z. cbn [this Q2Qc]. apply Qred_correct. Qed.

(** The virtual index lies between the first and the last index. *)
Lemma virtual_index_bounds (n : nat) (q : Qc) :
  n <> 0 -> (0 <= q)%Qc -> (q <= Qc_of_Z 100)%Qc ->
  let h := (Qc_of_Z (Z.of_nat n - 1) * (q / Qc_of_Z 100))%Qc in
  (0 <= Qfloor h <= Z.of_nat n - 1)%Z.
Proof.
  intros Hn Hq0 Hq100 h.
  assert (Hh : (0 <= h)%Q /\ (h <= inject_Z (Z.of_nat n - 1))%Q).
  { subst h. qc2q. rewrite !Qc_of_Z_this in *.
    assert (HN : (0 <= inject_Z (Z.of_nat n - 1))%Q).
    { change 0%Q with (inject_Z 0). rewrite <- Zle_Qle. lia. }
    change (inject_Z 100) with 100%Q in *.
    set (N := inject_Z (Z.of_nat n - 1)) in *. clearbody N.
    assert (Ht : (0 <= q * / 100)%Q /\ (q * / 100 <= 1)%Q).
    { change (q * / 100)%Q with (q / 100)%Q. split.
      - apply Qle_shift_div_l; [reflexivity | qlra].
      - apply Qle_shift_div_r; [reflexivity | qlra]. }
    set (t := (q * / 100)%Q) in *. clearbody t. destruct Ht.
    split; qnra. }
  destruct Hh as [H0 H1]. split.
  - rewrite <- (Qfloor_Z 0). now apply Qfloor_resp_le.
  - rewrite <- (Qfloor_Z (Z.of_nat n - 1)). now apply Qfloor_resp_le.
Qed.

Lemma percentile_range_ok (q : Qc) :
  (0 <= q)%Qc -> (q <= Qc_of_Z 100)%Qc ->
  Qcltb q 0 || Qcltb (Qc_of_Z 100) q = false.
Proof.
  intros H0 H1. apply orb_false_iff. split; now apply Qcltb_false.
Qed.

(** On a finite sample in ascending order [numpy.percentile] is the
    linear interpolation of the specification. *)
Lemma np_percentile_fin (xs : list Qc) (q : Qc) :
  ascending xs -> xs <> [] -> (0 <= q)%Qc -> (q <= Qc_of_Z 100)%Qc ->
  np_percentile (map Fin xs) q = Ok (Fin (Spec.percentile xs q)).
Proof.
  intros Hs Hne H0 H1. unfold np_percentile.
  rewrite percentile_range_ok by assumption.
  rewrite (np_sort_id _ (np_sorted_fin _ Hs)), length_map.
  assert (Hn : length xs <> 0) by (destruct xs; simpl; congruence).
  rewrite (proj2 (Nat.eqb_neq _ _) Hn), existsb_is_nan_fin.
  pose proof (virtual_index_bounds (length xs) q Hn H0 H1) as Hb.
  cbv zeta in Hb.
  set (h := (Qc_of_Z (Z.of_nat (length xs) - 1) * (q / Qc_of_Z 100))%Qc) in *.
  set (p := Qfloor h) in *.
  unfold Spec.percentile. fold h. fold p.
  rewrite (nth_indep _ NaN (Fin 0%Qc)) by (rewrite length_map; lia).
  rewrite (nth_indep (map Fin xs) NaN (Fin 0%Qc)) by (rewrite length_map; lia).
  rewrite !map_nth.
  replace (Z.to_nat (Z.min (p + 1) (Z.of_nat (length xs) - 1)))
    with (Nat.min (Z.to_nat p + 1) (length xs - 1)) by lia.
  unfold lerp, nsub. cbn [nopp nadd nmul]. do 2 f_equal.
  set (lo := nth (Z.to_nat p) xs 0%Qc).
  set (hi := nth (Nat.min (Z.to_nat p + 1) (length xs - 1)) xs 0%Qc).
  replace (Q2Qc (h - inject_Z p)) with (h - Qc_of_Z p)%Qc.
  - ring.
  - apply Qc_is_canon. unfold Qc_of_Z. qc2q. reflexivity.
Qed.

Lemma np_percentile_sort xs q :
  np_percentile (np_sort xs) q = np_percentile xs q.
Proof. unfold np_percentile. now rewrite np_sort_idem. Qed.

Lemma np_sorted_fin_inv xs : np_sorted (map Fin xs) -> ascending xs.
Proof.
  unfold ascending, np_sorted. induction xs as [|x xs IH]; simpl; intros Hs.
  - constructor.
  - inversion Hs as [|? ? Hxs Hhd]; subst. constructor; [now apply IH|].
    destruct xs as [|y ys]; simpl in *; constructor.
    inversion Hhd as [|? ? Hxy]; subst. simpl in Hxy.
    now apply negb_true_iff, Qcltb_false in Hxy.
Qed.

Lemma qsort_ascending xs : ascending (qsort xs).
Proof. apply np_sorted_fin_inv. rewrite <- np_sort_fin. apply np_sort_sorted. Qed.

(** The percentile of a finite sample, in any order. *)
Lemma np_percentile_finite (xs : list Qc) (q : Qc) :
  xs <> [] -> (0 <= q)%Qc -> (q <= Qc_of_Z 100)%Qc ->
  np_percentile (map Fin xs) q = Ok (Fin (Spec.percentile (qsort xs) q)).
Proof.
  intros Hne H0 H1.
  rewrite <- np_percentile_sort, np_sort_fin.
  apply np_percentile_fin; try assumption.
  - apply qsort_ascending.
  - intros E. apply (f_equal (@length Qc)) in E.
    rewrite qsort_length in E. destruct xs; [congruence | discriminate].
Qed.

Lemma nth_repeat_lt {A} (v d : A) n k : k < n -> nth k (repeat v n) d = v.
Proof.
  revert k. induction n as [|n IH]; intros k Hk; [lia|].
  destruct k; simpl; [reflexivity | apply IH; lia].
Qed.

Lemma ascending_repeat v n : ascending (repeat v n).
Proof.
  unfold ascending. induction n as [|n IH]; simpl; [constructor|].
  constructor; [exact IH|]. destruct n; simpl; constructor. apply Qcle_refl.
Qed.

(** The percentile of a constant sample is the constant. *)
Lemma percentile_repeat (v : Qc) (n : nat) (q : Qc) :
  n <> 0 -> (0 <= q)%Qc -> (q <= Qc_of_Z 100)%Qc ->
  Spec.percentile (repeat v n) q = v.
Proof.
  intros Hn H0 H1. unfold Spec.percentile. rewrite repeat_length.
  pose proof (virtual_index_bounds n q Hn H0 H1) as Hb. cbv zeta in Hb.
  rewrite !nth_repeat_lt by lia. ring.
Qed.

Lemma np_percentile_repeat_fin (v : Qc) (n : nat) (q : Qc) :
  n <> 0 -> (0 <= q)%Qc -> (q <= Qc_of_Z 100)%Qc ->
  np_percentile (repeat (Fin v) n) q = Ok (Fin v).
Proof.
  intros Hn H0 H1.
  replace (repeat (Fin v) n) with (map Fin (repeat v n)) by apply map_repeat.
  rewrite np_percentile_fin; try assumption.
  - now rewrite percentile_repeat.
  - apply ascending_repeat.
  - destruct n; [congruence | discriminate].
Qed.

Lemma np_percentile_repeat_nan (n : nat) (q : Qc) :
  n <> 0 -> (0 <= q)%Qc -> (q <= Qc_of_Z 100)%Qc ->
  np_percentile (repeat NaN n) q = Ok NaN.
Proof.
  intros Hn H0 H1. unfold np_percentile.
  rewrite percentile_range_ok by assumption.
  rewrite np_sort_repeat, repeat_length.
  rewrite (proj2 (Nat.eqb_neq _ _) Hn).
  destruct n; [congruence | reflexivity].
Qed.

(** ** The estimators as functions of the curves *)

Lemma make_one_equity_sequence_ok trades fraction g :
  trades <> [] ->
  make_one_equity_sequence trades fraction default_forecast_length
    default_initial_capital g
  = Ok ((equity (default_curve trades fraction g),
         max_drawdown (default_curve trades fraction g)),
        advance g curve_draws).
Proof.
  intros Hne. unfold make_one_equity_sequence.
  assert (Hfl : (0 <= default_forecast_length)%Z) by discriminate.
  rewrite (bind_ok _ _ _ _ _
             (equity_loop_ok trades fraction _ default_initial_capital g Hne Hfl)).
  unfold default_curve, curve_draws. reflexivity.
Qed.

Lemma collect_step_ok trades fraction i lists g :
  trades <> [] ->
  collect_step trades fraction i lists g
  = Ok ((fst lists ++ [equity (default_curve trades fraction g)],
         snd lists ++ [max_drawdown (default_curve trades fraction g)]),
        advance g curve_draws).
Proof.
  intros Hne. unfold collect_step.
  now rewrite (bind_ok _ _ _ _ _ (make_one_equity_sequence_ok _ _ g Hne)).
Qed.

Lemma for_range_collect trades fraction n : forall start lists g,
  trades <> [] ->
  for_range start n (collect_step trades fraction) lists g
  = Ok ((fst lists ++ map equity (curves trades fraction n g),
         snd lists ++ map max_drawdown (curves trades fraction n g)),
        advance g (n * curve_draws)).
Proof.
  induction n as [|n IH]; intros start lists g Hne.
  - cbn [for_range curves map]. unfold ret. rewrite !app_nil_r, advance_0.
    now destruct lists.
  - cbn [for_range curves map].
    rewrite (bind_ok _ _ _ _ _ (collect_step_ok _ _ start lists g Hne)).
    rewrite IH by exact Hne. cbn [fst snd].
    rewrite <- !app_assoc, advance_advance. reflexivity.
Qed.

Lemma collect_curves_ok trades fraction number_sequences g :
  trades <> [] ->
  collect_curves trades fraction number_sequences g
  = Ok ((map equity (curves trades fraction (Z.to_nat number_sequences) g),
         map max_drawdown (curves trades fraction (Z.to_nat number_sequences) g)),
        advance g (Z.to_nat number_sequences * curve_draws)).
Proof.
  intros Hne. unfold collect_curves. now rewrite for_range_collect.
Qed.

(** The drawdown estimator: the percentile of the curves' drawdowns. *)
Lemma analyze_ok trades fraction forecast_length initial_capital weighting
    number_sequences tail_percentile g :
  trades <> [] ->
  analyze_distribution_of_drawdown trades fraction forecast_length
    initial_capital weighting number_sequences tail_percentile g
  = match np_percentile
            (map max_drawdown
               (curves trades fraction (Z.to_nat number_sequences) g))
            (Qc_of_Z 100 - tail_percentile)%Qc with
    | Ok t => Ok (t, advance g (Z.to_nat number_sequences * curve_draws))
    | Raise e => Raise e
    end.
Proof.
  intros Hne. unfold analyze_distribution_of_drawdown.
  rewrite (bind_ok _ _ _ _ _ (collect_curves_ok _ _ number_sequences g Hne)).
  rewrite np_percentile_sort. unfold bind, lift, ret.
  now destruct (np_percentile _ _).
Qed.

Lemma form_ok trades fraction forecast_length initial_capital
    number_sequences g :
  trades <> [] ->
  form_distribution_of_equity trades fraction forecast_length
    initial_capital number_sequences g
  = Ok (np_sort (map equity
                   (curves trades fraction (Z.to_nat number_sequences) g)),
        advance g (Z.to_nat number_sequences * curve_draws)).
Proof.
  intros Hne. unfold form_distribution_of_equity.
  now rewrite (bind_ok _ _ _ _ _ (collect_curves_ok _ _ number_sequences g Hne)).
Qed.

(** ** Pools of one trade: every curve is the same *)

Lemma curve_draws_pos : curve_draws <> 0.
Proof. unfold curve_draws, default_forecast_length. lia. Qed.

Lemma number_sequences_pos : Z.to_nat default_number_sequences <> 0.
Proof. unfold default_number_sequences. lia. Qed.

Lemma default_percent_range :
  (0 <= default_percent)%Qc /\ (default_percent <= Qc_of_Z 100)%Qc.
Proof. split; vm_compute; discriminate. Qed.

Lemma drawn_trades_singleton x g n : drawn_trades g n [x] = repeat x n.
Proof.
  unfold drawn_trades, drawn_indices. rewrite map_map.
  assert (H : forall start,
             map (fun k => nth (draw_index g (length [x]) k) [x] NaN) (seq start n)
             = repeat x n).
  { induction n as [|n IH]; intros start; cbn [map seq repeat length];
      [reflexivity|].
    unfold draw_index at 1. rewrite Nat.mod_1_r. f_equal. apply IH. }
  apply H.
Qed.

Lemma default_curve_singleton x fraction g :
  default_curve [x] fraction g = single_curve x fraction.
Proof. unfold default_curve, single_curve. now rewrite drawn_trades_singleton. Qed.

Lemma curves_singleton x fraction n : forall g,
  curves [x] fraction n g = repeat (single_curve x fraction) n.
Proof.
  induction n as [|n IH]; intros g; simpl; [reflexivity|].
  now rewrite default_curve_singleton, IH.
Qed.

Lemma tail_risk_singleton_fin x fraction v g :
  max_drawdown (single_curve x fraction) = Fin v ->
  tail_risk_at [x] fraction g = Ok (Fin v, advance g estimate_draws).
Proof.
  intros Hv. unfold tail_risk_at. rewrite analyze_ok by discriminate.
  rewrite curves_singleton, map_repeat, Hv.
  destruct default_percent_range as [H0 H1].
  fold default_percent.
  now rewrite (np_percentile_repeat_fin v _ _ number_sequences_pos H0 H1).
Qed.

Lemma tail_risk_singleton_nan x fraction g :
  max_drawdown (single_curve x fraction) = NaN ->
  tail_risk_at [x] fraction g = Ok (NaN, advance g estimate_draws).
Proof.
  intros Hv. unfold tail_risk_at. rewrite analyze_ok by discriminate.
  rewrite curves_singleton, map_repeat, Hv.
  destruct default_percent_range as [H0 H1].
  fold default_percent.
  now rewrite (np_percentile_repeat_nan _ _ number_sequences_pos H0 H1).
Qed.

(** *** The pool [[0.0]] at a finite fraction: nothing moves *)

Lemma Qcmax_same x : Spec.Qcmax x x = x.
Proof. unfold Spec.Qcmax. now rewrite Qcltb_irrefl. Qed.

Lemma step_flat fraction c :
  Spec.step fraction (Spec.start c) 0%Qc = Spec.start c.
Proof.
  unfold Spec.step, Spec.start. cbn [Spec.equity Spec.maxEquity Spec.maxDrawdown].
  replace (c + c * fraction * 0)%Qc with c by ring.
  rewrite Qcmax_same.
  replace ((c - c) / c)%Qc with 0%Qc by (unfold Qcdiv; ring).
  now rewrite Qcmax_same.
Qed.

Lemma run_flat fraction c n :
  Spec.run fraction (repeat 0%Qc n) (Spec.start c) = Spec.start c.
Proof.
  induction n as [|n IH]; simpl; [reflexivity|]. now rewrite step_flat.
Qed.

Lemma default_initial_capital_pos : (0 < Q2Qc (100000 # 1))%Qc.
Proof. reflexivity. Qed.

Lemma single_curve_flat (fraction : Qc) :
  equity (single_curve (Fin 0%Qc) (Fin fraction)) = default_initial_capital /\
  max_drawdown (single_curve (Fin 0%Qc) (Fin fraction)) = Fin 0%Qc.
Proof.
  unfold single_curve.
  replace (repeat (Fin 0%Qc) curve_draws) with (map Fin (repeat 0%Qc curve_draws))
    at 1 3 by apply map_repeat.
  destruct (run_curve_tracks fraction (repeat 0%Qc curve_draws) 0
              (Spec.start (Q2Qc (100000 # 1)))
              (curve_init default_initial_capital
                 (repeat (Fin 0%Qc) curve_draws))
              (tracks_init _ _) default_initial_capital_pos) as (He & _ & Hd).
  rewrite run_flat in He, Hd. split; [exact He | exact Hd].
Qed.

(** *** The pool [[0.0]] at a fraction that is not finite: all [nan] *)

Lemma curve_update_nan fraction i st r :
  equity st = NaN ->
  equity (curve_update fraction i st r) = NaN /\
  max_drawdown (curve_update fraction i st r) = NaN.
Proof.
  intros He. unfold curve_update. cbn [equity max_drawdown]. rewrite He.
  split; reflexivity.
Qed.

Lemma run_curve_nan fraction rs : forall start st,
  equity st = NaN -> max_drawdown st = NaN ->
  equity (run_curve fraction start rs st) = NaN /\
  max_drawdown (run_curve fraction start rs st) = NaN.
Proof.
  induction rs as [|r rs IH]; intros start st He Hd; simpl.
  - now split.
  - destruct (curve_update_nan fraction start st r He). now apply IH.
Qed.

Lemma curve_update_not_finite fraction i st c :
  is_finite fraction = false -> equity st = Fin c ->
  equity (curve_update fraction i st (Fin 0%Qc)) = NaN /\
  max_drawdown (curve_update fraction i st (Fin 0%Qc)) = NaN.
Proof.
  intros Hf He.
  assert (E : (equity st + equity st * fraction * Fin 0%Qc)%num = NaN).
  { rewrite He. destruct fraction as [f| | |]; [discriminate| | |];
      cbn [nmul]; unfold inf_times, signed_inf;
      destruct (Qceqb c 0); try reflexivity;
      destruct (Qcltb 0 c); reflexivity. }
  unfold curve_update. cbn [equity max_drawdown]. rewrite E.
  split; reflexivity.
Qed.

Lemma single_curve_not_finite fraction :
  is_finite fraction = false ->
  max_drawdown (single_curve (Fin 0%Qc) fraction) = NaN.
Proof.
  intros Hf. unfold single_curve.
  destruct curve_draws as [|n] eqn:E; [now destruct curve_draws_pos|].
  rewrite <- E. rewrite E at 1. simpl repeat at 1. cbn [run_curve].
  destruct (curve_update_not_finite fraction 0
              (curve_init default_initial_capital (repeat (Fin 0%Qc) curve_draws))
              (Q2Qc (100000 # 1)) Hf eq_refl) as [He Hd].
  now apply run_curve_nan.
Qed.

(** ** The empty pool *)

Lemma make_one_equity_sequence_empty fraction forecast_length initial_capital g :
  (0 < forecast_length)%Z ->
  make_one_equity_sequence [] fraction forecast_length initial_capital g
  = Raise ValueError_empty_range.
Proof.
  intros Hfl. unfold make_one_equity_sequence, equity_loop, np_zeros.
  destruct (Z.ltb_spec forecast_length 0) as [H|H]; [lia|].
  destruct (Z.to_nat forecast_length) as [|n] eqn:E; [lia|].
  reflexivity.
Qed.

Lemma collect_curves_empty fraction number_sequences g :
  (0 < number_sequences)%Z ->
  collect_curves [] fraction number_sequences g = Raise ValueError_empty_range.
Proof.
  intros Hn. unfold collect_curves.
  destruct (Z.to_nat number_sequences) as [|n] eqn:E; [lia|].
  cbn [for_range]. apply bind_raise. unfold collect_step. apply bind_raise.
  now apply make_one_equity_sequence_empty.
Qed.

(** ** The solver *)

Lemma np_percentile_in_range xs q :
  (0 <= q)%Qc -> (q <= Qc_of_Z 100)%Qc -> exists t, np_percentile xs q = Ok t.
Proof.
  intros H0 H1. unfold np_percentile.
  rewrite percentile_range_ok by assumption.
  destruct (length (np_sort xs) =? 0); [now eexists|].
  destruct (existsb is_nan (np_sort xs)); now eexists.
Qed.

(** On a non-empty pool an estimate of the tail risk returns. *)
Lemma tail_risk_at_ok trades fraction g :
  trades <> [] ->
  exists t, tail_risk_at trades fraction g = Ok (t, advance g estimate_draws).
Proof.
  intros Hne. unfold tail_risk_at. rewrite analyze_ok by exact Hne.
  destruct default_percent_range as [H0 H1]. fold default_percent.
  destruct (np_percentile_in_range
              (map max_drawdown
                 (curves trades fraction (Z.to_nat default_number_sequences) g))
              default_percent H0 H1) as [t ->].
  now exists t.
Qed.

Lemma tail_risk_at_empty fraction g :
  tail_risk_at [] fraction g = Raise ValueError_empty_range.
Proof.
  unfold tail_risk_at, analyze_distribution_of_drawdown.
  apply bind_raise, collect_curves_empty. reflexivity.
Qed.

(** What one pass does, from the estimate it obtains. *)
Lemma solver_pass_eq trades st g t g' :
  tail_risk_at trades (fraction st) g = Ok (t, g') ->
  solver_pass trades st g
  = Ok (if converged t
        then mkSolver (fraction st) t (Some t) true
        else mkSolver (fraction st * drawdown_tolerance / t)%num t
                      (safe_f st) false,
        g').
Proof.
  intros Ht. unfold solver_pass. rewrite (bind_ok _ _ _ _ _ Ht).
  now destruct (converged t).
Qed.

(** The loop stops only in a state whose tail risk passed the test, and
    it raises only on the empty pool. *)
Lemma while_not_done_stops fuel trades : forall st g,
  (done st = true -> converged (tail_risk st) = true) ->
  match while_not_done fuel trades st g with
  | Ok (Some st', _) => done st' = true /\ converged (tail_risk st') = true
  | Ok (None, _) => True
  | Raise e => trades = [] /\ e = ValueError_empty_range
  end.
Proof.
  induction fuel as [|fuel IH]; intros st g Hinv.
  - cbn [while_not_done]. destruct (done st) eqn:Hd; unfold ret; auto.
  - cbn [while_not_done]. destruct (done st) eqn:Hd; unfold ret; auto.
    destruct trades as [|x trades'] eqn:Etr.
    + unfold bind, solver_pass. unfold bind at 1.
      rewrite tail_risk_at_empty. auto.
    + destruct (tail_risk_at_ok (x :: trades') (fraction st) g ltac:(discriminate))
        as [t Ht].
      rewrite (bind_ok _ _ _ _ _ (solver_pass_eq _ _ _ _ _ Ht)).
      apply IH. destruct (converged t) eqn:Hc; cbn [done tail_risk]; auto.
      discriminate.
Qed.

(** *** The pool [[0.0]] *)

Lemma converged_zero : converged (Fin 0%Qc) = false.
Proof. reflexivity. Qed.

Lemma converged_nan : converged NaN = false.
Proof. reflexivity. Qed.

Lemma flat_pass_finite st g f :
  fraction st = Fin f ->
  solver_pass [Fin 0%Qc] st g
  = Ok (mkSolver (fraction st * drawdown_tolerance / Fin 0%Qc)%num (Fin 0%Qc)
                 (safe_f st) false,
        advance g estimate_draws).
Proof.
  intros Hf.
  rewrite (solver_pass_eq _ _ _ (Fin 0%Qc) (advance g estimate_draws)).
  - now rewrite converged_zero.
  - apply tail_risk_singleton_fin. rewrite Hf. apply single_curve_flat.
Qed.

Lemma flat_pass_not_finite st g :
  is_finite (fraction st) = false ->
  solver_pass [Fin 0%Qc] st g
  = Ok (mkSolver NaN NaN (safe_f st) false, advance g estimate_draws).
Proof.
  intros Hf.
  rewrite (solver_pass_eq _ _ _ NaN (advance g estimate_draws)).
  - rewrite converged_nan. do 3 f_equal.
    destruct (fraction st * drawdown_tolerance)%num; reflexivity.
  - apply tail_risk_singleton_nan. now apply single_curve_not_finite.
Qed.

Lemma flat_loop_not_finite fuel : forall st g,
  is_finite (fraction st) = false -> done st = false ->
  exists g', while_not_done fuel [Fin 0%Qc] st g = Ok (None, g').
Proof.
  induction fuel as [|fuel IH]; intros st g Hf Hd; cbn [while_not_done];
    rewrite Hd.
  - now eexists.
  - rewrite (bind_ok _ _ _ _ _ (flat_pass_not_finite st g Hf)).
    now apply IH.
Qed.

Lemma flat_loop fuel g t0 :
  exists g', while_not_done fuel [Fin 0%Qc] (solver_init t0) g = Ok (None, g').
Proof.
  destruct fuel as [|fuel]; cbn [while_not_done solver_init done].
  - now eexists.
  - rewrite (bind_ok _ _ _ _ _
               (flat_pass_finite (mkSolver (Fin 1%Qc) t0 None false) g 1%Qc
                  eq_refl)).
    apply flat_loop_not_finite; reflexivity.
Qed.

Lemma flat_solve fuel g :
  exists g', solve_safe_f fuel [Fin 0%Qc] g = Ok (None, g').
Proof.
  unfold solve_safe_f.
  rewrite (bind_ok _ _ _ _ _
             (tail_risk_singleton_fin (Fin 0%Qc) default_fraction 0%Qc g
                (proj2 (single_curve_flat 1%Qc)))).
  apply flat_loop.
Qed.

(** ** Pools of one losing trade: the closed form of the curve *)

Lemma Qcmax_le x y : (x <= y)%Qc -> Spec.Qcmax x y = y.
Proof.
  intros H. unfold Spec.Qcmax. destruct (Qcltb x y) eqn:E; [reflexivity|].
  apply Qcltb_false in E. now apply Qcle_antisym.
Qed.

Lemma Qcmax_ge x y : (y <= x)%Qc -> Spec.Qcmax x y = x.
Proof.
  intros H. unfold Spec.Qcmax. now rewrite (proj2 (Qcltb_false x y) H).
Qed.

Lemma Qcpower_S (p : Qc) n : (p ^ S n = p * p ^ n)%Qc.
Proof. reflexivity. Qed.

Lemma Qcpower_le_1 (p : Qc) n :
  (0 <= p)%Qc -> (p <= 1)%Qc -> (0 <= p ^ n)%Qc /\ (p ^ n <= 1)%Qc.
Proof.
  intros H0 H1. induction n as [|n [IH0 IH1]].
  - split; discriminate.
  - rewrite Qcpower_S. qc2q. split; qnra.
Qed.

Lemma Qcpower_S_le (p : Qc) n :
  (0 <= p)%Qc -> (p <= 1)%Qc -> (p ^ S n <= p ^ n)%Qc.
Proof.
  intros H0 H1. destruct (Qcpower_le_1 p n H0 H1) as [P0 P1].
  rewrite Qcpower_S. qc2q. qnra.
Qed.

Section LosingTrade.

Variables fraction x c p : Qc.
Hypothesis Hc : (0 < c)%Qc.
Hypothesis Hp0 : (0 <= p)%Qc.
Hypothesis Hp1 : (p <= 1)%Qc.
Hypothesis Hp : p = (1 + fraction * x)%Qc.

Lemma step_loss k :
  Spec.step fraction (loss_state c p k) x = loss_state c p (S k).
Proof.
  destruct (Qcpower_le_1 p (S k) Hp0 Hp1) as [P0 P1].
  pose proof (Qcpower_S_le p k Hp0 Hp1) as Hle.
  unfold Spec.step, loss_state.
  cbn [Spec.equity Spec.maxEquity Spec.maxDrawdown].
  replace (c * p ^ k + c * p ^ k * fraction * x)%Qc with (c * p ^ S k)%Qc
    by (rewrite Qcpower_S, Hp; ring).
  set (P := (p ^ S k)%Qc) in *. set (P' := (p ^ k)%Qc) in *.
  rewrite (Qcmax_ge c (c * P)%Qc) by (clear Hp; qc2q; qnra).
  replace ((c - c * P) / c)%Qc with (1 - P)%Qc
    by (field; now apply Qc_neq_0_lt).
  rewrite (Qcmax_le (1 - P') (1 - P))%Qc by (clear Hp; qc2q; qlra).
  reflexivity.
Qed.

Lemma run_loss n : forall k,
  Spec.run fraction (repeat x n) (loss_state c p k) = loss_state c p (k + n).
Proof.
  unfold Spec.run.
  induction n as [|n IH]; intros k; cbn [repeat fold_left].
  - now rewrite Nat.add_0_r.
  - rewrite step_loss, IH. f_equal. lia.
Qed.

End LosingTrade.

Lemma start_loss c p : Spec.start c = loss_state c p 0.
Proof.
  unfold Spec.start, loss_state. cbn [Qcpower]. f_equal; ring.
Qed.

(** The curve of the pool [[x]] at the fraction [f], for a loss factor
    [p = 1 + f * x] in [[0, 1]]. *)
Lemma single_curve_loss (x fraction p : Qc) :
  (0 <= p)%Qc -> (p <= 1)%Qc -> p = (1 + fraction * x)%Qc ->
  equity (single_curve (Fin x) (Fin fraction))
  = Fin (Q2Qc (100000 # 1) * p ^ curve_draws)%Qc /\
  max_drawdown (single_curve (Fin x) (Fin fraction))
  = Fin (1 - p ^ curve_draws)%Qc.
Proof.
  intros H0 H1 Hp. unfold single_curve.
  replace (repeat (Fin x) curve_draws) with (map Fin (repeat x curve_draws))
    by apply map_repeat.
  destruct (run_curve_tracks fraction (repeat x curve_draws) 0
              (Spec.start (Q2Qc (100000 # 1)))
              (curve_init default_initial_capital
                 (repeat (Fin 0%Qc) curve_draws))
              (tracks_init _ _) default_initial_capital_pos) as (He & _ & Hd).
  rewrite (start_loss _ p) in He, Hd.
  rewrite (run_loss fraction x _ p default_initial_capital_pos H0 H1 Hp
             curve_draws 0) in He, Hd.
  split; [exact He | exact Hd].
Qed.

(** *** Bounds on powers *)

Lemma Qc_of_nat_S n :
  (this (Qc_of_Z (Z.of_nat (S n))) == this (Qc_of_Z (Z.of_nat n)) + 1)%Q.
Proof.
  rewrite !Qc_of_Z_this, Nat2Z.inj_succ. unfold Z.succ.
  now rewrite inject_Z_plus.
Qed.

Lemma Qc_of_nat_nonneg n : (0 <= this (Qc_of_Z (Z.of_nat n)))%Q.
Proof.
  rewrite Qc_of_Z_this. change 0%Q with (inject_Z 0). rewrite <- Zle_Qle. lia.
Qed.

Lemma Qc_of_nat_pred n :
  (0 <= this (Qc_of_Z (Z.of_nat n)) * (this (Qc_of_Z (Z.of_nat n)) - 1))%Q.
Proof.
  destruct n as [|n].
  - rewrite Qc_of_Z_this. simpl. discriminate.
  - rewrite Qc_of_nat_S. pose proof (Qc_of_nat_nonneg n). qnra.
Qed.

(** Bernoulli's inequality and the next Bonferroni bound. *)
Lemma power_bounds (p : Qc) n :
  (0 <= p)%Qc -> (p <= 1)%Qc ->
  let N := Qc_of_Z (Z.of_nat n) in
  (1 - N * (1 - p) <= p ^ n)%Qc /\
  (p ^ n <= 1 - N * (1 - p)
            + N * (N - 1) * ((1 - p) * (1 - p)) * Q2Qc (1 # 2))%Qc.
Proof.
  intros H0 H1. cbv zeta. induction n as [|n [IHl IHu]].
  - split; vm_compute; discriminate.
  - destruct (Qcpower_le_1 p n H0 H1) as [P0 P1].
    rewrite Qcpower_S. set (P := (p ^ n)%Qc) in *.
    pose proof (Qc_of_nat_nonneg n) as HN.
    pose proof (Qc_of_nat_pred n) as HNN.
    qc2q. rewrite !Qc_of_nat_S. rewrite !Qc_of_Z_this in *.
    set (N := inject_Z (Z.of_nat n)) in *. clearbody N.
    set (Pq := this P) in *. clearbody Pq. set (pq := this p) in *. clearbody pq.
    clear P.
    assert (Hy : (0 <= (1 - pq) * (1 - pq))%Q) by qnra.
    assert (Hy3 : (0 <= (1 - pq) * ((1 - pq) * (1 - pq)))%Q) by qnra.
    assert (H3 : (0 <= N * (N - 1) * ((1 - pq) * ((1 - pq) * (1 - pq))))%Q)
      by (apply Qmult_le_0_compat; assumption).
    assert (H2 : (0 <= N * ((1 - pq) * (1 - pq)))%Q)
      by (apply Qmult_le_0_compat; assumption).
    split.
    + assert (Hl : (0 <= pq * (Pq - (1 + - (N * (1 + - pq)))))%Q)
        by (apply Qmult_le_0_compat; [assumption | qlra]).
      qlra.
    + assert (Hu : (0 <= pq * (1 + - (N * (1 + - pq))
                               + N * (N + - (1)) * ((1 + - pq) * (1 + - pq)) * (1 # 2)
                               - Pq))%Q)
        by (apply Qmult_le_0_compat; [assumption | qlra]).
      qlra.
Qed.

(** *** The pool [[-0.000205]]: the first pass converges *)

Lemma converged_fin (t : Qc) :
  (Q2Qc (97 # 1000) < t)%Qc -> (t < Q2Qc (103 # 1000))%Qc ->
  converged (Fin t) = true.
Proof.
  intros Hl Hu. unfold converged, drawdown_tolerance, desired_accuracy, dec, nsub.
  cbn [nopp nadd nabs nlt].
  destruct (Qcltb (t + - Q2Qc (10 # 100)) 0) eqn:E; apply Qcltb_true;
    qc2q; qlra.
Qed.

Lemma curve_draws_Z : Z.of_nat curve_draws = 500%Z.
Proof. unfold curve_draws, default_forecast_length. lia. Qed.

Lemma small_loss_factor_range :
  (0 <= small_loss_factor)%Qc /\ (small_loss_factor <= 1)%Qc.
Proof. split; vm_compute; discriminate. Qed.

Lemma small_loss_factor_eq : small_loss_factor = (1 + 1 * small_loss)%Qc.
Proof. apply Qc_is_canon. reflexivity. Qed.

Lemma small_loss_drawdown_bounds :
  (Q2Qc (97 # 1000) < small_loss_drawdown)%Qc /\
  (small_loss_drawdown < Q2Qc (103 # 1000))%Qc.
Proof.
  destruct small_loss_factor_range as [H0 H1].
  destruct (power_bounds small_loss_factor curve_draws H0 H1) as [Hl Hu].
  unfold small_loss_drawdown. rewrite curve_draws_Z in Hl, Hu.
  set (P := (small_loss_factor ^ curve_draws)%Qc) in *. clearbody P.
  unfold small_loss_factor in *. qc2q. rewrite !Qc_of_Z_this in *.
  change (inject_Z 500) with 500%Q in *.
  split; qlra.
Qed.

Lemma small_loss_drawdown_lt_1 : (small_loss_drawdown < 1)%Qc.
Proof.
  destruct small_loss_drawdown_bounds as [_ H].
  set (t := small_loss_drawdown) in *. clearbody t. qc2q. qlra.
Qed.

Lemma small_loss_tail_risk g :
  tail_risk_at [Fin small_loss] (Fin 1%Qc) g
  = Ok (Fin small_loss_drawdown, advance g estimate_draws).
Proof.
  apply tail_risk_singleton_fin.
  destruct small_loss_factor_range as [H0 H1].
  apply (single_curve_loss small_loss 1%Qc small_loss_factor H0 H1
           small_loss_factor_eq).
Qed.

Lemma while_done fuel trades st g :
  done st = true -> while_not_done fuel trades st g = Ok (Some st, g).
Proof. intros Hd. destruct fuel; cbn [while_not_done]; now rewrite Hd. Qed.

Lemma small_loss_converges :
  converged (Fin small_loss_drawdown) = true.
Proof.
  destruct small_loss_drawdown_bounds as [Hl Hu]. now apply converged_fin.
Qed.

(** From here on the numbers of draws are not unfolded by tactics. *)
Opaque curve_draws estimate_draws small_loss_drawdown.

Lemma small_loss_solve fuel g :
  solve_safe_f (S fuel) [Fin small_loss] g
  = Ok (Some (mkSolver (Fin 1%Qc) (Fin small_loss_drawdown)
                (Some (Fin small_loss_drawdown)) true),
        advance (advance g estimate_draws) estimate_draws).
Proof.
  unfold solve_safe_f, default_fraction.
  rewrite (bind_ok _ _ _ _ _ (small_loss_tail_risk g)).
  cbn [while_not_done done].
  set (st := mkSolver (Fin 1%Qc) (Fin small_loss_drawdown) None false).
  assert (Hpass : solver_pass [Fin small_loss] st (advance g estimate_draws)
                  = Ok (mkSolver (Fin 1%Qc) (Fin small_loss_drawdown)
                          (Some (Fin small_loss_drawdown)) true,
                        advance (advance g estimate_draws) estimate_draws)).
  { rewrite (solver_pass_eq [Fin small_loss] st _ _ _
               (small_loss_tail_risk (advance g estimate_draws))).
    rewrite small_loss_converges. reflexivity. }
  rewrite (bind_ok _ _ _ _ _ Hpass). apply while_done. reflexivity.
Qed.

(** C2 (defect).  On the pool [[-0.000205]] the first pass of the loop
    measures a tail risk [t] within the accuracy of the tolerance, so the
    loop stops there; it stops with [fraction = 1.0] and with [safe_f]
    bound to the tail risk [t < 1], not to the fraction at which that tail
    risk was measured. *)
Theorem safe_f_bound_to_tail_risk (fuel : nat) (g : rng) :
  exists t st g',
    solve_safe_f (S fuel) [dec (-41) 200000] g = Ok (Some st, g') /\
    done st = true /\
    fraction st = Fin 1%Qc /\
    tail_risk st = Fin t /\
    safe_f st = Some (Fin t) /\
    (t < 1)%Qc /\
    safe_f st <> Some (fraction st).
Proof.
  exists small_loss_drawdown. eexists. eexists.
  split; [apply small_loss_solve|].
  cbn [done fraction tail_risk safe_f].
  split; [reflexivity|]. split; [reflexivity|]. split; [reflexivity|].
  split; [reflexivity|]. split; [apply small_loss_drawdown_lt_1|].
  intros E.
  apply (f_equal (fun o => match o with Some (Fin q) => q | _ => 0%Qc end)) in E.
  cbv beta iota in E.
  pose proof small_loss_drawdown_lt_1 as H. rewrite E in H.
  revert H. apply Qcle_not_lt, Qcle_refl.
Qed.

(** ** The solver: what stops it, and what does not *)

(** C3 (counterexample).  On the pool [[0.0]] the solver is still in its
    loop after any number of passes: the first pass measures the tail
    risk [0], the rescale makes the fraction infinite, and from then on
    every estimate is [nan], which never passes the test. *)
Lemma solver_runs_forever_on_flat_pool :
  ~ exists fuel, stopped (solve_safe_f fuel [dec 0 1] zero_source).
Proof.
  intros [fuel H].
  destruct (flat_solve fuel zero_source) as [g' E].
  change (dec 0 1) with (Fin 0%Qc) in H. rewrite E in H. exact H.
Qed.

(** C3 (amended).  The loop of the solver has no bound on its passes and
    no report of a failure to converge: whatever the pool, the source and
    the number of passes, it has either stopped in a state whose tail
    risk passed the test [|tail_risk - drawdown_tolerance| <
    desired_accuracy], or it is still running, or the pool is empty and
    the first draw raised [ValueError]. *)
Theorem solver_stops_only_when_converged
    (fuel : nat) (trades : list num) (g : rng) :
  match solve_safe_f fuel trades g with
  | Ok (Some st, _) => done st = true /\ converged (tail_risk st) = true
  | Ok (None, _) => True
  | Raise e => trades = [] /\ e = ValueError_empty_range
  end.
Proof.
  unfold solve_safe_f.
  destruct trades as [|x trades'] eqn:Etr.
  - rewrite (bind_raise _ _ _ _ (tail_risk_at_empty default_fraction g)). auto.
  - destruct (tail_risk_at_ok (x :: trades') default_fraction g
                ltac:(discriminate)) as [t Ht].
    rewrite (bind_ok _ _ _ _ _ Ht).
    apply while_not_done_stops. discriminate.
Qed.

(** C4 (counterexample).  On the pool [[0.0]] the first pass measures
    the tail risk [0], which fails the test, and the pass ends with the
    fraction [+inf]: the rescale divided by zero, and the loop goes on
    ([done] is false). *)
Lemma rescale_divides_by_zero_on_flat_pool :
  exists g',
    solver_pass [dec 0 1] (solver_init (dec 0 1)) zero_source
    = Ok (mkSolver PInf (dec 0 1) None false, g').
Proof.
  eexists. change (dec 0 1) with (Fin 0%Qc).
  rewrite (flat_pass_finite (solver_init (Fin 0%Qc)) zero_source 1%Qc eq_refl).
  reflexivity.
Qed.

(** C4 (amended).  A pass that measures the tail risk [0] does not
    report anything: [0] fails the test, the rescale
    [fraction * drawdown_tolerance / tail_risk] is applied as it is, and
    the loop goes on with the quotient as its fraction, which is [+inf]
    for a positive fraction. *)
Theorem zero_tail_risk_is_rescaled
    (trades : list num) (st : solver) (g g' : rng) :
  tail_risk_at trades (fraction st) g = Ok (Fin 0%Qc, g') ->
  solver_pass trades st g
  = Ok (mkSolver (fraction st * drawdown_tolerance / Fin 0%Qc)%num
                 (Fin 0%Qc) (safe_f st) false, g')
  /\ (forall f, fraction st = Fin f -> (0 < f)%Qc ->
      (fraction st * drawdown_tolerance / Fin 0%Qc)%num = PInf).
Proof.
  intros Ht. split.
  - rewrite (solver_pass_eq _ _ _ _ _ Ht). now rewrite converged_zero.
  - intros f Hf Hpos. rewrite Hf. unfold drawdown_tolerance, dec.
    cbn [nmul ndiv]. rewrite Qceqb_refl.
    assert (H : (0 < f * Q2Qc (10 # 100))%Qc) by (qc2q; qlra).
    rewrite (proj2 (Qceqb_false _ _) (Qc_neq_0_lt _ H)).
    now rewrite (proj2 (Qcltb_true _ _) H).
Qed.

(** ** The estimators and the arguments they are given *)

(** C5 (defect).  [form_distribution_of_equity] called on the pool
    [[0.0]] with [forecast_length = 1], [initial_capital = 50] and one
    curve returns the equity [100000] after [500] draws, and
    [analyze_distribution_of_drawdown] called on the pool [[-0.5]] with
    [forecast_length = 1] and one curve returns the drawdown
    [1 - 0.5 ^ 500]: the curves are made with the defaults of
    [make_one_equity_sequence], not with the caller's [forecast_length]
    and [initial_capital]. *)
Theorem estimators_drop_their_arguments (g : rng) :
  form_distribution_of_equity [dec 0 1] (Fin 1%Qc) 1 (dec 50 1) 1 g
  = Ok ([dec 100000 1], advance g (Z.to_nat 500)) /\
  analyze_distribution_of_drawdown [dec (-1) 2] (Fin 1%Qc) 1 (dec 50 1)
    uniform 1 default_tail_percentile g
  = Ok (Fin (1 - Q2Qc (1 # 2) ^ Z.to_nat 500)%Qc, advance g (Z.to_nat 500)).
Proof.
  change (Z.to_nat 500) with curve_draws. split.
  - rewrite form_ok by discriminate.
    change (Z.to_nat 1) with 1. cbn [curves map].
    rewrite Nat.mul_1_l, default_curve_singleton.
    change (dec 0 1) with (Fin 0%Qc).
    rewrite (proj1 (single_curve_flat 1%Qc)). reflexivity.
  - rewrite analyze_ok by discriminate.
    change (Z.to_nat 1) with 1. cbn [curves map].
    rewrite Nat.mul_1_l, default_curve_singleton.
    assert (Hd : max_drawdown (single_curve (dec (-1) 2) (Fin 1%Qc))
                 = Fin (1 - Q2Qc (1 # 2) ^ curve_draws)%Qc).
    { apply (single_curve_loss (Q2Qc (-1 # 2)) 1%Qc (Q2Qc (1 # 2))).
      - discriminate.
      - discriminate.
      - apply Qc_is_canon. reflexivity. }
    rewrite Hd. destruct default_percent_range as [H0 H1].
    fold default_percent.
    change [Fin (1 - Q2Qc (1 # 2) ^ curve_draws)%Qc]
      with (repeat (Fin (1 - Q2Qc (1 # 2) ^ curve_draws)%Qc) 1).
    rewrite (np_percentile_repeat_fin _ 1 _ ltac:(discriminate) H0 H1).
    reflexivity.
Qed.

(** ** The empty pool *)

(** C9 (counterexample).  On the empty pool with [forecast_length = 0]
    the simulator reports nothing: it returns [(initial_capital, 0)]. *)
Lemma empty_pool_returns_without_error :
  make_one_equity_sequence [] (Fin 1%Qc) 0 (dec 100000 1) zero_source
  = Ok ((dec 100000 1, Fin 0%Qc), zero_source).
Proof. reflexivity. Qed.

(** C9 (amended).  On the empty pool, as soon as one curve of at least
    one pass is asked for, every operation fails with the [ValueError]
    that [random.randint] raises on the empty range at the first draw;
    no equity is updated before. *)
Theorem empty_pool_raises_at_first_draw
    (fraction : num) (forecast_length : Z) (initial_capital : num)
    (weighting : weighting_t) (number_sequences : Z) (tail_percentile : Qc)
    (fuel : nat) (g : rng) :
  (0 < forecast_length)%Z -> (0 < number_sequences)%Z ->
  make_one_equity_sequence [] fraction forecast_length initial_capital g
  = Raise ValueError_empty_range /\
  analyze_distribution_of_drawdown [] fraction forecast_length initial_capital
    weighting number_sequences tail_percentile g
  = Raise ValueError_empty_range /\
  form_distribution_of_equity [] fraction forecast_length initial_capital
    number_sequences g
  = Raise ValueError_empty_range /\
  compute_tail_risk [] fraction tail_percentile g
  = Raise ValueError_empty_range /\
  solve_safe_f fuel [] g = Raise ValueError_empty_range.
Proof.
  intros Hfl Hn.
  split; [now apply make_one_equity_sequence_empty|].
  split.
  { unfold analyze_distribution_of_drawdown.
    apply bind_raise. now apply collect_curves_empty. }
  split.
  { unfold form_distribution_of_equity.
    apply bind_raise. now apply collect_curves_empty. }
  split.
  { unfold compute_tail_risk. apply bind_raise.
    apply (tail_risk_at_empty fraction g). }
  unfold solve_safe_f. apply bind_raise. apply tail_risk_at_empty.
Qed.

(** ** compute_tail_risk *)

Lemma default_curve_fin (pool : list Qc) (fraction : Qc) g :
  pool <> [] ->
  exists d, max_drawdown (default_curve (map Fin pool) (Fin fraction) g) = Fin d.
Proof.
  intros Hne. unfold default_curve. rewrite drawn_trades_fin by exact Hne.
  destruct (run_curve_tracks fraction
              (map (fun i => nth i pool 0%Qc)
                 (drawn_indices g curve_draws (length pool))) 0
              (Spec.start (Q2Qc (100000 # 1)))
              (curve_init default_initial_capital
                 (repeat (Fin 0%Qc) curve_draws))
              (tracks_init _ _) default_initial_capital_pos) as (_ & _ & Hd).
  eexists. exact Hd.
Qed.

Lemma curves_fin (pool : list Qc) (fraction : Qc) n : forall g,
  pool <> [] ->
  exists ds, length ds = n /\
    map max_drawdown (curves (map Fin pool) (Fin fraction) n g) = map Fin ds.
Proof.
  induction n as [|n IH]; intros g Hne.
  - exists []. split; reflexivity.
  - destruct (IH (advance g curve_draws) Hne) as (ds & Hlen & Hds).
    destruct (default_curve_fin pool fraction g Hne) as [d Hd].
    exists (d :: ds). split; [simpl; now rewrite Hlen|].
    cbn [curves map]. now rewrite Hd, Hds.
Qed.

(** On a pool of rationals the estimate of the tail risk is a
    rational. *)
Lemma tail_risk_at_fin (pool : list Qc) (fraction : Qc) g :
  pool <> [] ->
  exists t, tail_risk_at (map Fin pool) (Fin fraction) g
            = Ok (Fin t, advance g estimate_draws).
Proof.
  intros Hne. unfold tail_risk_at.
  rewrite analyze_ok by now apply map_Fin_ne.
  destruct (curves_fin pool fraction (Z.to_nat default_number_sequences) g Hne)
    as (ds & Hlen & ->).
  destruct default_percent_range as [H0 H1]. fold default_percent.
  rewrite np_percentile_finite; try assumption.
  - eexists. reflexivity.
  - intros ->. simpl in Hlen. symmetry in Hlen.
    now apply number_sequences_pos in Hlen.
Qed.

(** C10.  For every pool of rationals, every rational fraction and
    every [tail_percentile] of [[0, 100]], [compute_tail_risk] returns,
    from the same random source, what
    [analyze_distribution_of_drawdown(drawdowns, fraction)] returns (the
    same value or the same exception, and the same source afterwards):
    the percentile of the one scalar is that scalar, whatever
    [tail_percentile]. *)
Theorem compute_tail_risk_is_analyze
    (drawdowns : list Qc) (fraction : Qc) (tail_percentile : Qc) (g : rng) :
  (0 <= tail_percentile)%Qc -> (tail_percentile <= Qc_of_Z 100)%Qc ->
  compute_tail_risk (map Fin drawdowns) (Fin fraction) tail_percentile g
  = analyze_distribution_of_drawdown (map Fin drawdowns) (Fin fraction)
      default_forecast_length default_initial_capital uniform
      default_number_sequences default_tail_percentile g.
Proof.
  intros H0 H1. unfold compute_tail_risk.
  fold (tail_risk_at (map Fin drawdowns) (Fin fraction)).
  destruct drawdowns as [|x xs].
  - cbn [map]. rewrite tail_risk_at_empty. apply bind_raise.
    apply tail_risk_at_empty.
  - destruct (tail_risk_at_fin (x :: xs) fraction g ltac:(discriminate))
      as [t Ht].
    rewrite Ht. rewrite (bind_ok _ _ _ _ _ Ht).
    assert (Hq : (0 <= Qc_of_Z 100 - tail_percentile)%Qc /\
                 (Qc_of_Z 100 - tail_percentile <= Qc_of_Z 100)%Qc).
    { qc2q. split; qlra. }
    destruct Hq as [Hq0 Hq1].
    change [Fin t] with (repeat (Fin t) 1).
    rewrite (np_percentile_repeat_fin t 1 _ ltac:(discriminate) Hq0 Hq1).
    reflexivity.
Qed.

(** ** CAR25 *)

Lemma percent_25_range :
  (0 <= Qc_of_Z 25)%Qc /\ (Qc_of_Z 25 <= Qc_of_Z 100)%Qc.
Proof. split; vm_compute; discriminate. Qed.

Lemma Q2R_Qcdiv (a b : Qc) :
  (0 < b)%Qc -> Q2R (a / b)%Qc = (Q2R a / Q2R b)%R.
Proof.
  intros Hb.
  assert (Hb' : ~ (this b == 0)%Q) by (qc2q; intros E; rewrite E in Hb; discriminate).
  unfold Rdiv. rewrite <- Q2R_inv by exact Hb'. rewrite <- Q2R_mult.
  apply Qeq_eqR. qc2q. reflexivity.
Qed.

Lemma Qcdiv_pos (a b : Qc) : (0 < a)%Qc -> (0 < b)%Qc -> (0 < a / b)%Qc.
Proof.
  intros Ha Hb. qc2q. apply Qmult_lt_0_compat; [exact Ha|].
  now apply Qinv_lt_0_compat.
Qed.

Lemma Qcdiv_nonpos (a b : Qc) : (a <= 0)%Qc -> (0 < b)%Qc -> (a / b <= 0)%Qc.
Proof.
  intros Ha Hb. qc2q.
  assert (H : (0 <= (- a) * / b)%Q).
  { apply Qmult_le_0_compat; [qlra|]. apply Qinv_le_0_compat. qlra. }
  qlra.
Qed.

(** C6.  For a sorted sample of rational equities whose interpolated
    25th percentile [terminalWealth25] is positive, a positive
    [initial_capital] and a positive [forecast_length], the program's
    CAR25 is
    [100 * (exp ((252 / forecast_length) * ln (terminalWealth25 /
    initial_capital)) - 1)]; the periods per year are the literal
    [252.0]. *)
Theorem CAR25_is_annualized_growth
    (sorted : list Qc) (forecast_length : Z) (initialCapital : Qc) :
  ascending sorted -> sorted <> [] -> (0 < forecast_length)%Z ->
  (0 < Spec.percentile sorted (Qc_of_Z 25))%Qc -> (0 < initialCapital)%Qc ->
  CAR25_of (map Fin sorted) forecast_length (Fin initialCapital)
  = Ok (XFin (100 * (exp (252 / IZR forecast_length
                          * ln (Q2R (Spec.percentile sorted (Qc_of_Z 25))
                                / Q2R initialCapital))
                     - 1))%R).
Proof.
  intros Hs Hne Hfl Ht Hic. unfold CAR25_of.
  destruct percent_25_range as [H0 H1].
  rewrite (np_percentile_fin sorted _ Hs Hne H0 H1).
  set (t := Spec.percentile sorted (Qc_of_Z 25)) in *.
  unfold periods_ratio.
  destruct (Z.eqb_spec forecast_length 0) as [E|_]; [lia|].
  cbn [rbind ndiv]. rewrite (proj2 (Qceqb_false _ _) (Qc_neq_0_lt _ Hic)).
  cbn [math_log].
  rewrite (proj2 (Qcltb_true _ _) (Qcdiv_pos t initialCapital Ht Hic)).
  cbn [rbind xscale math_exp percent_gain].
  now rewrite Q2R_Qcdiv.
Qed.

(** At the fraction [1.0] the pool [[-1.0]] loses the whole account in
    every curve. *)
Lemma total_loss_equity :
  equity (single_curve (dec (-1) 1) (Fin 1%Qc)) = Fin 0%Qc.
Proof.
  destruct (single_curve_loss (Q2Qc (-1 # 1)) 1%Qc 0%Qc) as [He _].
  - discriminate.
  - discriminate.
  - apply Qc_is_canon. reflexivity.
  - unfold dec. rewrite He, (Qcpower_0 _ curve_draws_pos). reflexivity.
Qed.

Lemma total_loss_CAR25 g :
  compute_CAR25 [dec (-1) 1] (Fin 1%Qc) g = Raise ValueError_math_domain.
Proof.
  unfold compute_CAR25.
  rewrite (bind_ok _ _ _ _ _
             (form_ok [dec (-1) 1] (Fin 1%Qc) default_forecast_length
                default_initial_capital default_number_sequences g
                ltac:(discriminate))).
  rewrite curves_singleton, map_repeat, total_loss_equity, np_sort_repeat.
  unfold CAR25_of. destruct percent_25_range as [H0 H1].
  rewrite (np_percentile_repeat_fin 0%Qc _ _ number_sequences_pos H0 H1).
  reflexivity.
Qed.

(** C8 (counterexample).  At the fraction [1.0] the pool [[-1.0]] loses
    the whole account in every curve, so the 25th percentile of the
    final equities is [0]; the computation of CAR25 then ends in the
    [ValueError] that [math.log] raises at [0 / initial_capital]: the
    logarithm was evaluated, and no other failure was reported before. *)
Lemma CAR25_evaluates_log_at_zero :
  np_percentile [dec 0 1] (Qc_of_Z 25) = Ok (Fin 0%Qc) /\
  math_log (Fin 0%Qc / initial_capital)%num = Raise ValueError_math_domain /\
  CAR25_of [dec 0 1] 500 initial_capital = Raise ValueError_math_domain /\
  compute_CAR25 [dec (-1) 1] (Fin 1%Qc) zero_source
  = Raise ValueError_math_domain.
Proof.
  split; [reflexivity|]. split; [reflexivity|]. split; [reflexivity|].
  apply total_loss_CAR25.
Qed.

(** C8 (amended).  When the 25th percentile of the sorted equities is
    not positive (for a positive [initial_capital] and a
    [forecast_length] other than [0]) the computation of CAR25 has no
    check of its own: it evaluates [math.log] on the ratio
    [TWR25 / initial_capital], and ends in the [ValueError] that
    [math.log] raises there. *)
Theorem CAR25_raises_math_domain_error
    (sorted : list Qc) (forecast_length : Z) (initialCapital : Qc) :
  ascending sorted -> sorted <> [] -> forecast_length <> 0%Z ->
  (Spec.percentile sorted (Qc_of_Z 25) <= 0)%Qc -> (0 < initialCapital)%Qc ->
  math_log (Fin (Spec.percentile sorted (Qc_of_Z 25)) / Fin initialCapital)%num
  = Raise ValueError_math_domain /\
  CAR25_of (map Fin sorted) forecast_length (Fin initialCapital)
  = Raise ValueError_math_domain.
Proof.
  intros Hs Hne Hfl Ht Hic.
  set (t := Spec.percentile sorted (Qc_of_Z 25)) in *.
  assert (Hlog : math_log (Fin t / Fin initialCapital)%num
                 = Raise ValueError_math_domain).
  { cbn [ndiv]. rewrite (proj2 (Qceqb_false _ _) (Qc_neq_0_lt _ Hic)).
    cbn [math_log].
    now rewrite (proj2 (Qcltb_false _ _) (Qcdiv_nonpos t initialCapital Ht Hic)). }
  split; [exact Hlog|].
  unfold CAR25_of. destruct percent_25_range as [H0 H1].
  rewrite (np_percentile_fin sorted _ Hs Hne H0 H1). fold t.
  unfold periods_ratio.
  destruct (Z.eqb_spec forecast_length 0) as [E|_]; [contradiction|].
  cbn [rbind]. now rewrite Hlog.
Qed.

(** ** The theorems at concrete inputs *)


Lemma zero_tail_risk_is_rescaled_witness :
  tail_risk_at [Fin 0%Qc] (fraction (solver_init (Fin 0%Qc))) zero_source
  = Ok (Fin 0%Qc, advance zero_source estimate_draws) /\
  solver_pass [Fin 0%Qc] (solver_init (Fin 0%Qc)) zero_source
  = Ok (mkSolver (Fin 1%Qc * drawdown_tolerance / Fin 0%Qc)%num
                 (Fin 0%Qc) None false, advance zero_source estimate_draws) /\
  (Fin 1%Qc * drawdown_tolerance / Fin 0%Qc)%num = PInf.
Proof.
  assert (Ht : tail_risk_at [Fin 0%Qc] (fraction (solver_init (Fin 0%Qc)))
                 zero_source
               = Ok (Fin 0%Qc, advance zero_source estimate_draws)).
  { apply tail_risk_singleton_fin. apply (single_curve_flat 1%Qc). }
  split; [exact Ht|].
  destruct (zero_tail_risk_is_rescaled [Fin 0%Qc] (solver_init (Fin 0%Qc))
              zero_source (advance zero_source estimate_draws) Ht)
    as [Hpass Hinf].
  split; [exact Hpass|]. apply (Hinf 1%Qc); reflexivity.
Defined.

Lemma empty_pool_raises_at_first_draw_witness :
  (0 < 500)%Z /\ (0 < 1000)%Z /\
  make_one_equity_sequence [] (Fin 1%Qc) 500 (dec 100000 1) zero_source
  = Raise ValueError_empty_range /\
  analyze_distribution_of_drawdown [] (Fin 1%Qc) 500 (dec 100000 1)
    uniform 1000 default_tail_percentile zero_source
  = Raise ValueError_empty_range /\
  form_distribution_of_equity [] (Fin 1%Qc) 500 (dec 100000 1) 1000 zero_source
  = Raise ValueError_empty_range /\
  compute_tail_risk [] (Fin 1%Qc) default_tail_percentile zero_source
  = Raise ValueError_empty_range /\
  solve_safe_f 1 [] zero_source = Raise ValueError_empty_range.
Proof.
  split; [reflexivity|]. split; [reflexivity|].
  apply (empty_pool_raises_at_first_draw (Fin 1%Qc) 500 (dec 100000 1)
           uniform 1000 default_tail_percentile 1 zero_source);
    reflexivity.
Defined.

Lemma compute_tail_risk_is_analyze_witness :
  (0 <= Qc_of_Z 50)%Qc /\ (Qc_of_Z 50 <= Qc_of_Z 100)%Qc /\
  compute_tail_risk (map Fin [Q2Qc (1 # 100); Q2Qc (-2 # 100)]) (Fin 1%Qc)
    (Qc_of_Z 50) counting_source
  = analyze_distribution_of_drawdown
      (map Fin [Q2Qc (1 # 100); Q2Qc (-2 # 100)]) (Fin 1%Qc)
      default_forecast_length default_initial_capital uniform
      default_number_sequences default_tail_percentile counting_source.
Proof.
  assert (H0 : (0 <= Qc_of_Z 50)%Qc) by (vm_compute; discriminate).
  assert (H1 : (Qc_of_Z 50 <= Qc_of_Z 100)%Qc) by (vm_compute; discriminate).
  split; [exact H0|]. split; [exact H1|].
  exact (compute_tail_risk_is_analyze [Q2Qc (1 # 100); Q2Qc (-2 # 100)] 1%Qc
           (Qc_of_Z 50) counting_source H0 H1).
Defined.

Lemma CAR25_is_annualized_growth_witness :
  ascending [Q2Qc 100000; Q2Qc 120000] /\
  [Q2Qc 100000; Q2Qc 120000] <> [] /\
  (0 < 500)%Z /\
  (0 < Spec.percentile [Q2Qc 100000; Q2Qc 120000] (Qc_of_Z 25))%Qc /\
  (0 < Q2Qc 100000)%Qc /\
  CAR25_of (map Fin [Q2Qc 100000; Q2Qc 120000]) 500 (Fin (Q2Qc 100000))
  = Ok (XFin (100 * (exp (252 / IZR 500
                          * ln (Q2R (Spec.percentile
                                       [Q2Qc 100000; Q2Qc 120000] (Qc_of_Z 25))
                                / Q2R (Q2Qc 100000)))
                     - 1))%R).
Proof.
  assert (Hs : ascending [Q2Qc 100000; Q2Qc 120000]).
  { repeat constructor. vm_compute. discriminate. }
  assert (Hne : [Q2Qc 100000; Q2Qc 120000] <> []) by discriminate.
  assert (Ht : (0 < Spec.percentile [Q2Qc 100000; Q2Qc 120000] (Qc_of_Z 25))%Qc)
    by (vm_compute; reflexivity).
  assert (Hic : (0 < Q2Qc 100000)%Qc) by reflexivity.
  split; [exact Hs|]. split; [exact Hne|]. split; [reflexivity|].
  split; [exact Ht|]. split; [exact Hic|].
  exact (CAR25_is_annualized_growth [Q2Qc 100000; Q2Qc 120000] 500
           (Q2Qc 100000) Hs Hne eq_refl Ht Hic).
Defined.

Lemma CAR25_raises_math_domain_error_witness :
  ascending [Q2Qc 0; Q2Qc 0; Q2Qc 120000] /\
  [Q2Qc 0; Q2Qc 0; Q2Qc 120000] <> [] /\
  500%Z <> 0%Z /\
  (Spec.percentile [Q2Qc 0; Q2Qc 0; Q2Qc 120000] (Qc_of_Z 25) <= 0)%Qc /\
  (0 < Q2Qc 100000)%Qc /\
  math_log (Fin (Spec.percentile [Q2Qc 0; Q2Qc 0; Q2Qc 120000] (Qc_of_Z 25))
            / Fin (Q2Qc 100000))%num
  = Raise ValueError_math_domain /\
  CAR25_of (map Fin [Q2Qc 0; Q2Qc 0; Q2Qc 120000]) 500 (Fin (Q2Qc 100000))
  = Raise ValueError_math_domain.
Proof.
  assert (Hs : ascending [Q2Qc 0; Q2Qc 0; Q2Qc 120000]).
  { repeat constructor; vm_compute; discriminate. }
  assert (Hne : [Q2Qc 0; Q2Qc 0; Q2Qc 120000] <> []) by discriminate.
  assert (Hfl : 500%Z <> 0%Z) by discriminate.
  assert (Ht : (Spec.percentile [Q2Qc 0; Q2Qc 0; Q2Qc 120000] (Qc_of_Z 25)
                <= 0)%Qc) by (vm_compute; discriminate).
  assert (Hic : (0 < Q2Qc 100000)%Qc) by reflexivity.
  split; [exact Hs|]. split; [exact Hne|]. split; [exact Hfl|].
  split; [exact Ht|]. split; [exact Hic|].
  exact (CAR25_raises_math_domain_error [Q2Qc 0; Q2Qc 0; Q2Qc 120000] 500
           (Q2Qc 100000) Hs Hne Hfl Ht Hic).
Defined.

(* ================================================================== *)
(** * Further properties of the simulator *)

(** ** The result on a pool of rationals *)

Lemma drawn_trades_returns (pool : list Qc) g n :
  pool <> [] -> drawn_trades g n (map Fin pool) = map Fin (drawn_returns pool g n).
Proof. intros Hne. now apply drawn_trades_fin. Qed.

Lemma drawn_returns_length pool g n : length (drawn_returns pool g n) = n.
Proof. unfold drawn_returns. now rewrite length_map, drawn_indices_length. Qed.

Lemma drawn_returns_in pool g n :
  pool <> [] -> Forall (fun r => In r pool) (drawn_returns pool g n).
Proof.
  intros Hne. unfold drawn_returns. apply Forall_forall. intros r Hr.
  apply in_map_iff in Hr as (i & <- & Hi).
  apply nth_In.
  assert (Hlen : length pool <> 0) by (destruct pool; simpl; congruence).
  pose proof (drawn_indices_lt g n (length pool) Hlen) as Hall.
  rewrite Forall_forall in Hall. now apply Hall.
Qed.


(** ** The final equity is the compounded growth of the capital *)





(** ** Invariants of the recurrence *)

Section RunInvariants.

Variable fraction : Qc.

Lemma step_equity s r :
  Spec.equity (Spec.step fraction s r)
  = (Spec.equity s * (1 + fraction * r))%Qc.
Proof. simpl. ring. Qed.

(** Trades without a loss keep the equity at its peak. *)
Lemma run_at_peak rs : forall s,
  (0 < Spec.equity s)%Qc -> Spec.maxEquity s = Spec.equity s ->
  Spec.maxDrawdown s = 0%Qc ->
  Forall (fun r => (0 <= fraction * r)%Qc) rs ->
  (Spec.equity s <= Spec.equity (Spec.run fraction rs s))%Qc /\
  Spec.maxDrawdown (Spec.run fraction rs s) = 0%Qc.
Proof.
  induction rs as [|r rs IH]; intros s He Hm Hd Hall.
  - split; [apply Qcle_refl | exact Hd].
  - inversion Hall as [|? ? Hr Hrs]; subst.
    cbn [Spec.run fold_left]. fold (Spec.run fraction rs (Spec.step fraction s r)).
    assert (Hge : (Spec.equity s <= Spec.equity (Spec.step fraction s r))%Qc).
    { rewrite step_equity. clear IH Hall Hrs Hd Hm.
      set (e := Spec.equity s) in *. clearbody e.
      set (t := (fraction * r)%Qc) in *. clearbody t. qc2q. qnra. }
    assert (He' : (0 < Spec.equity (Spec.step fraction s r))%Qc)
      by (eapply Qclt_le_trans; eassumption).
    assert (Hm' : Spec.maxEquity (Spec.step fraction s r)
                  = Spec.equity (Spec.step fraction s r)).
    { simpl. rewrite Hm. apply Qcmax_le. exact Hge. }
    assert (Hd' : Spec.maxDrawdown (Spec.step fraction s r) = 0%Qc).
    { change (Spec.maxDrawdown (Spec.step fraction s r))
        with (Spec.Qcmax (Spec.maxDrawdown s)
                ((Spec.maxEquity (Spec.step fraction s r)
                  - Spec.equity (Spec.step fraction s r))
                 / Spec.maxEquity (Spec.step fraction s r))%Qc).
      rewrite Hm', Hd.
      replace ((Spec.equity (Spec.step fraction s r)
                - Spec.equity (Spec.step fraction s r))
               / Spec.equity (Spec.step fraction s r))%Qc with 0%Qc
        by (unfold Qcdiv; ring).
      apply Qcmax_same. }
    destruct (IH _ He' Hm' Hd' Hrs) as [Hle Hz].
    split; [eapply Qcle_trans; eassumption | exact Hz].
Qed.


End RunInvariants.

Lemma Forall_drawn_returns (P : Qc -> Prop) pool g n :
  pool <> [] -> Forall P pool -> Forall P (drawn_returns pool g n).
Proof.
  intros Hne HP. pose proof (drawn_returns_in pool g n Hne) as Hin.
  rewrite Forall_forall in *. intros r Hr. apply HP, Hin, Hr.
Qed.

(** ** The drawdown and the sign of the equity *)



(** ** An empty account *)

Lemma curve_update_zero fraction r i st :
  equity st = Fin 0%Qc -> max_equity st = Fin 0%Qc ->
  equity (curve_update (Fin fraction) i st (Fin r)) = Fin 0%Qc /\
  max_equity (curve_update (Fin fraction) i st (Fin r)) = Fin 0%Qc /\
  max_drawdown (curve_update (Fin fraction) i st (Fin r)) = NaN.
Proof.
  intros He Hm. unfold curve_update.
  cbn [equity max_equity max_drawdown]. rewrite He, Hm. cbn [nmul nadd].
  replace (0 + 0 * fraction * r)%Qc with 0%Qc by ring.
  repeat split; reflexivity.
Qed.

Lemma run_curve_zero fraction rs : forall start st,
  equity st = Fin 0%Qc -> max_equity st = Fin 0%Qc ->
  rs <> [] \/ max_drawdown st = NaN ->
  equity (run_curve (Fin fraction) start (map Fin rs) st) = Fin 0%Qc /\
  max_drawdown (run_curve (Fin fraction) start (map Fin rs) st) = NaN.
Proof.
  induction rs as [|r rs IH]; intros start st He Hm Hd; cbn [map run_curve].
  - destruct Hd as [Hd | Hd]; [congruence | now split].
  - destruct (curve_update_zero fraction r start st He Hm) as (He' & Hm' & Hd').
    apply IH; auto.
Qed.

(** X7.  With the initial capital [0] the account stays at [0], the
    divisor [max_equity] is [0] at every pass, and the simulator returns
    the equity [0] with the drawdown [nan] (the numpy quotient [0 / 0]),
    on every non-empty pool of rationals and for every rational
    fraction, as soon as one trade is drawn. *)
Theorem zero_capital_gives_nan_drawdown
    (pool : list Qc) (fraction : Qc) (forecast_length : Z) (g : rng) :
  pool <> [] -> (0 < forecast_length)%Z ->
  make_one_equity_sequence (map Fin pool) (Fin fraction) forecast_length
    (Fin 0%Qc) g
  = Ok ((Fin 0%Qc, NaN), advance g (Z.to_nat forecast_length)).
Proof.
  intros Hne Hfl. unfold make_one_equity_sequence.
  rewrite (bind_ok _ _ _ _ _
             (equity_loop_ok _ (Fin fraction) _ (Fin 0%Qc) g (map_Fin_ne _ Hne)
                (Z.lt_le_incl _ _ Hfl))).
  unfold ret. rewrite drawn_trades_returns by exact Hne.
  destruct (run_curve_zero fraction
              (drawn_returns pool g (Z.to_nat forecast_length)) 0
              (curve_init (Fin 0%Qc)
                 (repeat (Fin 0%Qc) (Z.to_nat forecast_length)))
              eq_refl eq_refl) as [He Hd].
  - left. intros E. apply (f_equal (@length Qc)) in E.
    rewrite drawn_returns_length in E. simpl in E. lia.
  - now rewrite He, Hd.
Qed.

Lemma zero_capital_gives_nan_drawdown_witness :
  [Q2Qc (1 # 100); Q2Qc (-2 # 100)] <> [] /\ (0 < 3)%Z /\
  make_one_equity_sequence (map Fin [Q2Qc (1 # 100); Q2Qc (-2 # 100)])
    (Fin 1%Qc) 3 (Fin 0%Qc) counting_source
  = Ok ((Fin 0%Qc, NaN), advance counting_source (Z.to_nat 3)).
Proof.
  split; [discriminate|]. split; [reflexivity|].
  apply (zero_capital_gives_nan_drawdown
           [Q2Qc (1 # 100); Q2Qc (-2 # 100)] 1%Qc 3 counting_source);
    [discriminate | reflexivity].
Defined.

(** ** The array daily_equity *)

Lemma curve_equities_length fraction rs : forall start st,
  length (curve_equities fraction start rs st) = length rs.
Proof.
  induction rs as [|r rs IH]; intros start st; simpl; [reflexivity|].
  now rewrite IH.
Qed.

Lemma curve_equities_last fraction rs : forall start st d,
  rs <> [] ->
  last (curve_equities fraction start rs st) d
  = equity (run_curve fraction start rs st).
Proof.
  induction rs as [|r rs IH]; intros start st d Hne; [congruence|].
  cbn [curve_equities run_curve]. destruct rs as [|r' rs'].
  - reflexivity.
  - rewrite <- (IH (S start) (curve_update fraction start st r) d)
      by discriminate.
    reflexivity.
Qed.

Lemma drawn_trades_length g n trades : length (drawn_trades g n trades) = n.
Proof. unfold drawn_trades. now rewrite length_map, drawn_indices_length. Qed.

(** X8.  On a non-empty pool (of any doubles) the loop ends with
    [daily_equity] filled from its first to its last entry: it has
    [forecast_length] entries, the equities after each pass, and its last
    entry is the equity the function returns. *)
Theorem daily_equity_records_the_curve
    (trades : list num) (fraction : num) (forecast_length : Z)
    (initial_capital : num) (g : rng) :
  trades <> [] -> (0 < forecast_length)%Z ->
  exists st,
    equity_loop trades fraction forecast_length initial_capital g
    = Ok (st, advance g (Z.to_nat forecast_length)) /\
    daily_equity st
    = curve_equities fraction 0
        (drawn_trades g (Z.to_nat forecast_length) trades)
        (curve_init initial_capital
           (repeat (Fin 0%Qc) (Z.to_nat forecast_length))) /\
    length (daily_equity st) = Z.to_nat forecast_length /\
    last (daily_equity st) NaN = equity st.
Proof.
  intros Hne Hfl. eexists.
  split; [apply equity_loop_ok; [exact Hne | lia]|].
  set (n := Z.to_nat forecast_length).
  set (rs := drawn_trades g n trades).
  set (st0 := curve_init initial_capital (repeat (Fin 0%Qc) n)).
  assert (Hd : daily_equity (run_curve fraction 0 rs st0)
               = curve_equities fraction 0 rs st0).
  { apply (run_curve_daily fraction rs 0 st0 [] (repeat (Fin 0%Qc) n)).
    - reflexivity.
    - reflexivity.
    - unfold rs. now rewrite repeat_length, drawn_trades_length. }
  split; [exact Hd|]. rewrite Hd. split.
  - unfold rs. now rewrite curve_equities_length, drawn_trades_length.
  - apply curve_equities_last. intros E.
    apply (f_equal (@length num)) in E. unfold rs in E.
    rewrite drawn_trades_length in E. simpl in E. unfold n in E. lia.
Qed.

Lemma daily_equity_records_the_curve_witness :
  [Fin (Q2Qc (1 # 100)); PInf] <> [] /\ (0 < 3)%Z /\
  exists st,
    equity_loop [Fin (Q2Qc (1 # 100)); PInf] (Fin 1%Qc) 3 (Fin (Q2Qc 1000))
      counting_source
    = Ok (st, advance counting_source (Z.to_nat 3)) /\
    daily_equity st
    = curve_equities (Fin 1%Qc) 0
        (drawn_trades counting_source (Z.to_nat 3) [Fin (Q2Qc (1 # 100)); PInf])
        (curve_init (Fin (Q2Qc 1000)) (repeat (Fin 0%Qc) (Z.to_nat 3))) /\
    length (daily_equity st) = Z.to_nat 3 /\
    last (daily_equity st) NaN = equity st.
Proof.
  split; [discriminate|]. split; [reflexivity|].
  apply (daily_equity_records_the_curve [Fin (Q2Qc (1 # 100)); PInf] (Fin 1%Qc)
           3 (Fin (Q2Qc 1000)) counting_source); [discriminate | reflexivity].
Defined.

(** ** The forecast length at its bounds *)

(** X9.  Whatever the pool, empty or not: a negative [forecast_length]
    raises the [ValueError] of [numpy.zeros] before anything is drawn,
    and [forecast_length = 0] returns the initial capital and the
    drawdown [0.0] without drawing; on the empty pool a positive
    [forecast_length] raises the [ValueError] of the first draw. *)
Theorem forecast_length_bounds
    (trades : list num) (fraction : num) (forecast_length : Z)
    (initial_capital : num) (g : rng) :
  ((forecast_length < 0)%Z ->
   make_one_equity_sequence trades fraction forecast_length initial_capital g
   = Raise ValueError_negative_dimensions) /\
  (forecast_length = 0%Z ->
   make_one_equity_sequence trades fraction forecast_length initial_capital g
   = Ok ((initial_capital, Fin 0%Qc), g)) /\
  ((0 < forecast_length)%Z -> trades = [] ->
   make_one_equity_sequence trades fraction forecast_length initial_capital g
   = Raise ValueError_empty_range).
Proof.
  split; [|split].
  - intros Hfl. unfold make_one_equity_sequence, equity_loop, np_zeros.
    destruct (Z.ltb_spec forecast_length 0) as [_|H]; [reflexivity | lia].
  - intros ->. reflexivity.
  - intros Hfl ->. now apply make_one_equity_sequence_empty.
Qed.

Lemma forecast_length_bounds_witness :
  make_one_equity_sequence [Fin 1%Qc] (Fin 1%Qc) (-1) (Fin 1%Qc) zero_source
  = Raise ValueError_negative_dimensions /\
  make_one_equity_sequence [] (Fin 1%Qc) 0 (Fin 1%Qc) zero_source
  = Ok ((Fin 1%Qc, Fin 0%Qc), zero_source) /\
  make_one_equity_sequence [] (Fin 1%Qc) 2 (Fin 1%Qc) zero_source
  = Raise ValueError_empty_range.
Proof.
  split; [|split].
  - apply (proj1 (forecast_length_bounds [Fin 1%Qc] (Fin 1%Qc) (-1) (Fin 1%Qc)
                    zero_source)). reflexivity.
  - apply (proj1 (proj2 (forecast_length_bounds [] (Fin 1%Qc) 0 (Fin 1%Qc)
                           zero_source))). reflexivity.
  - apply (proj2 (proj2 (forecast_length_bounds [] (Fin 1%Qc) 2 (Fin 1%Qc)
                           zero_source))); reflexivity.
Defined.

(* ================================================================== *)
(** * Further properties of the estimators *)

(** ** The sorted sample *)

Lemma sort_insert_perm x xs : Permutation (sort_insert x xs) (x :: xs).
Proof.
  induction xs as [|y ys IH]; simpl; [reflexivity|].
  destruct (sort_leb x y); [reflexivity|].
  rewrite IH. apply perm_swap.
Qed.

Lemma np_sort_perm xs : Permutation (np_sort xs) xs.
Proof.
  induction xs as [|x xs IH]; simpl; [reflexivity|].
  rewrite sort_insert_perm. now constructor.
Qed.

Lemma curves_length trades fraction n : forall g,
  length (curves trades fraction n g) = n.
Proof. induction n as [|n IH]; intros g; simpl; [reflexivity | now rewrite IH]. Qed.

(** The [k]-th curve of an estimate starts where the one before it
    stopped on the tape. *)
Lemma curves_nth trades fraction n : forall g k d,
  k < n ->
  nth k (curves trades fraction n g) d
  = default_curve trades fraction (advance g (k * curve_draws)).
Proof.
  induction n as [|n IH]; intros g k d Hk; [lia|].
  destruct k as [|k]; cbn [curves nth].
  - now rewrite Nat.mul_0_l, advance_0.
  - rewrite IH by lia. rewrite advance_advance. reflexivity.
Qed.

(** X10.  On a non-empty pool [form_distribution_of_equity] returns the
    final equities of [number_sequences] curves, each made by
    [make_one_equity_sequence(trades, fraction)] from where the curve
    before it left the random source, arranged in ascending order ([nan]
    last): the result is sorted, it is a permutation of the curves'
    equities, it has [number_sequences] entries, and
    [number_sequences * 500] draws are consumed. *)
Theorem equity_distribution_is_the_sorted_sample
    (trades : list num) (fraction : num) (forecast_length : Z)
    (initial_capital : num) (number_sequences : Z) (g : rng) :
  trades <> [] ->
  let n := Z.to_nat number_sequences in
  exists sorted_equity,
    form_distribution_of_equity trades fraction forecast_length
      initial_capital number_sequences g
    = Ok (sorted_equity, advance g (n * Z.to_nat default_forecast_length)) /\
    np_sorted sorted_equity /\
    Permutation sorted_equity (map equity (curves trades fraction n g)) /\
    length sorted_equity = n /\
    (forall k, k < n ->
       make_one_equity_sequence trades fraction default_forecast_length
         default_initial_capital
         (advance g (k * Z.to_nat default_forecast_length))
       = Ok ((equity (nth k (curves trades fraction n g)
                        (curve_init NaN [])),
              max_drawdown (nth k (curves trades fraction n g)
                              (curve_init NaN []))),
             advance g (S k * Z.to_nat default_forecast_length))).
Proof.
  intros Hne n. change (Z.to_nat default_forecast_length) with curve_draws.
  eexists. split; [now apply form_ok|].
  split; [apply np_sort_sorted|].
  split; [apply np_sort_perm|].
  split.
  - now rewrite np_sort_length, length_map, curves_length.
  - intros k Hk. rewrite make_one_equity_sequence_ok by exact Hne.
    rewrite curves_nth by exact Hk. rewrite advance_advance.
    replace (S k * curve_draws) with (k * curve_draws + curve_draws)
      by (rewrite Nat.mul_succ_l; reflexivity).
    reflexivity.
Qed.

Lemma equity_distribution_is_the_sorted_sample_witness :
  [Fin (Q2Qc (1 # 100)); Fin (Q2Qc (-2 # 100))] <> [] /\
  exists sorted_equity,
    form_distribution_of_equity [Fin (Q2Qc (1 # 100)); Fin (Q2Qc (-2 # 100))]
      (Fin 1%Qc) 500 (Fin (Q2Qc 1000)) 3 counting_source
    = Ok (sorted_equity,
          advance counting_source
            (Z.to_nat 3 * Z.to_nat default_forecast_length)) /\
    np_sorted sorted_equity /\
    length sorted_equity = Z.to_nat 3.
Proof.
  split; [discriminate|].
  destruct (equity_distribution_is_the_sorted_sample
              [Fin (Q2Qc (1 # 100)); Fin (Q2Qc (-2 # 100))] (Fin 1%Qc) 500
              (Fin (Q2Qc 1000)) 3 counting_source)
    as (s & Hs & Hsorted & _ & Hlen & _); [discriminate|].
  exists s. split; [exact Hs|]. split; [exact Hsorted | exact Hlen].
Defined.

(** ** The tail risk among the drawdowns of the curves *)






(** ** A percentile outside [[0, 100]] *)

Lemma np_percentile_out_of_range xs (q : Qc) :
  (q < 0)%Qc \/ (Qc_of_Z 100 < q)%Qc ->
  np_percentile xs q = Raise ValueError_percentile_range.
Proof.
  intros H. unfold np_percentile.
  assert (E : Qcltb q 0 || Qcltb (Qc_of_Z 100) q = true).
  { apply orb_true_iff. destruct H as [H | H]; [left | right];
      now apply Qcltb_true. }
  now rewrite E.
Qed.

(** X12.  With a [tail_percentile] above [100], or of [-1] or less, both
    [analyze_distribution_of_drawdown] and [compute_tail_risk] end, on
    every non-empty pool, in the [ValueError] of [numpy.percentile]: the
    percentile asked for, [100 - tail_percentile], is negative or at
    least [101].  (A negative [tail_percentile] nearer to [0] than the
    spacing of the doubles at [100] is absorbed by the subtraction of
    the program; the statement keeps clear of it.) *)
Theorem percentile_out_of_range_raises
    (trades : list num) (fraction : num) (forecast_length : Z)
    (initial_capital : num) (weighting : weighting_t) (number_sequences : Z)
    (tail_percentile : Qc) (g : rng) :
  trades <> [] ->
  (tail_percentile <= - (1))%Qc \/ (Qc_of_Z 100 < tail_percentile)%Qc ->
  analyze_distribution_of_drawdown trades fraction forecast_length
    initial_capital weighting number_sequences tail_percentile g
  = Raise ValueError_percentile_range /\
  compute_tail_risk trades fraction tail_percentile g
  = Raise ValueError_percentile_range.
Proof.
  intros Hne Htp.
  assert (Hq : (Qc_of_Z 100 - tail_percentile < 0)%Qc \/
               (Qc_of_Z 100 < Qc_of_Z 100 - tail_percentile)%Qc).
  { destruct Htp as [H | H]; [right | left]; qc2q; qlra. }
  split.
  - rewrite analyze_ok by exact Hne.
    now rewrite (np_percentile_out_of_range _ _ Hq).
  - unfold compute_tail_risk.
    fold (tail_risk_at trades fraction).
    destruct (tail_risk_at_ok trades fraction g Hne) as [t Ht].
    rewrite (bind_ok _ _ _ _ _ Ht).
    unfold bind, lift. now rewrite (np_percentile_out_of_range _ _ Hq).
Qed.

Lemma percentile_out_of_range_raises_witness :
  [Fin (Q2Qc (1 # 100))] <> [] /\
  ((Qc_of_Z 101 <= - (1))%Qc \/ (Qc_of_Z 100 < Qc_of_Z 101)%Qc) /\
  analyze_distribution_of_drawdown [Fin (Q2Qc (1 # 100))] (Fin 1%Qc) 500
    (Fin (Q2Qc 1000)) uniform 1000 (Qc_of_Z 101) zero_source
  = Raise ValueError_percentile_range /\
  compute_tail_risk [Fin (Q2Qc (1 # 100))] (Fin 1%Qc) (Qc_of_Z 101) zero_source
  = Raise ValueError_percentile_range.
Proof.
  assert (H : (Qc_of_Z 101 <= - (1))%Qc \/ (Qc_of_Z 100 < Qc_of_Z 101)%Qc)
    by (right; reflexivity).
  split; [discriminate|]. split; [exact H|].
  apply (percentile_out_of_range_raises [Fin (Q2Qc (1 # 100))] (Fin 1%Qc) 500
           (Fin (Q2Qc 1000)) uniform 1000 (Qc_of_Z 101) zero_source);
    [discriminate | exact H].
Defined.

(* ================================================================== *)
(** * Further properties of the solver *)

(** ** The state in which the loop stops *)

Lemma converged_inv t :
  converged t = true ->
  exists q, t = Fin q /\ (Q2Qc (97 # 1000) < q)%Qc /\ (q < Q2Qc (103 # 1000))%Qc.
Proof.
  destruct t as [q| | |]; try discriminate.
  unfold converged, drawdown_tolerance, desired_accuracy, dec, nsub.
  cbn [nopp nadd nabs nlt]. intros H. exists q. split; [reflexivity|].
  apply Qcltb_true in H.
  destruct (Qcltb (q + - Q2Qc (10 # 100)) 0) eqn:E;
    [apply Qcltb_true in E | apply Qcltb_false in E]; qc2q; split; qlra.
Qed.

Lemma solver_pass_stop_state trades st g st1 g1 :
  solver_pass trades st g = Ok (st1, g1) ->
  done st1 = true ->
  converged (tail_risk st1) = true /\ safe_f st1 = Some (tail_risk st1) /\
  fraction st1 = fraction st.
Proof.
  unfold solver_pass, bind.
  destruct (tail_risk_at trades (fraction st) g) as [[t g2]|e];
    [|intros H; discriminate H].
  destruct (converged t) eqn:Hc; unfold ret; intros H; injection H as <- <-;
    cbn [done tail_risk safe_f fraction]; intros Hd; [auto | discriminate].
Qed.

Lemma while_not_done_stop_state fuel trades : forall st g st' g',
  (done st = true ->
   converged (tail_risk st) = true /\ safe_f st = Some (tail_risk st)) ->
  while_not_done fuel trades st g = Ok (Some st', g') ->
  done st' = true /\ converged (tail_risk st') = true /\
  safe_f st' = Some (tail_risk st').
Proof.
  induction fuel as [|fuel IH]; intros st g st' g' Hinv; cbn [while_not_done];
    destruct (done st) eqn:Hd; unfold ret.
  - intros H. injection H as <- <-. destruct (Hinv eq_refl). now repeat split.
  - discriminate.
  - intros H. injection H as <- <-. destruct (Hinv eq_refl). now repeat split.
  - unfold bind. destruct (solver_pass trades st g) as [[st1 g1]|e] eqn:Hp;
      [|intros H; discriminate H].
    apply IH. intros Hd1.
    destruct (solver_pass_stop_state _ _ _ _ _ Hp Hd1) as (Hc & Hs & _).
    now split.
Qed.

(** X13.  Whenever the solver stops, on any pool and from any random
    source, it stops with [done] set and with [safe_f] bound to the last
    tail risk, a number strictly between [0.097] and [0.103] (the
    tolerance give or take the accuracy), whatever the fraction has
    become. *)
Theorem solver_stops_with_safe_f_near_tolerance
    (fuel : nat) (trades : list num) (g g' : rng) (st : solver) :
  solve_safe_f fuel trades g = Ok (Some st, g') ->
  done st = true /\
  exists t, tail_risk st = Fin t /\ safe_f st = Some (Fin t) /\
            (Q2Qc (97 # 1000) < t)%Qc /\ (t < Q2Qc (103 # 1000))%Qc.
Proof.
  unfold solve_safe_f, bind.
  destruct (tail_risk_at trades default_fraction g) as [[t0 g0]|e];
    [|intros H; discriminate H].
  intros H.
  assert (Hinv : done (mkSolver (Fin 1%Qc) t0 None false) = true ->
                 converged (tail_risk (mkSolver (Fin 1%Qc) t0 None false)) = true /\
                 safe_f (mkSolver (Fin 1%Qc) t0 None false)
                 = Some (tail_risk (mkSolver (Fin 1%Qc) t0 None false)))
    by (intros E; discriminate E).
  destruct (while_not_done_stop_state fuel trades _ _ _ _ Hinv H)
    as (Hd & Hc & Hs).
  split; [exact Hd|].
  destruct (converged_inv _ Hc) as (t & Ht & Hl & Hu).
  exists t. rewrite Hs, Ht. now repeat split.
Qed.

Lemma solver_stops_with_safe_f_near_tolerance_witness :
  solve_safe_f 1 [Fin small_loss] zero_source
  = Ok (Some (mkSolver (Fin 1%Qc) (Fin small_loss_drawdown)
                (Some (Fin small_loss_drawdown)) true),
        advance (advance zero_source estimate_draws) estimate_draws) /\
  exists t, Fin small_loss_drawdown = Fin t /\
            Some (Fin small_loss_drawdown) = Some (Fin t) /\
            (Q2Qc (97 # 1000) < t)%Qc /\ (t < Q2Qc (103 # 1000))%Qc.
Proof.
  pose proof (small_loss_solve 0 zero_source) as H.
  split; [exact H|].
  exact (proj2 (solver_stops_with_safe_f_near_tolerance 1 [Fin small_loss]
                  zero_source _ _ H)).
Defined.

(** ** Pools without a losing trade *)

Lemma curves_constant trades fraction v :
  (forall g, max_drawdown (default_curve trades fraction g) = v) ->
  forall n g, map max_drawdown (curves trades fraction n g) = repeat v n.
Proof.
  intros Hv. induction n as [|n IH]; intros g; cbn [curves map repeat].
  - reflexivity.
  - now rewrite Hv, IH.
Qed.

Lemma tail_risk_constant trades fraction v g :
  trades <> [] ->
  (forall g, max_drawdown (default_curve trades fraction g) = v) ->
  v = NaN \/ (exists q, v = Fin q) ->
  tail_risk_at trades fraction g = Ok (v, advance g estimate_draws).
Proof.
  intros Hne Hv Hcase. unfold tail_risk_at. rewrite analyze_ok by exact Hne.
  rewrite (curves_constant trades fraction v Hv).
  destruct default_percent_range as [H0 H1]. fold default_percent.
  destruct Hcase as [-> | [q ->]].
  - now rewrite (np_percentile_repeat_nan _ _ number_sequences_pos H0 H1).
  - now rewrite (np_percentile_repeat_fin q _ _ number_sequences_pos H0 H1).
Qed.

Lemma curve_update_nan_fraction i st r :
  equity (curve_update NaN i st r) = NaN /\
  max_drawdown (curve_update NaN i st r) = NaN.
Proof.
  assert (E : (equity st + equity st * NaN * r)%num = NaN)
    by (destruct (equity st); reflexivity).
  unfold curve_update. cbn [equity max_drawdown]. rewrite E.
  split; reflexivity.
Qed.

Lemma curve_update_inf_fraction i st (r : Qc) :
  (exists c, equity st = Fin c /\ (0 < c)%Qc) \/ blown (equity st) ->
  (0 <= r)%Qc ->
  blown (equity (curve_update PInf i st (Fin r))) /\
  max_drawdown (curve_update PInf i st (Fin r)) = NaN.
Proof.
  intros He Hr.
  assert (E : blown (equity st + equity st * PInf * Fin r)%num).
  { destruct He as [(c & -> & Hc) | [-> | ->]]; cbn [nmul nadd];
      unfold inf_times, signed_inf.
    - rewrite (proj2 (Qceqb_false _ _) (Qc_neq_0_lt _ Hc)).
      rewrite (proj2 (Qcltb_true _ _) Hc). cbn [nmul].
      unfold inf_times, signed_inf.
      destruct (Qceqb r 0) eqn:E0; [right; reflexivity|].
      apply Qceqb_false in E0.
      assert (Hr' : (0 < r)%Qc).
      { destruct (Qcle_lt_or_eq _ _ Hr) as [H | H]; [exact H | congruence]. }
      rewrite (proj2 (Qcltb_true _ _) Hr'). left. reflexivity.
    - destruct (Qceqb r 0) eqn:E0; [right; reflexivity|].
      apply Qceqb_false in E0.
      assert (Hr' : (0 < r)%Qc).
      { destruct (Qcle_lt_or_eq _ _ Hr) as [H | H]; [exact H | congruence]. }
      rewrite (proj2 (Qcltb_true _ _) Hr'). left. reflexivity.
    - right. reflexivity. }
  unfold curve_update. cbn [equity max_drawdown].
  set (e' := (equity st + equity st * PInf * Fin r)%num) in *. clearbody e'.
  destruct E as [-> | ->].
  - split; [left; reflexivity|]. destruct (max_equity st); reflexivity.
  - split; [right; reflexivity | reflexivity].
Qed.

Lemma run_curve_inf_fraction rs : forall start st,
  blown (equity st) -> max_drawdown st = NaN ->
  Forall (fun r => (0 <= r)%Qc) rs ->
  blown (equity (run_curve PInf start (map Fin rs) st)) /\
  max_drawdown (run_curve PInf start (map Fin rs) st) = NaN.
Proof.
  induction rs as [|r rs IH]; intros start st He Hd Hall; cbn [map run_curve].
  - now split.
  - inversion Hall as [|? ? Hr Hrs]; subst.
    destruct (curve_update_inf_fraction start st r (or_intror He) Hr)
      as [He' Hd'].
    now apply IH.
Qed.

Section LossFreePool.

Variable pool : list Qc.
Hypothesis pool_not_empty : pool <> [].
Hypothesis pool_without_loss : Forall (fun r => (0 <= r)%Qc) pool.

Lemma loss_free_curve_at_one g :
  max_drawdown (default_curve (map Fin pool) (Fin 1%Qc) g) = Fin 0%Qc.
Proof.
  unfold default_curve. rewrite drawn_trades_fin by exact pool_not_empty.
  fold (drawn_returns pool g curve_draws).
  set (rs := drawn_returns pool g curve_draws).
  destruct (run_curve_tracks 1%Qc rs 0 (Spec.start (Q2Qc (100000 # 1)))
              (curve_init default_initial_capital
                 (repeat (Fin 0%Qc) curve_draws))
              (tracks_init _ _) default_initial_capital_pos) as (_ & _ & Hd).
  rewrite Hd. f_equal.
  apply (run_at_peak 1%Qc rs (Spec.start (Q2Qc (100000 # 1)))
           default_initial_capital_pos eq_refl eq_refl).
  apply Forall_drawn_returns; [exact pool_not_empty|].
  eapply Forall_impl; [|exact pool_without_loss].
  intros r Hr. simpl in Hr. now rewrite Qcmult_1_l.
Qed.

Lemma loss_free_curve_at_inf g :
  max_drawdown (default_curve (map Fin pool) PInf g) = NaN.
Proof.
  unfold default_curve. rewrite drawn_trades_fin by exact pool_not_empty.
  fold (drawn_returns pool g curve_draws).
  pose proof (Forall_drawn_returns _ pool g curve_draws pool_not_empty
                pool_without_loss) as Hall.
  pose proof (drawn_returns_length pool g curve_draws) as Hlen.
  destruct (drawn_returns pool g curve_draws) as [|r rs].
  - simpl in Hlen. symmetry in Hlen. now destruct (curve_draws_pos Hlen).
  - inversion Hall as [|? ? Hr Hrs]; subst. cbn [map run_curve].
    destruct (curve_update_inf_fraction 0
                (curve_init default_initial_capital
                   (repeat (Fin 0%Qc) curve_draws)) r
                (or_introl (ex_intro _ (Q2Qc (100000 # 1))
                              (conj eq_refl default_initial_capital_pos)))
                Hr) as [He Hd].
    now apply run_curve_inf_fraction.
Qed.

Lemma loss_free_curve_at_nan g :
  max_drawdown (default_curve (map Fin pool) NaN g) = NaN.
Proof.
  unfold default_curve.
  pose proof (drawn_trades_length g curve_draws (map Fin pool)) as Hlen.
  destruct (drawn_trades g curve_draws (map Fin pool)) as [|r rs].
  - simpl in Hlen. symmetry in Hlen. now destruct (curve_draws_pos Hlen).
  - cbn [run_curve].
    destruct (curve_update_nan_fraction 0
                (curve_init default_initial_capital
                   (repeat (Fin 0%Qc) curve_draws)) r) as [He Hd].
    now apply run_curve_nan.
Qed.

Lemma loss_free_pass_blown st g :
  blown (fraction st) ->
  solver_pass (map Fin pool) st g
  = Ok (mkSolver NaN NaN (safe_f st) false, advance g estimate_draws).
Proof.
  intros Hf.
  assert (Ht : tail_risk_at (map Fin pool) (fraction st) g
               = Ok (NaN, advance g estimate_draws)).
  { apply tail_risk_constant.
    - now apply map_Fin_ne.
    - intros g0. destruct Hf as [-> | ->];
        [apply loss_free_curve_at_inf | apply loss_free_curve_at_nan].
    - now left. }
  rewrite (solver_pass_eq _ _ _ _ _ Ht), converged_nan.
  destruct Hf as [-> | ->]; reflexivity.
Qed.

Lemma loss_free_loop_blown fuel : forall st g,
  blown (fraction st) -> done st = false ->
  exists g', while_not_done fuel (map Fin pool) st g = Ok (None, g').
Proof.
  induction fuel as [|fuel IH]; intros st g Hf Hd; cbn [while_not_done];
    rewrite Hd.
  - now eexists.
  - rewrite (bind_ok _ _ _ _ _ (loss_free_pass_blown st g Hf)).
    apply IH; [right; reflexivity | reflexivity].
Qed.

Lemma loss_free_tail_risk_at_one g :
  tail_risk_at (map Fin pool) (Fin 1%Qc) g
  = Ok (Fin 0%Qc, advance g estimate_draws).
Proof.
  apply tail_risk_constant.
  - now apply map_Fin_ne.
  - apply loss_free_curve_at_one.
  - right. now eexists.
Qed.

Lemma loss_free_solve fuel g :
  exists g', solve_safe_f fuel (map Fin pool) g = Ok (None, g').
Proof.
  unfold solve_safe_f, default_fraction.
  rewrite (bind_ok _ _ _ _ _ (loss_free_tail_risk_at_one g)).
  destruct fuel as [|fuel]; cbn [while_not_done done].
  - now eexists.
  - set (st := mkSolver (Fin 1%Qc) (Fin 0%Qc) None false).
    assert (Hp : solver_pass (map Fin pool) st (advance g estimate_draws)
                 = Ok (mkSolver PInf (Fin 0%Qc) None false,
                       advance (advance g estimate_draws) estimate_draws)).
    { rewrite (solver_pass_eq _ st _ _ _
                 (loss_free_tail_risk_at_one (advance g estimate_draws))).
      reflexivity. }
    rewrite (bind_ok _ _ _ _ _ Hp).
    apply loss_free_loop_blown; [left; reflexivity | reflexivity].
Qed.

End LossFreePool.

(** X14.  On every non-empty pool of rationals without a losing trade
    the solver never stops: the first pass measures the tail risk [0],
    the rescale makes the fraction [+inf], and every later estimate is
    [nan], which fails the test; after any number of passes the loop is
    still running. *)
Theorem solver_never_stops_without_a_loss
    (pool : list Qc) (fuel : nat) (g : rng) :
  pool <> [] -> Forall (fun r => (0 <= r)%Qc) pool ->
  exists g', solve_safe_f fuel (map Fin pool) g = Ok (None, g').
Proof. intros Hne Hall. now apply loss_free_solve. Qed.

Lemma solver_never_stops_without_a_loss_witness :
  [Q2Qc (1 # 100); Q2Qc 0; Q2Qc (3 # 1000)] <> [] /\
  Forall (fun r => (0 <= r)%Qc) [Q2Qc (1 # 100); Q2Qc 0; Q2Qc (3 # 1000)] /\
  exists g',
    solve_safe_f 7 (map Fin [Q2Qc (1 # 100); Q2Qc 0; Q2Qc (3 # 1000)])
      counting_source
    = Ok (None, g').
Proof.
  assert (Hall : Forall (fun r => (0 <= r)%Qc)
                   [Q2Qc (1 # 100); Q2Qc 0; Q2Qc (3 # 1000)])
    by (repeat constructor; discriminate).
  split; [discriminate|]. split; [exact Hall|].
  apply (solver_never_stops_without_a_loss
           [Q2Qc (1 # 100); Q2Qc 0; Q2Qc (3 # 1000)] 7 counting_source);
    [discriminate | exact Hall].
Defined.

(* ================================================================== *)
(** * Further properties of CAR25 *)

Local Open Scope R_scope.

(** ** The sign of the annualized growth *)





Local Close Scope R_scope.

(** ** CAR25 of pools that cannot lose *)








(* ================================================================== *)
(** * The estimate and the rescale, composed with the simulator *)

(** ** The direction of the rescale *)

Lemma not_converged_above (t : Qc) :
  (Q2Qc (103 # 1000) <= t)%Qc -> converged (Fin t) = false.
Proof.
  intros H. destruct (converged (Fin t)) eqn:E; [|reflexivity].
  destruct (converged_inv _ E) as (q & Hq & _ & Hu).
  injection Hq as <-. exfalso. apply (Qclt_not_le _ _ Hu H).
Qed.

Lemma not_converged_below (t : Qc) :
  (t <= Q2Qc (97 # 1000))%Qc -> converged (Fin t) = false.
Proof.
  intros H. destruct (converged (Fin t)) eqn:E; [|reflexivity].
  destruct (converged_inv _ E) as (q & Hq & Hl & _).
  injection Hq as <-. exfalso. apply (Qclt_not_le _ _ Hl H).
Qed.

Lemma rescale_fin (f t : Qc) :
  t <> 0%Qc ->
  (Fin f * drawdown_tolerance / Fin t)%num = Fin (f * Q2Qc (10 # 100) / t)%Qc.
Proof.
  intros Ht. unfold drawdown_tolerance, dec. cbn [nmul ndiv].
  now rewrite (proj2 (Qceqb_false _ _) Ht).
Qed.

(** X19.  A pass that measures a positive tail risk outside the band
    around the tolerance does not stop, and it moves a positive fraction
    towards the tolerance: the new fraction [fraction * 0.10 / tail_risk]
    is positive, smaller than the old one when the tail risk is [0.103]
    or more, and larger when it is [0.097] or less. *)
Theorem rescale_moves_towards_the_tolerance
    (trades : list num) (st : solver) (g g' : rng) (f t : Qc) :
  fraction st = Fin f -> (0 < f)%Qc -> (0 < t)%Qc ->
  tail_risk_at trades (Fin f) g = Ok (Fin t, g') ->
  (t <= Q2Qc (97 # 1000))%Qc \/ (Q2Qc (103 # 1000) <= t)%Qc ->
  let f' := (f * Q2Qc (10 # 100) / t)%Qc in
  solver_pass trades st g = Ok (mkSolver (Fin f') (Fin t) (safe_f st) false, g')
  /\ (0 < f')%Qc
  /\ ((Q2Qc (103 # 1000) <= t)%Qc -> (f' < f)%Qc)
  /\ ((t <= Q2Qc (97 # 1000))%Qc -> (f < f')%Qc).
Proof.
  intros Hf Hfpos Htpos Ht Hband f'. subst f'.
  assert (Hnc : converged (Fin t) = false)
    by (destruct Hband; [now apply not_converged_below
                        | now apply not_converged_above]).
  rewrite <- Hf in Ht.
  split.
  - rewrite (solver_pass_eq _ _ _ _ _ Ht), Hnc, Hf.
    now rewrite (rescale_fin f t (Qc_neq_0_lt _ Htpos)).
  - assert (Hpos : (0 < f * Q2Qc (10 # 100))%Qc) by (clear Ht; qc2q; qlra).
    split; [now apply Qcdiv_pos|].
    clear Ht Hnc Hband Hf. split; intros H; qc2q.
    + change ((f * (10 # 100)) / t < f)%Q. apply Qlt_shift_div_r; [exact Htpos|].
      qnra.
    + change (f < (f * (10 # 100)) / t)%Q. apply Qlt_shift_div_l; [exact Htpos|].
      qnra.
Qed.

Lemma half_loss_tail_risk g :
  tail_risk_at [Fin (Q2Qc (-1 # 2))] (Fin 1%Qc) g
  = Ok (Fin (1 - Q2Qc (1 # 2) ^ curve_draws)%Qc, advance g estimate_draws).
Proof.
  apply tail_risk_singleton_fin.
  apply (single_curve_loss (Q2Qc (-1 # 2)) 1%Qc (Q2Qc (1 # 2))).
  - discriminate.
  - discriminate.
  - apply Qc_is_canon. reflexivity.
Qed.

Lemma half_loss_drawdown_large :
  (Q2Qc (103 # 1000) <= 1 - Q2Qc (1 # 2) ^ curve_draws)%Qc.
Proof.
  destruct (Nat.eq_dec curve_draws 0) as [E | E];
    [now destruct (curve_draws_pos E)|].
  destruct curve_draws as [|n]; [congruence|].
  assert (H0 : (0 <= Q2Qc (1 # 2))%Qc) by discriminate.
  assert (H1 : (Q2Qc (1 # 2) <= 1)%Qc) by discriminate.
  destruct (Qcpower_le_1 (Q2Qc (1 # 2)) n H0 H1) as [P0 P1].
  rewrite Qcpower_S. set (P := (Q2Qc (1 # 2) ^ n)%Qc) in *. clearbody P.
  qc2q. qlra.
Qed.

Lemma rescale_moves_towards_the_tolerance_witness :
  fraction (solver_init (Fin 0%Qc)) = Fin 1%Qc /\ (0 < 1)%Qc /\
  (0 < 1 - Q2Qc (1 # 2) ^ curve_draws)%Qc /\
  tail_risk_at [Fin (Q2Qc (-1 # 2))] (Fin 1%Qc) zero_source
  = Ok (Fin (1 - Q2Qc (1 # 2) ^ curve_draws)%Qc,
        advance zero_source estimate_draws) /\
  solver_pass [Fin (Q2Qc (-1 # 2))] (solver_init (Fin 0%Qc)) zero_source
  = Ok (mkSolver
          (Fin (1 * Q2Qc (10 # 100) / (1 - Q2Qc (1 # 2) ^ curve_draws))%Qc)
          (Fin (1 - Q2Qc (1 # 2) ^ curve_draws)%Qc) None false,
        advance zero_source estimate_draws) /\
  (1 * Q2Qc (10 # 100) / (1 - Q2Qc (1 # 2) ^ curve_draws) < 1)%Qc.
Proof.
  pose proof half_loss_drawdown_large as Hlarge.
  assert (Hpos : (0 < 1 - Q2Qc (1 # 2) ^ curve_draws)%Qc).
  { eapply Qclt_le_trans; [|exact Hlarge]. reflexivity. }
  split; [reflexivity|]. split; [reflexivity|]. split; [exact Hpos|].
  split; [apply half_loss_tail_risk|].
  destruct (rescale_moves_towards_the_tolerance
              [Fin (Q2Qc (-1 # 2))] (solver_init (Fin 0%Qc)) zero_source
              (advance zero_source estimate_draws) 1%Qc
              (1 - Q2Qc (1 # 2) ^ curve_draws)%Qc
              eq_refl eq_refl Hpos (half_loss_tail_risk zero_source)
              (or_intror Hlarge)) as (Hpass & _ & Hdown & _).
  split; [exact Hpass | exact (Hdown Hlarge)].
Defined.

(* ================================================================== *)
(** * The simulator in binary64 arithmetic *)

(** ** Rounding to the nearest double is monotone and idempotent *)

Lemma rne_bounds s : (Qfloor s <= rne s <= Qfloor s + 1)%Z.
Proof.
  unfold rne. destruct (s - inject_Z (Qfloor s) ?= 1 # 2)%Q;
    [destruct (Z.even (Qfloor s))|..]; lia.
Qed.

Lemma rne_inject_Z z : rne (inject_Z z) = z.
Proof.
  unfold rne. rewrite Qfloor_Z.
  assert (H : (inject_Z z - inject_Z z ?= 1 # 2)%Q = Lt).
  { rewrite <- Qlt_alt. qlra. }
  now rewrite H.
Qed.

Lemma rne_mono s t : (s <= t)%Q -> (rne s <= rne t)%Z.
Proof.
  intros Hst. pose proof (Qfloor_resp_le _ _ Hst) as Hf.
  pose proof (rne_bounds s) as Bs. pose proof (rne_bounds t) as Bt.
  destruct (Z.eq_dec (Qfloor s) (Qfloor t)) as [E|NE]; [|lia].
  unfold rne in *. rewrite <- E in *.
  destruct (s - inject_Z (Qfloor s) ?= 1 # 2)%Q eqn:Cs;
    destruct (t - inject_Z (Qfloor s) ?= 1 # 2)%Q eqn:Ct;
    try lia;
    try (destruct (Z.even (Qfloor s)); lia);
    exfalso;
    try rewrite <- Qeq_alt in *; try rewrite <- Qlt_alt in *;
    try rewrite <- Qgt_alt in *; qlra.
Qed.

Lemma rne_comp s t : (s == t)%Q -> rne s = rne t.
Proof.
  intros H. apply Z.le_antisymm; apply rne_mono; rewrite H; apply Qle_refl.
Qed.

Lemma pow2_pos e : (0 < 2 ^ e)%Q.
Proof. apply Qpower_0_lt. reflexivity. Qed.

Lemma pow2_plus a b : (2 ^ (a + b) == 2 ^ a * 2 ^ b)%Q.
Proof. apply Qpower_plus. discriminate. Qed.

Lemma pow2_Z e : (0 <= e)%Z -> (2 ^ e == inject_Z (2 ^ e))%Q.
Proof. intros H. now rewrite Zpower_Qpower. Qed.

Lemma pow2_le a b : (a <= b)%Z -> (2 ^ a <= 2 ^ b)%Q.
Proof. intros H. apply Qpower_le_compat_l; [exact H | discriminate]. Qed.

Lemma pow2_lt a b : (a < b)%Z -> (2 ^ a < 2 ^ b)%Q.
Proof. intros H. apply Qpower_lt_compat_l; [exact H | reflexivity]. Qed.

Lemma pow2_lt_inv a b : (2 ^ a < 2 ^ b)%Q -> (a < b)%Z.
Proof. intros H. apply (Qpower_lt_compat_l_inv 2); [exact H | reflexivity]. Qed.

Lemma ilog2_spec q : (0 < q)%Q -> (2 ^ ilog2 q <= q < 2 ^ (ilog2 q + 1))%Q.
Proof.
  intros Hq. destruct q as [n d].
  assert (Hn : (0 < n)%Z).
  { unfold Qlt in Hq. simpl in Hq. lia. }
  unfold ilog2. cbn [Qnum Qden].
  set (a := Z.log2 n). set (b := Z.log2 (Z.pos d)).
  pose proof (Z.log2_spec n Hn) as [Ha1 Ha2]. fold a in Ha1, Ha2.
  pose proof (Z.log2_spec (Z.pos d) eq_refl) as [Hb1 Hb2]. fold b in Hb1, Hb2.
  pose proof (Z.log2_nonneg n) as Ha0. fold a in Ha0.
  pose proof (Z.log2_nonneg (Z.pos d)) as Hb0. fold b in Hb0.
  assert (Qa1 : (2 ^ a <= inject_Z n)%Q).
  { rewrite pow2_Z by exact Ha0. now rewrite <- Zle_Qle. }
  assert (Qa2 : (inject_Z n < 2 ^ (a + 1))%Q).
  { rewrite pow2_Z by lia. now rewrite <- Zlt_Qlt. }
  assert (Qb1 : (2 ^ b <= inject_Z (Z.pos d))%Q).
  { rewrite pow2_Z by exact Hb0. now rewrite <- Zle_Qle. }
  assert (Qb2 : (inject_Z (Z.pos d) < 2 ^ (b + 1))%Q).
  { rewrite pow2_Z by lia. now rewrite <- Zlt_Qlt. }
  assert (Hqd : (inject_Z n == (n # d) * inject_Z (Z.pos d))%Q).
  { unfold Qeq, Qmult, inject_Z. simpl. lia. }
  assert (Hd : (0 < inject_Z (Z.pos d))%Q) by (unfold Qlt; simpl; lia).
  set (q := (n # d)%Q) in *. set (D := inject_Z (Z.pos d)) in *.
  set (N := inject_Z n) in *. clearbody q D N.
  assert (Hlo : (2 ^ (a - b - 1) < q)%Q).
  { pose proof (pow2_plus (a - b - 1) (b + 1)) as E.
    replace (a - b - 1 + (b + 1))%Z with a in E by lia.
    pose proof (pow2_pos (a - b - 1)) as P.
    set (X := (2 ^ (a - b - 1))%Q) in *. set (A := (2 ^ a)%Q) in *.
    set (B1 := (2 ^ (b + 1))%Q) in *. clearbody X A B1.
    destruct (Qlt_le_dec X q) as [H|H]; [exact H|exfalso].
    assert (H1 : (0 <= (X - q) * D)%Q) by (apply Qmult_le_0_compat; qlra).
    assert (H2 : (0 < X * (B1 - D))%Q) by (apply Qmult_lt_0_compat; qlra).
    qlra. }
  assert (Hhi : (q < 2 ^ (a - b + 1))%Q).
  { pose proof (pow2_plus (a - b + 1) b) as E.
    replace (a - b + 1 + b)%Z with (a + 1)%Z in E by lia.
    pose proof (pow2_pos (a - b + 1)) as P.
    pose proof (pow2_pos b) as Pb.
    set (X := (2 ^ (a - b + 1))%Q) in *. set (A := (2 ^ (a + 1))%Q) in *.
    set (B := (2 ^ b)%Q) in *. clearbody X A B.
    destruct (Qlt_le_dec q X) as [H|H]; [exact H|exfalso].
    assert (H1 : (0 <= (q - X) * D)%Q) by (apply Qmult_le_0_compat; qlra).
    assert (H2 : (0 <= X * (D - B))%Q) by (apply Qmult_le_0_compat; qlra).
    qlra. }
  destruct (q ?= 2 ^ (a - b))%Q eqn:C.
  - rewrite <- Qeq_alt in C. split; [rewrite C; apply Qle_refl | exact Hhi].
  - rewrite <- Qlt_alt in C.
    replace (a - b - 1 + 1)%Z with (a - b)%Z by lia.
    split; [now apply Qlt_le_weak | exact C].
  - rewrite <- Qgt_alt in C. split; [now apply Qlt_le_weak | exact Hhi].
Qed.

Lemma ilog2_unique q k :
  (2 ^ k <= q)%Q -> (q < 2 ^ (k + 1))%Q -> ilog2 q = k.
Proof.
  intros H1 H2.
  assert (Hq : (0 < q)%Q) by (pose proof (pow2_pos k); qlra).
  destruct (ilog2_spec q Hq) as [I1 I2].
  assert (A : (k < ilog2 q + 1)%Z) by (apply pow2_lt_inv; qlra).
  assert (B : (ilog2 q < k + 1)%Z) by (apply pow2_lt_inv; qlra).
  lia.
Qed.

Lemma ilog2_mono p q : (0 < p)%Q -> (p <= q)%Q -> (ilog2 p <= ilog2 q)%Z.
Proof.
  intros Hp Hpq.
  assert (Hq : (0 < q)%Q) by qlra.
  destruct (ilog2_spec p Hp) as [P1 P2]. destruct (ilog2_spec q Hq) as [Q1 Q2].
  assert (A : (ilog2 p < ilog2 q + 1)%Z) by (apply pow2_lt_inv; qlra).
  lia.
Qed.

Lemma ilog2_lt q k : (0 < q)%Q -> (q < 2 ^ k)%Q -> (ilog2 q < k)%Z.
Proof.
  intros Hq H. destruct (ilog2_spec q Hq) as [I1 _].
  apply pow2_lt_inv. qlra.
Qed.

Lemma ulp_exp_mono p q : (0 < p)%Q -> (p <= q)%Q -> (ulp_exp p <= ulp_exp q)%Z.
Proof. intros Hp Hpq. unfold ulp_exp. pose proof (ilog2_mono p q Hp Hpq). lia. Qed.

Lemma pow2_grid m j e :
  (e <= j)%Z -> (inject_Z m * 2 ^ j == inject_Z (m * 2 ^ (j - e)) * 2 ^ e)%Q.
Proof.
  intros H. rewrite inject_Z_mult, <- pow2_Z by lia.
  rewrite <- Qmult_assoc, <- pow2_plus.
  now replace (j - e + e)%Z with j by lia.
Qed.

Lemma round_pos_le_grid q m j :
  (ulp_exp q <= j)%Z -> (q <= inject_Z m * 2 ^ j)%Q ->
  (round_pos q <= inject_Z m * 2 ^ j)%Q.
Proof.
  intros He Hq. rewrite (pow2_grid m j _ He) in *.
  unfold round_pos. apply Qmult_le_compat_r; [|apply Qlt_le_weak, pow2_pos].
  rewrite <- Zle_Qle. rewrite <- (rne_inject_Z (m * 2 ^ (j - ulp_exp q))).
  apply rne_mono. apply Qle_shift_div_r; [apply pow2_pos | exact Hq].
Qed.

Lemma round_pos_ge_grid q m j :
  (ulp_exp q <= j)%Z -> (inject_Z m * 2 ^ j <= q)%Q ->
  (inject_Z m * 2 ^ j <= round_pos q)%Q.
Proof.
  intros He Hq. rewrite (pow2_grid m j _ He) in *.
  unfold round_pos. apply Qmult_le_compat_r; [|apply Qlt_le_weak, pow2_pos].
  rewrite <- Zle_Qle. rewrite <- (rne_inject_Z (m * 2 ^ (j - ulp_exp q))) at 1.
  apply rne_mono. apply Qle_shift_div_l; [apply pow2_pos | exact Hq].
Qed.

Lemma round_pos_fix q m j :
  (ulp_exp q <= j)%Z -> (q == inject_Z m * 2 ^ j)%Q -> (round_pos q == q)%Q.
Proof.
  intros He Hq. apply Qle_antisym.
  - apply Qle_trans with (inject_Z m * 2 ^ j)%Q.
    + apply round_pos_le_grid; [exact He|]. apply Qle_lteq. now right.
    + apply Qle_lteq. right. now symmetry.
  - apply Qle_trans with (inject_Z m * 2 ^ j)%Q.
    + apply Qle_lteq. now right.
    + apply round_pos_ge_grid; [exact He|]. apply Qle_lteq. right. now symmetry.
Qed.

Lemma round_pos_zero q : (q == 0)%Q -> (round_pos q == 0)%Q.
Proof.
  intros Hq. unfold round_pos. generalize (ulp_exp q). intros e.
  rewrite (rne_comp _ (inject_Z 0)).
  - rewrite rne_inject_Z. unfold inject_Z. qlra.
  - rewrite Hq. unfold inject_Z, Qdiv. qlra.
Qed.

Lemma round_pos_nonneg q : (0 <= q)%Q -> (0 <= round_pos q)%Q.
Proof.
  intros Hq. unfold round_pos.
  apply Qmult_le_0_compat; [|apply Qlt_le_weak, pow2_pos].
  change 0%Q with (inject_Z 0). rewrite <- Zle_Qle.
  rewrite <- (rne_inject_Z 0) at 1. apply rne_mono.
  apply Qle_shift_div_l; [apply pow2_pos|]. unfold inject_Z. qlra.
Qed.

Lemma pow2_as_grid j : (2 ^ j == inject_Z 1 * 2 ^ j)%Q.
Proof. unfold inject_Z. qlra. Qed.

Lemma round_pos_mono p q :
  (0 < p)%Q -> (p <= q)%Q -> (round_pos p <= round_pos q)%Q.
Proof.
  intros Hp Hpq.
  assert (Hq : (0 < q)%Q) by qlra.
  pose proof (ulp_exp_mono p q Hp Hpq) as He.
  destruct (Z.eq_dec (ulp_exp p) (ulp_exp q)) as [E|NE].
  - unfold round_pos. rewrite E.
    apply Qmult_le_compat_r; [|apply Qlt_le_weak, pow2_pos].
    rewrite <- Zle_Qle. apply rne_mono.
    apply Qmult_le_compat_r; [exact Hpq|].
    apply Qlt_le_weak, Qinv_lt_0_compat, pow2_pos.
  - destruct (ilog2_spec p Hp) as [_ P2]. destruct (ilog2_spec q Hq) as [Q1 _].
    assert (Hk : (ilog2 p + 1 <= ilog2 q)%Z) by (unfold ulp_exp in *; lia).
    assert (He1 : (ulp_exp p <= ilog2 q)%Z) by (unfold ulp_exp in *; lia).
    assert (He2 : (ulp_exp q <= ilog2 q)%Z) by (unfold ulp_exp in *; lia).
    apply Qle_trans with (inject_Z 1 * 2 ^ ilog2 q)%Q.
    + apply round_pos_le_grid; [exact He1|]. rewrite <- pow2_as_grid.
      pose proof (pow2_le _ _ Hk). qlra.
    + apply round_pos_ge_grid; [exact He2|]. now rewrite <- pow2_as_grid.
Qed.

Lemma round_pos_comp p q :
  (0 <= p)%Q -> (p == q)%Q -> (round_pos p == round_pos q)%Q.
Proof.
  intros Hp0 H. destruct (Qlt_le_dec 0 p) as [Hp|Hp].
  - assert (Hq : (0 < q)%Q) by (rewrite <- H; exact Hp).
    apply Qle_antisym; apply round_pos_mono; try assumption;
      apply Qle_lteq; right; [exact H | now symmetry].
  - rewrite (round_pos_zero p), (round_pos_zero q); [reflexivity| |].
    + rewrite <- H. now apply Qle_antisym.
    + now apply Qle_antisym.
Qed.

Lemma rne_scaled_le q : (0 < q)%Q -> (rne (q / 2 ^ ulp_exp q) <= 2 ^ 53)%Z.
Proof.
  intros Hq. destruct (ilog2_spec q Hq) as [_ H2].
  rewrite <- (rne_inject_Z (2 ^ 53)). apply rne_mono.
  apply Qle_shift_div_r; [apply pow2_pos|].
  rewrite <- pow2_Z by lia. rewrite <- pow2_plus.
  assert (Hk : (ilog2 q + 1 <= 53 + ulp_exp q)%Z) by (unfold ulp_exp; lia).
  pose proof (pow2_le _ _ Hk). qlra.
Qed.

Lemma rne_nonneg s : (0 <= s)%Q -> (0 <= rne s)%Z.
Proof.
  intros H. rewrite <- (rne_inject_Z 0) at 1. apply rne_mono. exact H.
Qed.

Lemma ulp_exp_ge q : (-1074 <= ulp_exp q)%Z.
Proof. unfold ulp_exp. lia. Qed.

Lemma round_pos_idem q : (0 < q)%Q -> (round_pos (round_pos q) == round_pos q)%Q.
Proof.
  intros Hq. pose proof (rne_scaled_le q Hq) as Hm.
  assert (Hm0 : (0 <= rne (q / 2 ^ ulp_exp q))%Z).
  { apply rne_nonneg. apply Qle_shift_div_l; [apply pow2_pos|]. qlra. }
  pose proof (ulp_exp_ge q) as He.
  unfold round_pos at 2 3.
  set (e := ulp_exp q) in *. set (m := rne (q / 2 ^ e)) in *. clearbody e m.
  pose proof (pow2_pos e) as Pe.
  destruct (Z.eq_dec m 0) as [Z0|NZ].
  { subst m.
    assert (Z : (inject_Z 0 * 2 ^ e == 0)%Q) by (unfold inject_Z; qlra).
    apply Qeq_trans with 0%Q; [now apply round_pos_zero | now symmetry]. }
  assert (Hr : (0 < inject_Z m * 2 ^ e)%Q).
  { apply Qmult_lt_0_compat; [|exact Pe].
    change 0%Q with (inject_Z 0). rewrite <- Zlt_Qlt. lia. }
  destruct (Z.eq_dec m (2 ^ 53)) as [E|NE].
  - subst m.
    assert (Ev : (inject_Z (2 ^ 53) * 2 ^ e == 2 ^ (e + 53))%Q).
    { rewrite <- pow2_Z by lia. rewrite <- pow2_plus.
      now replace (53 + e)%Z with (e + 53)%Z by lia. }
    assert (Ek : ilog2 (inject_Z (2 ^ 53) * 2 ^ e) = (e + 53)%Z).
    { apply ilog2_unique.
      - apply Qle_lteq. right. now symmetry.
      - apply Qle_lt_trans with (2 ^ (e + 53))%Q.
        + apply Qle_lteq. now right.
        + apply pow2_lt. lia. }
    apply (round_pos_fix _ (2 ^ 52) (e + 1)).
    + unfold ulp_exp. rewrite Ek. lia.
    + apply Qeq_trans with (2 ^ (e + 53))%Q; [exact Ev|].
      rewrite <- pow2_Z by lia. rewrite <- pow2_plus.
      now replace (52 + (e + 1))%Z with (e + 53)%Z by lia.
  - apply (round_pos_fix _ m e); [|reflexivity].
    assert (Hlt : (inject_Z m * 2 ^ e < 2 ^ (e + 53))%Q).
    { replace (e + 53)%Z with (53 + e)%Z by lia. rewrite pow2_plus.
      apply Qmult_lt_compat_r; [exact Pe|].
      rewrite pow2_Z by lia. rewrite <- Zlt_Qlt. lia. }
    pose proof (ilog2_lt _ _ Hr Hlt). unfold ulp_exp. lia.
Qed.

(** *** Rounding of a signed rational *)

Lemma round_Q_pos q : (0 <= q)%Q -> round_Q q = round_pos q.
Proof.
  intros H. unfold round_Q. destruct (q ?= 0)%Q eqn:C; try reflexivity.
  rewrite <- Qlt_alt in C. exfalso. qlra.
Qed.

Lemma round_Q_neg q : (q < 0)%Q -> round_Q q = (- round_pos (- q))%Q.
Proof. intros H. unfold round_Q. rewrite Qlt_alt in H. now rewrite H. Qed.

Lemma round_Q_nonneg q : (0 <= q)%Q -> (0 <= round_Q q)%Q.
Proof. intros H. rewrite round_Q_pos by exact H. now apply round_pos_nonneg. Qed.

Lemma round_Q_nonpos q : (q <= 0)%Q -> (round_Q q <= 0)%Q.
Proof.
  intros H. destruct (Qlt_le_dec q 0) as [Hn|Hn].
  - rewrite round_Q_neg by exact Hn.
    assert (0 <= round_pos (- q))%Q by (apply round_pos_nonneg; qlra). qlra.
  - rewrite round_Q_pos by exact Hn.
    rewrite round_pos_zero; [apply Qle_refl | now apply Qle_antisym].
Qed.

Lemma round_Q_mono p q : (p <= q)%Q -> (round_Q p <= round_Q q)%Q.
Proof.
  intros Hpq.
  destruct (Qlt_le_dec p 0) as [Hp|Hp]; destruct (Qlt_le_dec q 0) as [Hq|Hq].
  - rewrite !round_Q_neg by assumption.
    assert (round_pos (- q) <= round_pos (- p))%Q
      by (apply round_pos_mono; qlra).
    qlra.
  - apply Qle_trans with 0%Q; [apply round_Q_nonpos | apply round_Q_nonneg]; qlra.
  - exfalso. qlra.
  - rewrite !round_Q_pos by assumption.
    destruct (Qlt_le_dec 0 p) as [Hp'|Hp'].
    + now apply round_pos_mono.
    + rewrite (round_pos_zero p) by (now apply Qle_antisym).
      now apply round_pos_nonneg.
Qed.

Lemma round_Q_comp p q : (p == q)%Q -> (round_Q p == round_Q q)%Q.
Proof.
  intros H. apply Qle_antisym; apply round_Q_mono; apply Qle_lteq; right;
    [exact H | now symmetry].
Qed.

Lemma round_Q_opp q : (round_Q (- q) == - round_Q q)%Q.
Proof.
  destruct (Qlt_le_dec q 0) as [Hn|Hn].
  - rewrite (round_Q_neg q), (round_Q_pos (- q)) by qlra. qlra.
  - destruct (Qlt_le_dec 0 q) as [Hp|Hp].
    + rewrite (round_Q_neg (- q)), (round_Q_pos q) by qlra.
      rewrite (round_pos_comp (- - q) q); [reflexivity|qlra|qlra].
    + rewrite (round_Q_pos q), (round_Q_pos (- q)) by qlra.
      rewrite (round_pos_zero q), (round_pos_zero (- q)); qlra.
Qed.

Lemma round_Q_idem q : (round_Q (round_Q q) == round_Q q)%Q.
Proof.
  destruct (Qlt_le_dec q 0) as [Hn|Hn].
  - rewrite (round_Q_neg q) by exact Hn.
    rewrite round_Q_opp. rewrite (round_Q_pos (round_pos (- q)))
      by (apply round_pos_nonneg; qlra).
    rewrite round_pos_idem by qlra. reflexivity.
  - rewrite (round_Q_pos q) by exact Hn.
    rewrite (round_Q_pos (round_pos q)) by (now apply round_pos_nonneg).
    destruct (Qlt_le_dec 0 q) as [Hp|Hp].
    + now apply round_pos_idem.
    + assert (Z : (round_pos q == 0)%Q)
        by (apply round_pos_zero; now apply Qle_antisym).
      rewrite (round_pos_zero _ Z). now symmetry.
Qed.

(** *** Rounding to a double *)

Lemma overflow_threshold_pos : (0 < overflow_threshold)%Q.
Proof. apply pow2_pos. Qed.

Lemma round64_cases q :
  (round64 q = PInf /\ (overflow_threshold <= round_Q q)%Q) \/
  (round64 q = NInf /\ (round_Q q <= - overflow_threshold)%Q) \/
  (round64 q = Fin (Q2Qc (round_Q q)) /\
   (- overflow_threshold < round_Q q < overflow_threshold)%Q).
Proof.
  unfold round64. cbv zeta.
  destruct (Qle_bool overflow_threshold (round_Q q)) eqn:H1.
  - left. split; [reflexivity | now apply Qle_bool_iff].
  - destruct (Qle_bool (round_Q q) (- overflow_threshold)) eqn:H2.
    + right. left. split; [reflexivity | now apply Qle_bool_iff].
    + right. right. split; [reflexivity|].
      split; apply Qnot_le_lt; intros C; apply Qle_bool_iff in C; congruence.
Qed.

Lemma Q2Qc_le p q : (p <= q)%Q -> (Q2Qc p <= Q2Qc q)%Qc.
Proof. intros H. unfold Qcle. cbn [this Q2Qc]. now rewrite !Qred_correct. Qed.

Lemma nle_fin a b : nle (Fin a) (Fin b) = true <-> (a <= b)%Qc.
Proof.
  simpl. unfold Qcltb. rewrite negb_true_iff. split.
  - intros H. apply Qcnot_lt_le. intros C. unfold Qclt in C.
    rewrite Qlt_alt in C. unfold Qccompare in H. now rewrite C in H.
  - intros H. destruct (b ?= a)%Qc eqn:C; try reflexivity.
    exfalso. apply (Qcle_not_lt _ _ H). unfold Qclt. rewrite Qlt_alt. exact C.
Qed.

Lemma round64_mono a b : (a <= b)%Qc -> nle (round64 a) (round64 b) = true.
Proof.
  intros Hab. pose proof (round_Q_mono a b Hab) as Hr.
  pose proof overflow_threshold_pos as HT.
  destruct (round64_cases a) as [[Ea Ha]|[[Ea Ha]|[Ea Ha]]];
    destruct (round64_cases b) as [[Eb Hb]|[[Eb Hb]|[Eb Hb]]];
    rewrite Ea, Eb; try reflexivity; try (exfalso; qlra).
  apply nle_fin. now apply Q2Qc_le.
Qed.

Lemma round64_fin_double a b : round64 a = Fin b -> round64 b = Fin b.
Proof.
  intros H.
  destruct (round64_cases a) as [[Ea Ha]|[[Ea Ha]|[Ea Ha]]];
    rewrite Ea in H; try discriminate.
  injection H as <-.
  assert (E : (round_Q (Q2Qc (round_Q a)) == round_Q a)%Q).
  { rewrite (round_Q_comp (Q2Qc (round_Q a)) (round_Q a)).
    - apply round_Q_idem.
    - cbn [this Q2Qc]. apply Qred_correct. }
  destruct (round64_cases (Q2Qc (round_Q a))) as [[Eb Hb]|[[Eb Hb]|[Eb Hb]]].
  - exfalso. rewrite E in Hb. qlra.
  - exfalso. rewrite E in Hb. qlra.
  - rewrite Eb. f_equal. apply Qc_is_canon. cbn [this Q2Qc] in *.
    rewrite Qred_correct. rewrite E. symmetry. apply Qred_correct.
Qed.

Lemma round64_opp a : round64 (- a) = nopp (round64 a).
Proof.
  assert (E : (round_Q (- a)%Qc == - round_Q a)%Q).
  { rewrite (round_Q_comp (- a)%Qc (- a)%Q).
    - apply round_Q_opp.
    - cbn [this Qcopp Q2Qc]. apply Qred_correct. }
  pose proof overflow_threshold_pos as HT.
  destruct (round64_cases a) as [[Ea Ha]|[[Ea Ha]|[Ea Ha]]];
    destruct (round64_cases (- a)) as [[Eb Hb]|[[Eb Hb]|[Eb Hb]]];
    rewrite Ea, Eb; rewrite E in Hb; try reflexivity; try (exfalso; qlra).
  simpl. f_equal. apply Qc_is_canon. cbn [this Qcopp Q2Qc].
  rewrite !Qred_correct. exact E.
Qed.

(** A rational that is its own rounding, by evaluation. *)
Lemma is_double_by_evaluation (q : Qc) :
  Qle_bool overflow_threshold (round_Q q) = false ->
  Qle_bool (round_Q q) (- overflow_threshold) = false ->
  Qeq_bool (round_Q q) q = true ->
  is_double q.
Proof.
  intros H1 H2 H3. unfold is_double, round64. cbv zeta. rewrite H1, H2.
  f_equal. apply Qc_is_canon. cbn [this Q2Qc]. rewrite Qred_correct.
  now apply Qeq_bool_iff.
Qed.

Lemma is_double_0 : is_double 0.
Proof. apply is_double_by_evaluation; vm_compute; reflexivity. Qed.

Lemma is_double_1 : is_double 1.
Proof. apply is_double_by_evaluation; vm_compute; reflexivity. Qed.

Lemma is_double_capital : is_double capital.
Proof. apply is_double_by_evaluation; vm_compute; reflexivity. Qed.

Lemma is_double_seven : is_double seven.
Proof. apply is_double_by_evaluation; vm_compute; reflexivity. Qed.

Lemma round64_between lo hi a :
  is_double lo -> is_double hi -> (lo <= a)%Qc -> (a <= hi)%Qc ->
  exists y,
    round64 a = Fin y /\ is_double y /\ (lo <= y)%Qc /\ (y <= hi)%Qc.
Proof.
  intros Hlo Hhi H1 H2.
  pose proof (round64_mono _ _ H1) as M1. rewrite Hlo in M1.
  pose proof (round64_mono _ _ H2) as M2. rewrite Hhi in M2.
  destruct (round64 a) as [y| | |] eqn:E; try discriminate.
  exists y. split; [reflexivity|]. split; [exact (round64_fin_double a y E)|].
  split; now apply nle_fin.
Qed.

Lemma round64_above lo a :
  is_double lo -> (lo <= a)%Qc ->
  (exists y, round64 a = Fin y /\ is_double y /\ (lo <= y)%Qc) \/
  round64 a = PInf.
Proof.
  intros Hlo H1.
  pose proof (round64_mono _ _ H1) as M1. rewrite Hlo in M1.
  destruct (round64 a) as [y| | |] eqn:E; try discriminate.
  - left. exists y. split; [reflexivity|].
    split; [exact (round64_fin_double a y E) | now apply nle_fin].
  - now right.
Qed.

Lemma is_double_opp q : is_double q -> is_double (- q).
Proof. unfold is_double. intros H. now rewrite round64_opp, H. Qed.

Lemma round_fin_double x q : F64.round x = Fin q -> is_double q.
Proof.
  destruct x as [a| | |]; simpl; try discriminate.
  apply round64_fin_double.
Qed.

(** ** The binary64 loop is a fold over the drawn trades *)

Lemma curve_step64_ok trades fraction i st g :
  trades <> [] ->
  F64.curve_step trades fraction (Z.of_nat (length trades)) i st g
  = Ok (F64.curve_update fraction i st
          (nth (draw_index g (length trades) 0) trades NaN), advance g 1).
Proof.
  intros Hne. unfold F64.curve_step.
  assert (Hlen : length trades <> 0) by (destruct trades; simpl; congruence).
  rewrite (bind_ok _ _ _ _ _ (randint_pool _ g Hlen)).
  rewrite (bind_ok _ _ _ _ _
             (getitem_nth trades (draw_index g (length trades) 0) NaN _
                (Nat.mod_upper_bound _ _ Hlen))).
  reflexivity.
Qed.

Lemma for_range_curve64 trades fraction n : forall start st g,
  trades <> [] ->
  for_range start n (F64.curve_step trades fraction (Z.of_nat (length trades)))
    st g
  = Ok (run_curve64 fraction start (drawn_trades g n trades) st, advance g n).
Proof.
  induction n as [|n IH]; intros start st g Hne.
  - simpl. unfold ret. now rewrite advance_0.
  - simpl for_range.
    rewrite (bind_ok _ _ _ _ _ (curve_step64_ok _ _ _ _ _ Hne)).
    rewrite IH by exact Hne. rewrite drawn_trades_S, advance_advance.
    reflexivity.
Qed.

Lemma equity_loop64_ok trades fraction forecast_length initial_capital g :
  trades <> [] -> (0 <= forecast_length)%Z ->
  F64.equity_loop trades fraction forecast_length initial_capital g
  = Ok (run_curve64 fraction 0
          (drawn_trades g (Z.to_nat forecast_length) trades)
          (curve_init initial_capital
             (repeat (Fin 0%Qc) (Z.to_nat forecast_length))),
        advance g (Z.to_nat forecast_length)).
Proof.
  intros Hne Hfl. unfold F64.equity_loop, np_zeros.
  destruct (Z.ltb_spec forecast_length 0) as [H|H]; [lia|].
  unfold bind at 1. unfold ret at 1.
  now apply for_range_curve64.
Qed.

Lemma make_one_equity_sequence64_ok trades fraction forecast_length
    initial_capital g st g' :
  F64.equity_loop trades fraction forecast_length initial_capital g
  = Ok (st, g') ->
  F64.make_one_equity_sequence trades fraction forecast_length
    initial_capital g
  = Ok ((equity st, max_drawdown st), g').
Proof.
  intros H. unfold F64.make_one_equity_sequence.
  now rewrite (bind_ok _ _ _ _ _ H).
Qed.

(** [daily_equity] ends as the list of the equities of the passes. *)
Lemma run_curve64_daily fraction rs : forall start st pre zeros,
  daily_equity st = pre ++ zeros -> length pre = start ->
  length zeros = length rs ->
  daily_equity (run_curve64 fraction start rs st)
  = pre ++ curve_equities64 fraction start rs st.
Proof.
  induction rs as [|r rs IH]; intros start st pre zeros Hd Hpre Hz; simpl.
  - destruct zeros; [|discriminate]. exact Hd.
  - destruct zeros as [|z zeros]; [discriminate|].
    rewrite (IH (S start) _
               (pre ++ [equity (F64.curve_update fraction start st r)]) zeros).
    + now rewrite <- app_assoc.
    + unfold F64.curve_update at 1. cbn [daily_equity equity].
      rewrite Hd, <- Hpre, list_set_app.
      now rewrite <- app_assoc.
    + rewrite length_app. simpl. lia.
    + simpl in Hz. lia.
Qed.

Lemma equity_loop64_daily trades fraction n initial_capital g :
  daily_equity
    (run_curve64 fraction 0 (drawn_trades g n trades)
       (curve_init initial_capital (repeat (Fin 0%Qc) n)))
  = curve_equities64 fraction 0 (drawn_trades g n trades)
      (curve_init initial_capital (repeat (Fin 0%Qc) n)).
Proof.
  apply (run_curve64_daily fraction _ 0 _ [] (repeat (Fin 0%Qc) n)).
  - reflexivity.
  - reflexivity.
  - now rewrite repeat_length, drawn_trades_length.
Qed.

(** ** One pass in binary64 arithmetic *)

Lemma equity_update64 fraction i st r :
  equity (F64.curve_update fraction i st r)
  = F64.fadd (equity st) (F64.fmul (F64.fmul (equity st) fraction) r).
Proof. reflexivity. Qed.

Lemma nlt_PInf x : nlt PInf x = false.
Proof. now destruct x. Qed.

(** The peak is never zero. *)
Lemma curve_update64_divisor fraction i st r :
  divisor_ok st -> divisor_ok (F64.curve_update fraction i st r).
Proof.
  unfold divisor_ok, F64.curve_update. cbn [equity max_equity].
  intros [[He Hm]|Hm].
  - left. rewrite He, Hm. now split.
  - generalize (F64.fadd (equity st)
                  (F64.fmul (F64.fmul (equity st) fraction) r)).
    intros e'. unfold pymax.
    destruct e' as [x| | |], (max_equity st) as [m| | |];
      simpl in *; try discriminate; auto.
    destruct (Qcltb x m) eqn:C; [now right|].
    right. simpl. apply Qcltb_true. apply Qcltb_true in Hm.
    apply Qcltb_false in C. now apply Qclt_le_trans with m.
Qed.

Lemma run_curve64_divisor fraction rs : forall start st,
  divisor_ok st -> divisor_ok (run_curve64 fraction start rs st).
Proof.
  induction rs as [|r rs IH]; intros start st H; simpl; [exact H|].
  apply IH. now apply curve_update64_divisor.
Qed.

(** The drawdown below a positive peak that is a double. *)
Lemma drawdown64_unit m x :
  is_double m -> (0 < m)%Qc -> (0 <= x)%Qc -> (x <= m)%Qc ->
  exists z,
    F64.fdiv (F64.fsub (Fin m) (Fin x)) (Fin m) = Fin z /\
    (0 <= z)%Qc /\ (z <= 1)%Qc.
Proof.
  intros Dm Pm Hx Hxm.
  assert (E : F64.fsub (Fin m) (Fin x) = round64 (m + - x)) by reflexivity.
  destruct (round64_between 0 m (m + - x) is_double_0 Dm)
    as (y & Ey & _ & Hy0 & Hym).
  { qc2q. qlra. }
  { qc2q. qlra. }
  rewrite E, Ey. unfold F64.fdiv. cbn [ndiv].
  assert (Hm0 : Qceqb m 0 = false) by (apply Qceqb_false; now apply Qc_neq_0_lt).
  rewrite Hm0. cbn [F64.round].
  destruct (round64_between 0 1 (y / m) is_double_0 is_double_1)
    as (z & Ez & _ & Hz0 & Hz1).
  { qc2q. apply Qle_shift_div_l; qlra. }
  { qc2q. apply Qle_shift_div_r; qlra. }
  exists z. now split.
Qed.

Lemma pymax_lt x m : Qcltb x m = true -> pymax (Fin x) (Fin m) = Fin m.
Proof. intros H. unfold pymax. simpl. now rewrite H. Qed.

Lemma pymax_ge x m : Qcltb x m = false -> pymax (Fin x) (Fin m) = Fin x.
Proof. intros H. unfold pymax. simpl. now rewrite H. Qed.

Lemma pymax_unit z d :
  (0 <= z)%Qc -> (z <= 1)%Qc -> (0 <= d)%Qc -> (d <= 1)%Qc ->
  exists d', pymax (Fin z) (Fin d) = Fin d' /\ (0 <= d')%Qc /\ (d' <= 1)%Qc.
Proof.
  intros. unfold pymax. simpl. destruct (Qcltb z d); eexists; eauto.
Qed.

(** A pass that ends with an equity that is a double, and not negative,
    keeps the peak positive and the largest drawdown in [[0, 1]]. *)
Lemma curve_update64_sound fraction i st r x :
  sound st ->
  equity (F64.curve_update fraction i st r) = Fin x -> (0 <= x)%Qc ->
  sound (F64.curve_update fraction i st r).
Proof.
  intros (m & d & HM & Dm & Pm & HD & D0 & D1) He Hx.
  assert (Dx : is_double x).
  { rewrite equity_update64 in He. exact (round_fin_double _ _ He). }
  unfold sound, F64.curve_update in *. cbn [equity max_equity max_drawdown] in *.
  rewrite He, HM, HD.
  destruct (Qcltb x m) eqn:C.
  - rewrite (pymax_lt x m C). apply Qcltb_true in C.
    destruct (drawdown64_unit m x Dm Pm Hx (Qclt_le_weak _ _ C))
      as (z & Ez & Hz0 & Hz1).
    rewrite Ez.
    destruct (pymax_unit z d Hz0 Hz1 D0 D1) as (d' & Ed & Hd0 & Hd1).
    exists m, d'. repeat split; assumption.
  - rewrite (pymax_ge x m C). apply Qcltb_false in C.
    assert (Px : (0 < x)%Qc) by (now apply Qclt_le_trans with m).
    destruct (drawdown64_unit x x Dx Px Hx (Qcle_refl x))
      as (z & Ez & Hz0 & Hz1).
    rewrite Ez.
    destruct (pymax_unit z d Hz0 Hz1 D0 D1) as (d' & Ed & Hd0 & Hd1).
    exists x, d'. repeat split; assumption.
Qed.

Lemma run_curve64_sound fraction rs : forall start st,
  sound st ->
  Forall (fun e => is_finite e = true /\ nle (Fin 0%Qc) e = true)
    (curve_equities64 fraction start rs st) ->
  sound (run_curve64 fraction start rs st).
Proof.
  induction rs as [|r rs IH]; intros start st Hs Hall;
    cbn [run_curve64 curve_equities64] in *; [exact Hs|].
  inversion Hall as [|e es [Hfin Hpos] Hrest]; subst.
  rewrite <- (equity_update64 fraction start st r) in Hfin, Hpos.
  apply IH; [|exact Hrest].
  destruct (equity (F64.curve_update fraction start st r)) as [x| | |] eqn:E;
    try discriminate.
  apply (curve_update64_sound fraction start st r x Hs E).
  now apply nle_fin.
Qed.

Lemma sound_init c daily :
  is_double c -> (0 < c)%Qc -> sound (curve_init (Fin c) daily).
Proof.
  intros Dc Pc. exists c, 0%Qc. simpl.
  repeat split; try assumption; try reflexivity; discriminate.
Qed.

Lemma sound_unit st :
  sound st ->
  nle (Fin 0%Qc) (max_drawdown st) = true /\
  nle (max_drawdown st) (Fin 1%Qc) = true.
Proof.
  intros (m & d & _ & _ & _ & HD & D0 & D1). rewrite HD.
  split; now apply nle_fin.
Qed.

Lemma max_equity_update64 fraction i st r :
  max_equity (F64.curve_update fraction i st r)
  = pymax (equity (F64.curve_update fraction i st r)) (max_equity st).
Proof. reflexivity. Qed.

Lemma max_drawdown_update64 fraction i st r :
  max_drawdown (F64.curve_update fraction i st r)
  = pymax
      (F64.fdiv
         (F64.fsub (max_equity (F64.curve_update fraction i st r))
            (equity (F64.curve_update fraction i st r)))
         (max_equity (F64.curve_update fraction i st r)))
      (max_drawdown st).
Proof. reflexivity. Qed.

(** ** An equity that has left the doubles *)

(** Once the equity is [+inf] or [nan], so is the peak, and the largest
    drawdown is [nan]. *)
Lemma curve_update64_blown fraction i st r :
  blown (equity (F64.curve_update fraction i st r)) ->
  overflowed (F64.curve_update fraction i st r).
Proof.
  intros He. unfold overflowed.
  rewrite max_drawdown_update64, max_equity_update64.
  destruct He as [E|E]; rewrite E.
  - unfold pymax at 1 2 3. rewrite nlt_PInf.
    split; [now left|]. split; [now left | reflexivity].
  - split; [now right|]. split; [now right | reflexivity].
Qed.

Lemma curve_update64_stays_blown fraction i st r :
  blown (equity st) -> blown (equity (F64.curve_update fraction i st r)).
Proof.
  rewrite equity_update64.
  generalize (F64.fmul (F64.fmul (equity st) fraction) r).
  intros td [E|E]; rewrite E; unfold F64.fadd.
  - destruct td; simpl; unfold blown; auto.
  - now right.
Qed.

Lemma curve_update64_overflowed fraction i st r :
  overflowed st -> overflowed (F64.curve_update fraction i st r).
Proof.
  intros (He & _). apply curve_update64_blown.
  now apply curve_update64_stays_blown.
Qed.

Lemma blown_not_negative x : blown x -> nlt x (Fin 0%Qc) = false.
Proof. intros [E|E]; rewrite E; reflexivity. Qed.

(** ** A stake that is bounded by the account *)

Section BoundedStake.

Variable fraction : Qc.
Hypothesis fraction_not_negative : (0 <= fraction)%Qc.
Hypothesis fraction_at_most_1 : (fraction <= 1)%Qc.

(** A trade that loses no more than the stake leaves the account out of
    debt, unless the equity overflows. *)
Lemma curve_update64_no_ruin i st r :
  (- (1) <= r)%Qc -> solvent st -> sound st ->
  (solvent (F64.curve_update (Fin fraction) i st (Fin r)) /\
   sound (F64.curve_update (Fin fraction) i st (Fin r))) \/
  overflowed (F64.curve_update (Fin fraction) i st (Fin r)).
Proof.
  intros Hr (x & Ex & Dx & Hx) Hs.
  pose proof (equity_update64 (Fin fraction) i st (Fin r)) as E.
  rewrite Ex in E.
  assert (T1 : F64.fmul (Fin x) (Fin fraction) = round64 (x * fraction))
    by reflexivity.
  destruct (round64_between 0 x (x * fraction) is_double_0 Dx)
    as (y1 & E1 & D1 & L1 & U1).
  { qc2q. apply Qmult_le_0_compat; assumption. }
  { qc2q. assert (0 <= x * (1 - fraction))%Q
      by (apply Qmult_le_0_compat; qlra). qlra. }
  rewrite T1, E1 in E.
  assert (T2 : F64.fmul (Fin y1) (Fin r) = round64 (y1 * r)) by reflexivity.
  destruct (round64_above (- y1) (y1 * r) (is_double_opp _ D1))
    as [(y2 & E2 & D2 & L2)|E2].
  { qc2q. assert (0 <= y1 * (r + 1))%Q
      by (apply Qmult_le_0_compat; qlra). qlra. }
  - rewrite T2, E2 in E.
    assert (T3 : F64.fadd (Fin x) (Fin y2) = round64 (x + y2)) by reflexivity.
    rewrite T3 in E.
    destruct (round64_above 0 (x + y2) is_double_0)
      as [(x' & E3 & D3 & L3)|E3].
    { qc2q. qlra. }
    + left. rewrite E3 in E. split.
      * exists x'. now split.
      * exact (curve_update64_sound _ _ _ _ x' Hs E L3).
    + right. apply curve_update64_blown. rewrite E, E3. now left.
  - right. apply curve_update64_blown. rewrite E, T2, E2. now left.
Qed.

Lemma run_curve64_no_ruin rs : forall start st,
  Forall (fun r => (- (1) <= r)%Qc) rs ->
  (solvent st /\ sound st) \/ overflowed st ->
  ((solvent (run_curve64 (Fin fraction) start (map Fin rs) st) /\
    sound (run_curve64 (Fin fraction) start (map Fin rs) st)) \/
   overflowed (run_curve64 (Fin fraction) start (map Fin rs) st)) /\
  Forall (fun e => nlt e (Fin 0%Qc) = false)
    (curve_equities64 (Fin fraction) start (map Fin rs) st).
Proof.
  induction rs as [|r rs IH]; intros start st Hall Hst;
    cbn [map run_curve64 curve_equities64].
  - split; [exact Hst | constructor].
  - inversion Hall as [|r' rs' Hr Hrs]; subst.
    assert (Hst' : (solvent (F64.curve_update (Fin fraction) start st (Fin r)) /\
                    sound (F64.curve_update (Fin fraction) start st (Fin r))) \/
                   overflowed (F64.curve_update (Fin fraction) start st (Fin r))).
    { destruct Hst as [[Hsol Hsnd]|Hov].
      - now apply curve_update64_no_ruin.
      - right. now apply curve_update64_overflowed. }
    destruct (IH (S start) _ Hrs Hst') as [Hfinal Hdaily].
    split; [exact Hfinal|]. constructor; [|exact Hdaily].
    destruct Hst' as [[(x & Ex & _ & Hx) _]|(Hb & _)].
    + rewrite Ex. simpl. now apply Qcltb_false.
    + now apply blown_not_negative.
Qed.

End BoundedStake.

(** ** A pool without a loss *)

Lemma drawdown64_zero x :
  x <> 0%Qc -> F64.fdiv (F64.fsub (Fin x) (Fin x)) (Fin x) = Fin 0%Qc.
Proof.
  intros Hx.
  assert (E : F64.fsub (Fin x) (Fin x) = round64 (x + - x)) by reflexivity.
  rewrite E, Qcplus_opp_r, is_double_0. unfold F64.fdiv. cbn [ndiv].
  apply Qceqb_false in Hx. rewrite Hx. cbn [F64.round].
  assert (Z : (0 / x = 0)%Qc) by (unfold Qcdiv; ring).
  rewrite Z. exact is_double_0.
Qed.

Section PoolWithoutLoss.

Variables fraction c : Qc.
Hypothesis fraction_not_negative : (0 <= fraction)%Qc.
Hypothesis capital_positive : (0 < c)%Qc.

Lemma curve_update64_no_loss i st r :
  (0 <= r)%Qc -> at_peak c st ->
  at_peak c (F64.curve_update (Fin fraction) i st (Fin r)) \/
  overflowed (F64.curve_update (Fin fraction) i st (Fin r)).
Proof.
  intros Hr (x & Ex & Mx & Dx & Cx & HD).
  pose proof (equity_update64 (Fin fraction) i st (Fin r)) as E.
  rewrite Ex in E.
  assert (Hx : (0 <= x)%Qc).
  { apply Qcle_trans with c; [now apply Qclt_le_weak | exact Cx]. }
  assert (T1 : F64.fmul (Fin x) (Fin fraction) = round64 (x * fraction))
    by reflexivity.
  rewrite T1 in E.
  destruct (round64_above 0 (x * fraction) is_double_0)
    as [(y1 & E1 & D1 & L1)|E1].
  { qc2q. apply Qmult_le_0_compat; assumption. }
  - rewrite E1 in E.
    assert (T2 : F64.fmul (Fin y1) (Fin r) = round64 (y1 * r)) by reflexivity.
    rewrite T2 in E.
    destruct (round64_above 0 (y1 * r) is_double_0)
      as [(y2 & E2 & D2 & L2)|E2].
    { qc2q. apply Qmult_le_0_compat; assumption. }
    + rewrite E2 in E.
      assert (T3 : F64.fadd (Fin x) (Fin y2) = round64 (x + y2))
        by reflexivity.
      rewrite T3 in E.
      destruct (round64_above x (x + y2) Dx) as [(x' & E3 & D3 & L3)|E3].
      { qc2q. qlra. }
      * left. rewrite E3 in E. exists x'.
        assert (Hmax : max_equity (F64.curve_update (Fin fraction) i st (Fin r))
                       = Fin x').
        { rewrite max_equity_update64, E, Mx. apply pymax_ge.
          now apply Qcltb_false. }
        split; [exact E|]. split; [exact Hmax|]. split; [exact D3|].
        split; [now apply Qcle_trans with x|].
        rewrite max_drawdown_update64, Hmax, E, HD.
        rewrite drawdown64_zero; [reflexivity|].
        apply Qc_neq_0_lt. apply Qclt_le_trans with c; [exact capital_positive|].
        now apply Qcle_trans with x.
      * right. apply curve_update64_blown. rewrite E, E3. now left.
    + right. apply curve_update64_blown. rewrite E, E2. now left.
  - right. apply curve_update64_blown. rewrite E, E1.
    unfold F64.fmul, F64.fadd. cbn [nmul]. unfold inf_times.
    destruct (Qceqb r 0) eqn:R0; [now right|].
    assert (Hp : Qcltb 0 r = true).
    { apply Qcltb_true. apply Qceqb_false in R0.
      destruct (Qcle_lt_or_eq _ _ Hr) as [H|H]; [exact H|].
      now symmetry in H. }
    rewrite Hp. now left.
Qed.

Lemma run_curve64_no_loss rs : forall start st,
  Forall (fun r => (0 <= r)%Qc) rs ->
  at_peak c st \/ overflowed st ->
  at_peak c (run_curve64 (Fin fraction) start (map Fin rs) st) \/
  overflowed (run_curve64 (Fin fraction) start (map Fin rs) st).
Proof.
  induction rs as [|r rs IH]; intros start st Hall Hst;
    cbn [map run_curve64]; [exact Hst|].
  inversion Hall as [|r' rs' Hr Hrs]; subst.
  apply IH; [exact Hrs|].
  destruct Hst as [Hp|Hov].
  - now apply curve_update64_no_loss.
  - right. now apply curve_update64_overflowed.
Qed.

End PoolWithoutLoss.

(** ** The drawdown of a curve of doubles *)

(** *** The pool [[7.0]]: an equity multiplied by 8 at each pass *)

Lemma round_pos_grid_point m j :
  (0 < m < 2 ^ 53)%Z -> (-1074 <= j)%Z ->
  (round_pos (inject_Z m * 2 ^ j) == inject_Z m * 2 ^ j)%Q.
Proof.
  intros Hm Hj. apply (round_pos_fix _ m j); [|reflexivity].
  pose proof (pow2_pos j) as Pj.
  assert (Hpos : (0 < inject_Z m * 2 ^ j)%Q).
  { apply Qmult_lt_0_compat; [|exact Pj].
    change 0%Q with (inject_Z 0). rewrite <- Zlt_Qlt. lia. }
  assert (Hlt : (inject_Z m * 2 ^ j < 2 ^ (j + 53))%Q).
  { replace (j + 53)%Z with (53 + j)%Z by lia. rewrite pow2_plus.
    apply Qmult_lt_compat_r; [exact Pj|].
    rewrite pow2_Z by lia. rewrite <- Zlt_Qlt. lia. }
  pose proof (ilog2_lt _ _ Hpos Hlt). unfold ulp_exp. lia.
Qed.

Lemma round_Q_ge_grid (a : Q) m j :
  (0 < m < 2 ^ 53)%Z -> (-1074 <= j)%Z ->
  (inject_Z m * 2 ^ j <= a)%Q -> (inject_Z m * 2 ^ j <= round_Q a)%Q.
Proof.
  intros Hm Hj Ha. pose proof (pow2_pos j) as Pj.
  assert (Hpos : (0 <= inject_Z m * 2 ^ j)%Q).
  { apply Qmult_le_0_compat; [|now apply Qlt_le_weak].
    change 0%Q with (inject_Z 0). rewrite <- Zle_Qle. lia. }
  pose proof (round_Q_mono _ _ Ha) as Hr.
  rewrite (round_Q_pos _ Hpos) in Hr.
  apply Qle_trans with (round_pos (inject_Z m * 2 ^ j)); [|exact Hr].
  apply Qle_lteq. right. symmetry. now apply round_pos_grid_point.
Qed.

(** A rounding that is a double is not below a grid point that the
    rounded number is not below. *)
Lemma round64_ge_grid (a : Qc) m j y :
  (0 < m < 2 ^ 53)%Z -> (-1074 <= j)%Z ->
  (inject_Z m * 2 ^ j <= a)%Q ->
  round64 a = Fin y -> (inject_Z m * 2 ^ j <= y)%Q.
Proof.
  intros Hm Hj Ha E. pose proof (round_Q_ge_grid a m j Hm Hj Ha) as Hr.
  destruct (round64_cases a) as [[Ea _]|[[Ea _]|[Ea _]]];
    rewrite Ea in E; try discriminate.
  injection E as <-. cbn [this Q2Qc]. now rewrite Qred_correct.
Qed.

Lemma is_double_below_threshold x : is_double x -> (x < overflow_threshold)%Q.
Proof.
  unfold is_double. intros E.
  destruct (round64_cases x) as [[Ea _]|[[Ea _]|[Ea [_ Hlt]]]];
    rewrite Ea in E; try discriminate.
  injection E as E. rewrite <- E at 1. cbn [this Q2Qc].
  now rewrite Qred_correct.
Qed.

Lemma round64_not_negative (a : Qc) :
  (0 <= a)%Qc ->
  round64 a = PInf \/ exists y, round64 a = Fin y /\ (0 <= y)%Qc.
Proof.
  intros Ha.
  destruct (round64_above 0 a is_double_0 Ha) as [(y & E & _ & Hy)|E].
  - right. now exists y.
  - now left.
Qed.

Lemma seven_step j i st :
  (-1074 <= j)%Z -> growing j st ->
  growing (j + 3) (F64.curve_update (Fin 1%Qc) i st (Fin seven)) /\
  nle (Fin 0%Qc) (equity (F64.curve_update (Fin 1%Qc) i st (Fin seven)))
  = true.
Proof.
  intros Hj [(x & Ex & Mx & Dx & Lx & HD)|[Ex HD]].
  - pose proof (equity_update64 (Fin 1%Qc) i st (Fin seven)) as E.
    rewrite Ex in E.
    assert (T1 : F64.fmul (Fin x) (Fin 1%Qc) = Fin x).
    { change (F64.fmul (Fin x) (Fin 1%Qc)) with (round64 (x * 1)).
      rewrite Qcmult_1_r. exact Dx. }
    rewrite T1 in E.
    change (F64.fmul (Fin x) (Fin seven)) with (round64 (x * seven)) in E.
    pose proof (pow2_pos j) as Pj.
    assert (Hx : (0 < x)%Q) by qlra.
    assert (Hx7 : (inject_Z 7 * 2 ^ j <= (x * seven)%Qc)%Q).
    { unfold Qcmult, seven. cbn [this Q2Qc]. rewrite !Qred_correct.
      unfold inject_Z. qlra. }
    assert (Hx7' : (0 <= x * seven)%Qc).
    { unfold Qcle. change (0 <= (x * seven)%Qc)%Q.
      apply Qle_trans with (inject_Z 7 * 2 ^ j)%Q; [|exact Hx7].
      unfold inject_Z. qlra. }
    destruct (round64_not_negative _ Hx7') as [E2|(y2 & E2 & Hy2)].
    { rewrite E2 in E. change (F64.fadd (Fin x) PInf) with PInf in E.
      split; [|now rewrite E].
      right. split; [exact E|].
      apply curve_update64_blown. rewrite E. now left. }
    pose proof (round64_ge_grid _ 7 j y2 ltac:(lia) Hj Hx7 E2) as Ly2.
    rewrite E2 in E.
    change (F64.fadd (Fin x) (Fin y2)) with (round64 (x + y2)) in E.
    assert (Hsum : (inject_Z 1 * 2 ^ (j + 3) <= (x + y2)%Qc)%Q).
    { unfold Qcplus. cbn [this Q2Qc]. rewrite Qred_correct.
      rewrite pow2_plus. change (2 ^ 3)%Q with 8%Q.
      unfold inject_Z in *. qlra. }
    assert (Hsum' : (x <= x + y2)%Qc) by (qc2q; qlra).
    assert (Hsum0 : (0 <= x + y2)%Qc).
    { apply Qcle_trans with x; [|exact Hsum']. unfold Qcle.
      change (0 <= x)%Q. qlra. }
    destruct (round64_not_negative _ Hsum0) as [E3|(x' & E3 & Hx')].
    { rewrite E3 in E. split; [|now rewrite E].
      right. split; [exact E|].
      apply curve_update64_blown. rewrite E. now left. }
    pose proof (round64_ge_grid _ 1 (j + 3) x' ltac:(lia) ltac:(lia) Hsum E3)
      as Lx'.
    pose proof (round64_mono _ _ Hsum') as Hmono.
    rewrite Dx, E3 in Hmono. apply nle_fin in Hmono.
    rewrite E3 in E.
    assert (Hmax : max_equity (F64.curve_update (Fin 1%Qc) i st (Fin seven))
                   = Fin x').
    { rewrite max_equity_update64, E, Mx. apply pymax_ge.
      now apply Qcltb_false. }
    split; [|rewrite E; now apply nle_fin].
    left. exists x'.
    split; [exact E|]. split; [exact Hmax|].
    split; [exact (round64_fin_double _ _ E3)|].
    split; [unfold inject_Z in Lx'; qlra|].
    rewrite max_drawdown_update64, Hmax, E, HD.
    rewrite drawdown64_zero; [reflexivity|].
    intros Z. rewrite Z in Hmono. unfold Qcle in Hmono.
    change (x <= 0)%Q in Hmono. qlra.
  - pose proof (equity_update64 (Fin 1%Qc) i st (Fin seven)) as E.
    rewrite Ex in E.
    assert (T : F64.fadd PInf (F64.fmul (F64.fmul PInf (Fin 1%Qc)) (Fin seven))
                = PInf) by (vm_compute; reflexivity).
    rewrite T in E. split; [|now rewrite E].
    right. split; [exact E|].
    apply curve_update64_blown. rewrite E. now left.
Qed.

Lemma seven_run n : forall start st j,
  (-1074 <= j)%Z -> growing j st ->
  growing (j + 3 * Z.of_nat n)
    (run_curve64 (Fin 1%Qc) start (repeat (Fin seven) n) st) /\
  Forall (fun e => nle (Fin 0%Qc) e = true)
    (curve_equities64 (Fin 1%Qc) start (repeat (Fin seven) n) st).
Proof.
  induction n as [|n IH]; intros start st j Hj Hg;
    cbn [repeat run_curve64 curve_equities64].
  - split; [|constructor]. now replace (j + 3 * Z.of_nat 0)%Z with j by lia.
  - destruct (seven_step j start st Hj Hg) as [Hg' Hpos].
    destruct (IH (S start) _ (j + 3)%Z ltac:(lia) Hg') as [Hfinal Hall].
    split.
    + now replace (j + 3 * Z.of_nat (S n))%Z
        with (j + 3 + 3 * Z.of_nat n)%Z by lia.
    + constructor; assumption.
Qed.

(** C7 (counterexample).  The doubles [7.0], [1.0] and [100000.0] are a
    pool, a fraction and an initial capital for which every equity of the
    500 passes is non-negative, and yet the function returns the equity
    [+inf] and the drawdown [nan], which is not in [[0, 1]]: the equity
    multiplied by 8 at each pass overflows, the peak follows it, and the
    drawdown is [(inf - inf) / inf].  The fraction [+inf], which the
    solver passes on after a tail risk of [0], has the same effect in
    one pass on the pool [[1.0]]. *)
Lemma max_drawdown_nan_after_overflow :
  is_double seven /\ is_double 1 /\ is_double capital /\
  F64.make_one_equity_sequence [Fin 1%Qc] PInf 1 (Fin capital) zero_source
  = Ok ((PInf, NaN), advance zero_source 1) /\
  exists st,
    F64.equity_loop [Fin seven] (Fin 1%Qc) 500 (Fin capital) zero_source
    = Ok (st, advance zero_source 500) /\
    Forall (fun e => nle (Fin 0%Qc) e = true) (daily_equity st) /\
    F64.make_one_equity_sequence [Fin seven] (Fin 1%Qc) 500 (Fin capital)
      zero_source
    = Ok ((PInf, NaN), advance zero_source 500) /\
    nle (Fin 0%Qc) (max_drawdown st) = false /\
    nle (max_drawdown st) (Fin 1%Qc) = false.
Proof.
  split; [exact is_double_seven|]. split; [exact is_double_1|].
  split; [exact is_double_capital|].
  split; [vm_compute; reflexivity|].
  pose proof (equity_loop64_ok [Fin seven] (Fin 1%Qc) 500 (Fin capital)
                zero_source) as Hloop.
  pose proof (make_one_equity_sequence64_ok [Fin seven] (Fin 1%Qc) 500
                (Fin capital) zero_source) as Hret.
  pose proof (equity_loop64_daily [Fin seven] (Fin 1%Qc) (Z.to_nat 500)
                (Fin capital) zero_source) as Hdaily.
  rewrite drawn_trades_singleton in Hloop, Hdaily.
  assert (H0 : growing 16 (curve_init (Fin capital)
                             (repeat (Fin 0%Qc) (Z.to_nat 500)))).
  { left. exists capital. split; [reflexivity|]. split; [reflexivity|].
    split; [exact is_double_capital|]. split; [|reflexivity].
    vm_compute. discriminate. }
  destruct (seven_run (Z.to_nat 500) 0 _ 16 ltac:(lia) H0) as [Hg Hall].
  rewrite <- Hdaily in Hall.
  revert Hloop Hret Hg Hall.
  generalize (run_curve64 (Fin 1%Qc) 0 (repeat (Fin seven) (Z.to_nat 500))
                (curve_init (Fin capital) (repeat (Fin 0%Qc) (Z.to_nat 500)))).
  intros st Hloop Hret Hg Hall.
  specialize (Hloop ltac:(discriminate) ltac:(discriminate)).
  specialize (Hret _ _ Hloop).
  destruct Hg as [(x & _ & _ & Dx & Lx & _)|[He Hd]].
  - exfalso. pose proof (is_double_below_threshold x Dx) as Hlt.
    assert (Hle : (overflow_threshold <= 2 ^ (16 + 3 * Z.of_nat (Z.to_nat 500)))%Q)
      by (apply pow2_le; lia).
    qlra.
  - exists st. rewrite He, Hd in Hret. rewrite Hd.
    split; [exact Hloop|]. split; [exact Hall|].
    split; [exact Hret|]. split; reflexivity.
Qed.

(** C7 (amended).  For every non-empty pool and every fraction, of
    doubles of any kind, and an initial capital that is a positive
    double: the loop runs to its end; after every number of passes the
    divisor [max_equity] is not zero (it is positive, or it is [nan]
    together with the equity); and if every equity recorded in
    [daily_equity] is finite and non-negative, the [max_drawdown] the
    function returns lies in [[0, 1]]. *)
Theorem max_drawdown_in_unit_interval_without_overflow
    (trades : list num) (fraction : num) (forecast_length : Z)
    (initialCapital : Qc) (g : rng) :
  trades <> [] -> (0 <= forecast_length)%Z ->
  (0 < initialCapital)%Qc -> is_double initialCapital ->
  let n := Z.to_nat forecast_length in
  (forall k, k <= n ->
     exists st,
       for_range 0 k
         (F64.curve_step trades fraction (Z.of_nat (length trades)))
         (curve_init (Fin initialCapital) (repeat (Fin 0%Qc) n)) g
       = Ok (st, advance g k)
       /\ (max_equity st = NaN \/ nlt (Fin 0%Qc) (max_equity st) = true)) /\
  exists st,
    F64.equity_loop trades fraction forecast_length (Fin initialCapital) g
    = Ok (st, advance g n) /\
    F64.make_one_equity_sequence trades fraction forecast_length
      (Fin initialCapital) g
    = Ok ((equity st, max_drawdown st), advance g n) /\
    (Forall (fun e => is_finite e = true /\ nle (Fin 0%Qc) e = true)
       (daily_equity st) ->
     nle (Fin 0%Qc) (max_drawdown st) = true /\
     nle (max_drawdown st) (Fin 1%Qc) = true).
Proof.
  intros Hne Hfl Hic Dic n. subst n.
  split.
  - intros k Hk. eexists. split; [now apply for_range_curve64|].
    assert (H0 : divisor_ok (curve_init (Fin initialCapital)
                               (repeat (Fin 0%Qc) (Z.to_nat forecast_length)))).
    { right. simpl. now apply Qcltb_true. }
    destruct (run_curve64_divisor fraction (drawn_trades g k trades) 0 _ H0)
      as [[_ H]|H]; [now left | now right].
  - eexists. split; [now apply equity_loop64_ok|].
    split.
    { apply make_one_equity_sequence64_ok. now apply equity_loop64_ok. }
    intros Hall. rewrite equity_loop64_daily in Hall.
    apply sound_unit. apply run_curve64_sound; [|exact Hall].
    now apply sound_init.
Qed.

Lemma max_drawdown_in_unit_interval_without_overflow_witness :
  [Fin (Q2Qc (1 # 100)); Fin (Q2Qc (-2 # 100))] <> [] /\
  (0 <= 3)%Z /\
  (0 < capital)%Qc /\
  is_double capital /\
  exists st,
    F64.equity_loop [Fin (Q2Qc (1 # 100)); Fin (Q2Qc (-2 # 100))] (Fin 1%Qc) 3
      (Fin capital) counting_source
    = Ok (st, advance counting_source 3) /\
    F64.make_one_equity_sequence
      [Fin (Q2Qc (1 # 100)); Fin (Q2Qc (-2 # 100))] (Fin 1%Qc) 3
      (Fin capital) counting_source
    = Ok ((equity st, max_drawdown st), advance counting_source 3) /\
    nlt (Fin 0%Qc) (max_equity st) = true /\
    Forall (fun e => is_finite e = true /\ nle (Fin 0%Qc) e = true)
      (daily_equity st) /\
    nle (Fin 0%Qc) (max_drawdown st) = true /\
    nle (max_drawdown st) (Fin 1%Qc) = true.
Proof.
  split; [discriminate|]. split; [discriminate|]. split; [reflexivity|].
  split; [exact is_double_capital|].
  destruct (max_drawdown_in_unit_interval_without_overflow
              [Fin (Q2Qc (1 # 100)); Fin (Q2Qc (-2 # 100))] (Fin 1%Qc) 3
              capital counting_source)
    as [Hdiv (st & Hst & Hret & Hdd)].
  - discriminate.
  - discriminate.
  - reflexivity.
  - exact is_double_capital.
  - pose proof Hst as Hval. vm_compute in Hval. injection Hval as <-.
    eexists. split; [exact Hst|]. split; [exact Hret|].
    split; [reflexivity|].
    match type of Hdd with
    | ?A -> _ => assert (Hall : A) by (repeat constructor)
    end.
    split; [exact Hall | exact (Hdd Hall)].
Defined.

(** X3.  A fraction of [[0, 1]] staked on trades none of which loses more
    than the stake ([r >= -1]) never puts the account in debt: started
    with a positive double, the binary64 loop records no negative equity,
    and it ends either with an equity that is not negative and a
    [max_drawdown] of [[0, 1]], or, after an overflow of the equity, with
    an equity [+inf] or [nan] and the [max_drawdown] [nan]. *)
Theorem bounded_stake_keeps_equity_nonnegative
    (pool : list Qc) (fraction : Qc) (forecast_length : Z) (c : Qc) (g : rng) :
  pool <> [] -> (0 <= forecast_length)%Z ->
  (0 < c)%Qc -> is_double c ->
  (0 <= fraction)%Qc -> (fraction <= 1)%Qc ->
  Forall (fun r => (- (1) <= r)%Qc) pool ->
  exists st,
    F64.equity_loop (map Fin pool) (Fin fraction) forecast_length (Fin c) g
    = Ok (st, advance g (Z.to_nat forecast_length)) /\
    F64.make_one_equity_sequence (map Fin pool) (Fin fraction) forecast_length
      (Fin c) g
    = Ok ((equity st, max_drawdown st), advance g (Z.to_nat forecast_length)) /\
    Forall (fun e => nlt e (Fin 0%Qc) = false) (daily_equity st) /\
    ((exists e d,
        equity st = Fin e /\ max_drawdown st = Fin d /\
        (0 <= e)%Qc /\ (0 <= d)%Qc /\ (d <= 1)%Qc) \/
     (blown (equity st) /\ max_drawdown st = NaN)).
Proof.
  intros Hne Hfl Hc Dc Hf0 Hf1 Hpool.
  pose proof (map_Fin_ne _ Hne) as Hne'.
  eexists. split; [now apply equity_loop64_ok|].
  split.
  { apply make_one_equity_sequence64_ok. now apply equity_loop64_ok. }
  rewrite equity_loop64_daily. rewrite drawn_trades_returns by exact Hne.
  destruct (run_curve64_no_ruin fraction Hf0 Hf1
              (drawn_returns pool g (Z.to_nat forecast_length)) 0
              (curve_init (Fin c) (repeat (Fin 0%Qc) (Z.to_nat forecast_length))))
    as [Hfinal Hdaily].
  - now apply Forall_drawn_returns.
  - left. split.
    + exists c. split; [reflexivity|]. split; [exact Dc|].
      now apply Qclt_le_weak.
    + now apply sound_init.
  - split; [exact Hdaily|].
    destruct Hfinal as [[(x & Ex & _ & Hx) (m & d & _ & _ & _ & HD & D0 & D1)]
                       |(Hb & _ & Hd)].
    + left. exists x, d. repeat split; assumption.
    + right. now split.
Qed.

Lemma bounded_stake_keeps_equity_nonnegative_witness :
  [Q2Qc (-1 # 2); Q2Qc (1 # 4)] <> [] /\ (0 <= 3)%Z /\
  (0 < capital)%Qc /\ is_double capital /\
  (0 <= Q2Qc (1 # 2))%Qc /\ (Q2Qc (1 # 2) <= 1)%Qc /\
  Forall (fun r => (- (1) <= r)%Qc) [Q2Qc (-1 # 2); Q2Qc (1 # 4)] /\
  exists st,
    F64.equity_loop (map Fin [Q2Qc (-1 # 2); Q2Qc (1 # 4)])
      (Fin (Q2Qc (1 # 2))) 3 (Fin capital) counting_source
    = Ok (st, advance counting_source (Z.to_nat 3)) /\
    F64.make_one_equity_sequence (map Fin [Q2Qc (-1 # 2); Q2Qc (1 # 4)])
      (Fin (Q2Qc (1 # 2))) 3 (Fin capital) counting_source
    = Ok ((equity st, max_drawdown st), advance counting_source (Z.to_nat 3)) /\
    Forall (fun e => nlt e (Fin 0%Qc) = false) (daily_equity st) /\
    ((exists e d,
        equity st = Fin e /\ max_drawdown st = Fin d /\
        (0 <= e)%Qc /\ (0 <= d)%Qc /\ (d <= 1)%Qc) \/
     (blown (equity st) /\ max_drawdown st = NaN)).
Proof.
  assert (Hpool : Forall (fun r => (- (1) <= r)%Qc)
                    [Q2Qc (-1 # 2); Q2Qc (1 # 4)])
    by (repeat constructor; discriminate).
  split; [discriminate|]. split; [discriminate|]. split; [reflexivity|].
  split; [exact is_double_capital|].
  split; [discriminate|]. split; [discriminate|]. split; [exact Hpool|].
  apply (bounded_stake_keeps_equity_nonnegative
           [Q2Qc (-1 # 2); Q2Qc (1 # 4)] (Q2Qc (1 # 2)) 3 capital
           counting_source);
    try discriminate; try reflexivity;
    [exact is_double_capital | exact Hpool].
Defined.

(** X4.  On a pool without a losing trade, at a fraction that is not
    negative and from an initial capital that is a positive double, the
    binary64 curve never leaves its peak: the function returns an equity
    of at least the initial capital with the [max_drawdown] exactly [0],
    unless the equity overflows, and then it returns an equity [+inf] or
    [nan] with the [max_drawdown] [nan]. *)
Theorem no_loss_no_drawdown_unless_overflow
    (pool : list Qc) (fraction : Qc) (forecast_length : Z) (c : Qc) (g : rng) :
  pool <> [] -> (0 <= forecast_length)%Z ->
  (0 < c)%Qc -> is_double c ->
  (0 <= fraction)%Qc -> Forall (fun r => (0 <= r)%Qc) pool ->
  (exists e,
     F64.make_one_equity_sequence (map Fin pool) (Fin fraction)
       forecast_length (Fin c) g
     = Ok ((Fin e, Fin 0%Qc), advance g (Z.to_nat forecast_length)) /\
     (c <= e)%Qc) \/
  (exists e,
     F64.make_one_equity_sequence (map Fin pool) (Fin fraction)
       forecast_length (Fin c) g
     = Ok ((e, NaN), advance g (Z.to_nat forecast_length)) /\
     blown e).
Proof.
  intros Hne Hfl Hc Dc Hf0 Hpool.
  pose proof (map_Fin_ne _ Hne) as Hne'.
  pose proof (make_one_equity_sequence64_ok _ _ _ _ _ _ _
                (equity_loop64_ok (map Fin pool) (Fin fraction) forecast_length
                   (Fin c) g Hne' Hfl)) as Hret.
  rewrite drawn_trades_returns in Hret by exact Hne.
  destruct (run_curve64_no_loss fraction c Hf0 Hc
              (drawn_returns pool g (Z.to_nat forecast_length)) 0
              (curve_init (Fin c) (repeat (Fin 0%Qc) (Z.to_nat forecast_length))))
    as [(x & Ex & _ & _ & Cx & HD)|(Hb & _ & Hd)].
  - now apply Forall_drawn_returns.
  - left. exists c. simpl. repeat split; try reflexivity; try assumption.
    apply Qcle_refl.
  - left. exists x. rewrite Ex, HD in Hret. now split.
  - right. eexists. rewrite Hd in Hret. split; [exact Hret | exact Hb].
Qed.

Lemma no_loss_no_drawdown_unless_overflow_witness :
  [Q2Qc (1 # 100); Q2Qc 0] <> [] /\ (0 <= 3)%Z /\
  (0 < capital)%Qc /\ is_double capital /\
  (0 <= Q2Qc 2)%Qc /\
  Forall (fun r => (0 <= r)%Qc) [Q2Qc (1 # 100); Q2Qc 0] /\
  ((exists e,
      F64.make_one_equity_sequence (map Fin [Q2Qc (1 # 100); Q2Qc 0])
        (Fin (Q2Qc 2)) 3 (Fin capital) counting_source
      = Ok ((Fin e, Fin 0%Qc), advance counting_source (Z.to_nat 3)) /\
      (capital <= e)%Qc) \/
   (exists e,
      F64.make_one_equity_sequence (map Fin [Q2Qc (1 # 100); Q2Qc 0])
        (Fin (Q2Qc 2)) 3 (Fin capital) counting_source
      = Ok ((e, NaN), advance counting_source (Z.to_nat 3)) /\
      blown e)).
Proof.
  assert (Hpool : Forall (fun r => (0 <= r)%Qc) [Q2Qc (1 # 100); Q2Qc 0])
    by (repeat constructor; discriminate).
  split; [discriminate|]. split; [discriminate|]. split; [reflexivity|].
  split; [exact is_double_capital|]. split; [discriminate|].
  split; [exact Hpool|].
  apply (no_loss_no_drawdown_unless_overflow
           [Q2Qc (1 # 100); Q2Qc 0] (Q2Qc 2) 3 capital counting_source);
    try discriminate; try reflexivity;
    [exact is_double_capital | exact Hpool].
Defined.
